(** * atomKV: a Bitcask-style append-only key-value store

    Shallow embedding of [bitcask.go] (package [atomkv]) and proofs about
    its record format, its index and its [Set]/[Get]/[Load]/[Compact]
    operations.

    The Go program talks to the operating system through [*os.File].  The
    embedding makes that explicit: a [World] holds the contents of every
    file by path together with a schedule of injected I/O faults, and a
    [File] is a handle (path, cursor, append flag, closed flag).  Every
    operation threads the world and the handles it touches.  Each exported
    method holds the lock of the engine for its whole body, so each is one
    sequential step here. *)

From Stdlib Require Import ZArith List Lia.
From Stdlib Require Import Strings.String Strings.Byte.
From stdpp Require Import base gmap strings list fin_maps.

Local Open Scope Z_scope.

(** ** Bytes and fixed-width little-endian integers ([encoding/binary]) *)

Module binary.

(** Go's conversion [byte(v)]: the low eight bits of [v]. *)
Definition byte_of_Z (z : Z) : byte :=
  default x00 (Byte.of_N (Z.to_N (Z.land z 255))).

Definition Z_of_byte (b : byte) : Z := Z.of_N (Byte.to_N b).

(** [LittleEndian.PutUintN]: [b[i] = byte(v >> (8*i))] for [i < n]. *)
Fixpoint put_le (n : nat) (v : Z) : list byte :=
  match n with
  | O => []
  | S n' => byte_of_Z v :: put_le n' (Z.shiftr v 8)
  end.

(** [LittleEndian.UintN]: [b[0] | b[1]<<8 | ...]. *)
Fixpoint get_le (bs : list byte) : Z :=
  match bs with
  | [] => 0
  | b :: bs' => Z.lor (Z_of_byte b) (Z.shiftl (get_le bs') 8)
  end.

(** The conversions [uint32(x)] and [int64(x)] with their wrap-around. *)
Definition uint32 (z : Z) : Z := z mod 2 ^ 32.
Definition int64 (z : Z) : Z := (z + 2 ^ 63) mod 2 ^ 64 - 2 ^ 63.

Definition PutUint32 (v : Z) : list byte := put_le 4 v.
Definition PutUint64 (v : Z) : list byte := put_le 8 v.
Definition Uint32 (bs : list byte) : Z := get_le (take 4 bs).
Definition Uint64 (bs : list byte) : Z := get_le (take 8 bs).

End binary.

(** ** The operating system: files, handles and errors ([os], [io]) *)

Module os.

(** The error values the package can return.  [PathError] stands for the
    [*os.PathError] / [*os.LinkError] values wrapping an errno. *)
Inductive error : Type :=
  | ErrKeyNotFound
  | EOF
  | ErrUnexpectedEOF
  | ErrClosed
  | PathError (errno : nat).

Definition ENOENT : nat := 2.
Definition EINVAL : nat := 22.

(** An injected fault: the call fails with [fault_errno]; a faulted write
    has transferred [fault_done] bytes before failing. *)
Record Fault : Type := mkFault { fault_errno : nat; fault_done : nat }.

(** [files] maps a path to the bytes of the file there.  [faults] is the
    fault schedule: every file operation below that reaches the operating
    system consumes its head; [None] (or an exhausted schedule) lets the
    operation proceed normally.  [io.ReadFull] counts as one operation. *)
Record World : Type := mkWorld {
  files : gmap string (list byte);
  faults : list (option Fault)
}.

(** A handle.  Handles are resolved by path: the package never renames or
    unlinks a path while it holds an open handle on it, so path and inode
    coincide for every handle it uses. *)
Record File : Type := mkFile {
  f_name : string;
  f_pos : Z;
  f_append : bool;
  f_closed : bool
}.

Inductive Whence : Type := SeekStart | SeekCurrent | SeekEnd.

Definition next_fault (w : World) : option Fault * World :=
  match faults w with
  | [] => (None, w)
  | x :: rest => (x, mkWorld (files w) rest)
  end.

Definition content (w : World) (f : File) : list byte :=
  default [] (files w !! f_name f).

Definition store (w : World) (p : string) (d : list byte) : World :=
  mkWorld (<[p := d]> (files w)) (faults w).

Definition with_pos (f : File) (p : Z) : File :=
  mkFile (f_name f) p (f_append f) (f_closed f).

Definition zeros (n : nat) : list byte := replicate n x00.

(** [os.OpenFile(path, O_RDWR | flags, 0644)]. *)
Definition OpenFile (p : string) (o_create o_trunc o_append : bool) (w : World)
  : World * (error + File) :=
  let '(flt, w) := next_fault w in
  match flt with
  | Some x => (w, inl (PathError (fault_errno x)))
  | None =>
    match files w !! p with
    | None =>
      if o_create then (store w p [], inr (mkFile p 0 o_append false))
      else (w, inl (PathError ENOENT))
    | Some _ =>
      ((if o_trunc then store w p [] else w), inr (mkFile p 0 o_append false))
    end
  end.

(** [f.Seek(offset, whence)]. *)
Definition Seek (f : File) (offset : Z) (whence : Whence) (w : World)
  : World * File * (error + Z) :=
  if f_closed f then (w, f, inl ErrClosed) else
  let '(flt, w) := next_fault w in
  match flt with
  | Some x => (w, f, inl (PathError (fault_errno x)))
  | None =>
    let base := match whence with
                | SeekStart => 0
                | SeekCurrent => f_pos f
                | SeekEnd => Z.of_nat (length (content w f))
                end in
    let p := base + offset in
    if p <? 0 then (w, f, inl (PathError EINVAL))
    else (w, with_pos f p, inr p)
  end.

(** [io.ReadFull(f, buf)] with [len(buf) = n].  The result is the buffer
    after the call (zero where nothing was read) and the error.  A buffer of
    length zero is satisfied without any read; at end of file nothing read
    is [EOF] and a short read is [ErrUnexpectedEOF]. *)
Definition ReadFull (f : File) (n : nat) (w : World)
  : World * File * (list byte * option error) :=
  match n with
  | O => (w, f, ([], None))
  | S _ =>
    if f_closed f then (w, f, (zeros n, Some ErrClosed)) else
    let '(flt, w) := next_fault w in
    match flt with
    | Some x => (w, f, (zeros n, Some (PathError (fault_errno x))))
    | None =>
      let got := take n (drop (Z.to_nat (f_pos f)) (content w f)) in
      let f' := with_pos f (f_pos f + Z.of_nat (length got)) in
      if (length got =? n)%nat then (w, f', (got, None))
      else (w, f', (got ++ zeros (n - length got),
                    Some (match got with [] => EOF | _ => ErrUnexpectedEOF end)))
    end
  end.

(** [f.ReadAt(buf, off)] with [len(buf) = n]: positional, the cursor is not
    used and not moved; a short read is [EOF].  A negative offset is
    refused first; an empty buffer is then satisfied without touching the
    file. *)
Definition ReadAt (f : File) (n : nat) (off : Z) (w : World)
  : World * (list byte * option error) :=
  if off <? 0 then (w, (zeros n, Some (PathError EINVAL))) else
  match n with
  | O => (w, ([], None))
  | S _ =>
    if f_closed f then (w, (zeros n, Some ErrClosed)) else
    let '(flt, w) := next_fault w in
    match flt with
    | Some x => (w, (zeros n, Some (PathError (fault_errno x))))
    | None =>
      let got := take n (drop (Z.to_nat off) (content w f)) in
      if (length got =? n)%nat then (w, (got, None))
      else (w, (got ++ zeros (n - length got), Some EOF))
    end
  end.

(** The bytes of a file after [bs] has been written at position [p]; a
    write past the end leaves a zero-filled hole, an empty write changes
    nothing. *)
Definition write_at (d : list byte) (p : nat) (bs : list byte) : list byte :=
  match bs with
  | [] => d
  | _ => take p d ++ zeros (p - length d) ++ bs ++ drop (p + length bs) d
  end.

(** [f.Write(bs)]: at the cursor, or at the end of the file for a handle
    opened with [O_APPEND]. *)
Definition Write (f : File) (bs : list byte) (w : World)
  : World * File * option error :=
  if f_closed f then (w, f, Some ErrClosed) else
  let '(flt, w) := next_fault w in
  let d := content w f in
  let p := if f_append f then length d else Z.to_nat (f_pos f) in
  match flt with
  | Some x =>
    let part := take (fault_done x) bs in
    (store w (f_name f) (write_at d p part),
     with_pos f (Z.of_nat (p + length part)),
     Some (PathError (fault_errno x)))
  | None =>
    (store w (f_name f) (write_at d p bs),
     with_pos f (Z.of_nat (p + length bs)), None)
  end.

(** [f.Close()]. *)
Definition Close (f : File) (w : World) : World * File * option error :=
  if f_closed f then (w, f, Some ErrClosed) else
  let '(flt, w) := next_fault w in
  (w, mkFile (f_name f) (f_pos f) (f_append f) true,
   match flt with Some x => Some (PathError (fault_errno x)) | None => None end).

(** [os.Rename(old, new)]: replaces [new] atomically. *)
Definition Rename (old new : string) (w : World) : World * option error :=
  let '(flt, w) := next_fault w in
  match flt with
  | Some x => (w, Some (PathError (fault_errno x)))
  | None =>
    match files w !! old with
    | None => (w, Some (PathError ENOENT))
    | Some d => (mkWorld (<[new := d]> (delete old (files w))) (faults w), None)
    end
  end.

(** [os.Remove(path)]. *)
Definition Remove (p : string) (w : World) : World * option error :=
  let '(flt, w) := next_fault w in
  match flt with
  | Some x => (w, Some (PathError (fault_errno x)))
  | None =>
    match files w !! p with
    | None => (w, Some (PathError ENOENT))
    | Some _ => (mkWorld (delete p (files w)) (faults w), None)
    end
  end.

(** [binary.Read(f, LittleEndian, &x)] for a fixed-size integer of [n]
    bytes: the bytes on success; on error [x] is left as it was. *)
Definition binary_Read (f : File) (n : nat) (w : World)
  : World * File * (error + list byte) :=
  let '(w, f, (bs, err)) := ReadFull f n w in
  match err with
  | Some e => (w, f, inl e)
  | None => (w, f, inr bs)
  end.

End os.

(** ** The engine ([bitcask.go]) *)

Module atomkv.
Import binary os.

Record Bitcask : Type := mkBitcask {
  file : File;
  path : string;
  index : gmap string Z
}.

(** [Open]: [O_CREATE|O_RDWR], an empty index, no scan. *)
Definition Open (p : string) (w : World) : World * (error + Bitcask) :=
  match OpenFile p true false false w with
  | (w, inl e) => (w, inl e)
  | (w, inr f) => (w, inr (mkBitcask f p ∅))
  end.

(** The record [Set] buffers before its single write:
    timestamp, [uint32(len(key))], [uint32(len(value))], key, value. *)
Definition record_bytes (timestamp : Z) (keyBytes valueBytes : list byte)
  : list byte :=
  PutUint64 timestamp
  ++ PutUint32 (uint32 (Z.of_nat (length keyBytes)))
  ++ PutUint32 (uint32 (Z.of_nat (length valueBytes)))
  ++ keyBytes ++ valueBytes.

(** [Set]; [now] is the value of [time.Now().UnixNano()]. *)
Definition Set_ (b : Bitcask) (key value : string) (now : Z) (w : World)
  : World * Bitcask * option error :=
  let '(w, f, r) := Seek (file b) 0 SeekEnd w in
  match r with
  | inl e => (w, mkBitcask f (path b) (index b), Some e)
  | inr offset =>
    let keyBytes := list_byte_of_string key in
    let valueBytes := list_byte_of_string value in
    let buf := record_bytes now keyBytes valueBytes in
    let '(w, f, err) := Write f buf w in
    match err with
    | Some e => (w, mkBitcask f (path b) (index b), Some e)
    | None => (w, mkBitcask f (path b) (<[key := offset]> (index b)), None)
    end
  end.

(** [Get]: the value, or the empty string and an error. *)
Definition Get (b : Bitcask) (key : string) (w : World)
  : World * (string * option error) :=
  match index b !! key with
  | None => (w, (EmptyString, Some ErrKeyNotFound))
  | Some offset =>
    let '(w, (header, err)) := ReadAt (file b) 16 offset w in
    match err with
    | Some e => (w, (EmptyString, Some e))
    | None =>
      let keySize := Uint32 (drop 8 header) in
      let valueSize := Uint32 (drop 12 header) in
      let valueOffset := int64 (offset + 16 + keySize) in
      let '(w, (valueBytes, err)) :=
        ReadAt (file b) (Z.to_nat valueSize) valueOffset w in
      match err with
      | Some e => (w, (EmptyString, Some e))
      | None => (w, (string_of_list_byte valueBytes, None))
      end
    end
  end.

(** One turn of the [for] loop of [Load]: either the turn completes and
    assigns [b.index[key] = offset], or the loop is left by [break] or by
    [return err]. *)
Inductive LoopStep : Type :=
  | Continue (key : string) (offset : Z)
  | Break
  | Return (e : error).

Definition Load_iter (f : File) (w : World) : World * File * LoopStep :=
  let '(w, f, r) := Seek f 0 SeekCurrent w in
  match r with
  | inl e => (w, f, Return e)
  | inr offset =>
    let '(w, f, r) := binary_Read f 8 w in
    match r with
    | inl EOF => (w, f, Break)
    | inl e => (w, f, Return e)
    | inr _ =>
      let '(w, f, r) := binary_Read f 4 w in
      match r with
      | inl e => (w, f, Return e)
      | inr ks =>
        let keySize := Uint32 ks in
        let '(w, f, r) := binary_Read f 4 w in
        match r with
        | inl e => (w, f, Return e)
        | inr vs =>
          let valueSize := Uint32 vs in
          let '(w, f, (keyBytes, err)) := ReadFull f (Z.to_nat keySize) w in
          match err with
          | Some e => (w, f, Return e)
          | None =>
            let '(w, f, r) := Seek f valueSize SeekCurrent w in
            match r with
            | inl e => (w, f, Return e)
            | inr _ => (w, f, Continue (string_of_list_byte keyBytes) offset)
            end
          end
        end
      end
    end
  end.

(** The loop, bounded by [fuel] turns; [None] when the bound is hit. *)
Fixpoint Load_loop (fuel : nat) (f : File) (idx : gmap string Z) (w : World)
  : option (World * File * gmap string Z * option error) :=
  match fuel with
  | O => None
  | S fuel' =>
    match Load_iter f w with
    | (w, f, Continue key offset) =>
      Load_loop fuel' f (<[key := offset]> idx) w
    | (w, f, Break) => Some (w, f, idx, None)
    | (w, f, Return e) => Some (w, f, idx, Some e)
    end
  end.

(** [Load].  Every turn that continues consumes at least a 16-byte header
    inside the file, so one more turn than the file has bytes is enough
    (see [Load_terminates]). *)
Definition Load (b : Bitcask) (w : World)
  : option (World * Bitcask * option error) :=
  let '(w, f, r) := Seek (file b) 0 SeekStart w in
  match r with
  | inl e => Some (w, mkBitcask f (path b) (index b), Some e)
  | inr _ =>
    match Load_loop (S (length (content w f))) f (index b) w with
    | None => None
    | Some (w, f, idx, err) => Some (w, mkBitcask f (path b) idx, err)
    end
  end.

Definition tempPath (b : Bitcask) : string := (path b ++ ".tmp")%string.

(** The body of [for key, oldOffset := range b.index] in [Compact], over
    the entries in the order the runtime yields them.  [bf] is [b.file],
    [tf] is [tempFile].  Only the first [Seek] is checked; the results of
    the reads and writes that follow are dropped, as in the source. *)
Fixpoint Compact_range (tmp : string) (order : list (string * Z))
    (bf tf : File) (newIndex : gmap string Z) (w : World)
  : World * File * File * gmap string Z * option error :=
  match order with
  | [] => (w, bf, tf, newIndex, None)
  | (key, oldOffset) :: rest =>
    let '(w, bf, r) := Seek bf oldOffset SeekStart w in
    match r with
    | inl e =>
      let '(w, tf, _) := os.Close tf w in
      let '(w, _) := Remove tmp w in
      (w, bf, tf, newIndex, Some e)
    | inr _ =>
      let '(w, bf, r) := binary_Read bf 8 w in
      let timestamp := match r with inr bs => int64 (Uint64 bs) | inl _ => 0 end in
      let '(w, bf, r) := binary_Read bf 4 w in
      let keySize := match r with inr bs => Uint32 bs | inl _ => 0 end in
      let '(w, bf, r) := binary_Read bf 4 w in
      let valueSize := match r with inr bs => Uint32 bs | inl _ => 0 end in
      let '(w, bf, _) := Seek bf keySize SeekCurrent w in
      let '(w, bf, (valueBytes, _)) := ReadFull bf (Z.to_nat valueSize) w in
      let '(w, tf, r) := Seek tf 0 SeekEnd w in
      let newOffset := match r with inr p => p | inl _ => 0 end in
      let '(w, tf, _) := Write tf (PutUint64 timestamp) w in
      let '(w, tf, _) :=
        Write tf (PutUint32
                    (uint32 (Z.of_nat (length (list_byte_of_string key))))) w in
      let '(w, tf, _) := Write tf (PutUint32 valueSize) w in
      let '(w, tf, _) := Write tf (list_byte_of_string key) w in
      let '(w, tf, _) := Write tf valueBytes w in
      Compact_range tmp rest bf tf (<[key := newOffset]> newIndex) w
    end
  end.

(** Go leaves the order of [range] over a map unspecified: any enumeration
    of the entries, each exactly once. *)
Definition range_order (m : gmap string Z) (order : list (string * Z)) : Prop :=
  order ≡ₚ map_to_list m.

(** [Compact], iterating the index in the order [order]. *)
Definition Compact (b : Bitcask) (order : list (string * Z)) (w : World)
  : World * Bitcask * option error :=
  match OpenFile (tempPath b) true true false w with
  | (w, inl e) => (w, b, Some e)
  | (w, inr tempFile) =>
    match Compact_range (tempPath b) order (file b) tempFile ∅ w with
    | (w, bf, tf, newIndex, Some e) =>
      (w, mkBitcask bf (path b) (index b), Some e)
    | (w, bf, tf, newIndex, None) =>
      let '(w, bf, _) := os.Close bf w in
      let '(w, tf, _) := os.Close tf w in
      match Rename (tempPath b) (path b) w with
      | (w, Some e) => (w, mkBitcask bf (path b) (index b), Some e)
      | (w, None) =>
        match OpenFile (path b) true false true w with
        | (w, inl e) => (w, mkBitcask bf (path b) (index b), Some e)
        | (w, inr newFile) => (w, mkBitcask newFile (path b) newIndex, None)
        end
      end
    end
  end.

(** [Keys], iterating the index in the order [order]. *)
Definition Keys (b : Bitcask) (order : list (string * Z)) : list string :=
  foldl (fun keys kv => keys ++ [kv.1]) [] order.

(** [Close]. *)
Definition Close (b : Bitcask) (w : World) : World * Bitcask * option error :=
  let '(w, f, err) := os.Close (file b) w in
  (w, mkBitcask f (path b) (index b), err).

End atomkv.

Import binary os atomkv.

(** ** The log as a sequence of records

    The vocabulary in which the properties of the engine are stated. *)

(** [len(s)] of a Go string: its number of bytes. *)
Definition len (s : string) : Z := Z.of_nat (length (list_byte_of_string s)).

Record Entry : Type := mkEntry { e_ts : Z; e_key : string; e_value : string }.

Definition entry_bytes (e : Entry) : list byte :=
  record_bytes (e_ts e) (list_byte_of_string (e_key e))
    (list_byte_of_string (e_value e)).

(** The record invariant of the format: both lengths fit 32 bits. *)
Definition entry_ok (e : Entry) : Prop :=
  len (e_key e) < 2 ^ 32 ∧ len (e_value e) < 2 ^ 32.

Definition entry_size (e : Entry) : Z := 16 + len (e_key e) + len (e_value e).

Fixpoint log_bytes (es : list Entry) : list byte :=
  match es with
  | [] => []
  | e :: es' => entry_bytes e ++ log_bytes es'
  end.

Definition log_size (es : list Entry) : Z := Z.of_nat (length (log_bytes es)).

(** The index assignments a scan of the log from byte [off] performs, in
    order: one per record, its key and the offset it starts at. *)
Fixpoint entry_offsets (off : Z) (es : list Entry) : list (string * Z) :=
  match es with
  | [] => []
  | e :: es' => (e_key e, off) :: entry_offsets (off + entry_size e) es'
  end.

(** Performing a list of assignments [index[key] = offset] in order. *)
Definition assign_all (idx : gmap string Z) (kos : list (string * Z))
  : gmap string Z :=
  foldl (λ m ko, <[ko.1 := ko.2]> m) idx kos.

(** The index after replaying the log [es], laid out from byte [off]. *)
Definition replay (off : Z) (es : list Entry) (idx : gmap string Z)
  : gmap string Z :=
  assign_all idx (entry_offsets off es).

(** The last assignment to [k] in a list of assignments. *)
Fixpoint last_assign (kos : list (string * Z)) (k : string) : option Z :=
  match kos with
  | [] => None
  | ko :: kos' =>
    match last_assign kos' k with
    | Some o => Some o
    | None => if decide (ko.1 = k) then Some ko.2 else None
    end
  end.

(** The last record of key [k] in the log. *)
Fixpoint last_entry (es : list Entry) (k : string) : option Entry :=
  match es with
  | [] => None
  | e :: es' =>
    match last_entry es' k with
    | Some e' => Some e'
    | None => if decide (e_key e = k) then Some e else None
    end
  end.

(** [off] is where the last record of key [k] starts, and that record
    is [e]. *)
Definition latest_at (es : list Entry) (k : string) (off : Z) (e : Entry)
  : Prop :=
  ∃ pre post, es = pre ++ e :: post ∧ off = log_size pre ∧ e_key e = k ∧
              Forall (λ e', e_key e' ≠ k) post.

(** The latest value of [k] in the log (the empty string when [k] was
    never written). *)
Definition latest_value (es : list Entry) (k : string) : string :=
  match last_entry es k with
  | Some e => e_value e
  | None => EmptyString
  end.

(** The size of the latest record of [k] (zero when there is none). *)
Definition latest_size (es : list Entry) (k : string) : Z :=
  match last_entry es k with
  | Some e => entry_size e
  | None => 0
  end.

Definition Zsum {A} (f : A → Z) (l : list A) : Z :=
  foldr (λ x acc, f x + acc) 0 l.

(** What [Compact] writes for the record [e]: same key and value, the
    timestamp as it reads back from the eight bytes on disk. *)
Definition compacted (e : Entry) : Entry :=
  mkEntry (int64 (Uint64 (PutUint64 (e_ts e)))) (e_key e) (e_value e).

(** A run of [Set] calls, for stating what later writes leave alone. *)
Fixpoint Set_seq (b : Bitcask) (ops : list (string * string * Z)) (w : World)
  : World * Bitcask :=
  match ops with
  | [] => (w, b)
  | (k, v, now) :: ops' =>
    let '(w, b, _) := Set_ b k v now w in Set_seq b ops' w
  end.

(** The open handle [f] has [rest] ahead of its cursor. *)
Definition ahead (f : File) (w : World) (rest : list byte) : Prop :=
  f_closed f = false ∧ 0 ≤ f_pos f ∧
  drop (Z.to_nat (f_pos f)) (content w f) = rest.

(** [f'] is the handle [f], possibly with its cursor moved. *)
Definition same_handle (f f' : File) : Prop :=
  f_name f' = f_name f ∧ f_append f' = f_append f ∧ f_closed f' = f_closed f.


(** A freshly opened store on an empty log. *)
Definition fresh_db : Bitcask :=
  mkBitcask (mkFile "db" 0 false false) "db" ∅.

Definition fresh_world : World := mkWorld {["db" := []]} [].

(** A small store used to exercise the theorems: key [a] written twice,
    key [b] once, the index pointing at the latest record of each. *)
Definition ex_entries : list Entry :=
  [mkEntry 1 "a" "x"; mkEntry 2 "b" "y"; mkEntry 3 "a" "zz"].

Definition ex_world : World := mkWorld {["db" := log_bytes ex_entries]} [].

Definition ex_db : Bitcask :=
  mkBitcask (mkFile "db" 0 false false) "db" (<["a" := 36]> (<["b" := 18]> ∅)).

(** A log whose only record was cut short by a crash: the header declares
    a five-byte value, two bytes of it reached the disk. *)
Definition torn_log : list byte :=
  take 19 (record_bytes 1 (list_byte_of_string "k")
             (list_byte_of_string "hello")).

Definition torn_world : World := mkWorld {["db" := torn_log]} [].

(** A one-record store on a disk that fills up during compaction: the
    thirteenth call, the write of the value bytes to the temporary file,
    fails with [ENOSPC]. *)
Definition ENOSPC : nat := 28.

Definition full_disk_world : World :=
  mkWorld {["db" := record_bytes 1 (list_byte_of_string "k")
                      (list_byte_of_string "hello")]}
    (replicate 12 None ++ [Some (mkFault ENOSPC 0)]).

Definition one_key_db : Bitcask :=
  mkBitcask (mkFile "db" 0 false false) "db" {["k" := 0]}.

(** The two errors [io.ReadFull] reports at the end of a file. *)
Definition eof_error (e : error) : Prop := e = EOF ∨ e = ErrUnexpectedEOF.

(** [w'] has the files of [w] except possibly at path [p]. *)
Definition same_but (p : string) (w w' : World) : Prop :=
  ∀ q, q ≠ p → files w' !! q = files w !! q.

(** The sixteen header bytes of a record. *)
Definition header_bytes (ts ks vs : Z) : list byte :=
  PutUint64 ts ++ PutUint32 ks ++ PutUint32 vs.

(** The engine is open on a well-formed log and every index entry points at
    the latest record of its key. *)
Record inv (w : World) (b : Bitcask) (es : list Entry) : Prop := mkInv {
  inv_open : f_closed (file b) = false;
  inv_name : f_name (file b) = path b;
  inv_file : files w !! path b = Some (log_bytes es);
  inv_ok : Forall entry_ok es;
  inv_index : ∀ k off, index b !! k = Some off → ∃ e, latest_at es k off e
}.

(** No injected fault is pending. *)
Definition quiet (w : World) : Prop := faults w = [].

(** The index holds every key of the log. *)
Definition complete (b : Bitcask) (es : list Entry) : Prop :=
  index b = replay 0 es ∅.

(** An operation of a run of [Set]s whose key and value fit the record
    format, and the record it appends. *)
Definition fits (op : string * string * Z) : Prop :=
  len op.1.1 < 2 ^ 32 ∧ len op.1.2 < 2 ^ 32.

Definition op_entry (op : string * string * Z) : Entry :=
  mkEntry op.2 op.1.1 op.1.2.

(** An engine whose handle has been closed. *)
Definition closed_db : Bitcask :=
  mkBitcask (mkFile "db" 0 false true) "db" {["k" := 0]}.

(** The example log followed by the first ten bytes of one more record. *)
Definition cut_world : World :=
  mkWorld {["db" := log_bytes ex_entries
                    ++ take 10 (entry_bytes (mkEntry 4 "c" "w"))]} [].

(** The example log on a disk where the second call, the write of [Set],
    fails after ten bytes. *)
Definition failing_world : World :=
  mkWorld {["db" := log_bytes ex_entries]} [None; Some (mkFault ENOSPC 10)].

(** The state of a run of appends: [acc] has been appended to the log so
    far and the handle is where the next write appends. *)
Definition appended (f0 : File) (w0 : World) (f : File) (w : World)
    (acc : list byte) : Prop :=
  content w f0 = content w0 f0 ++ acc ∧ same_handle f0 f ∧
  (f_append f = false → f_pos f = Z.of_nat (length (content w f))) ∧
  (∀ q, q ≠ f_name f0 → files w !! q = files w0 !! q).

(** ** The earlier revision of the engine

    The repository also holds the revision of [bitcask.go] before
    compaction was added: [Set] issues five writes instead of one, and
    [Get] reads through the shared cursor of the handle.  [Load] and
    [Close] read as in the current revision. *)

Module atomkv_v1.
Import binary os.

Record Bitcask : Type := mkBitcask {
  file : File;
  index : gmap string Z
}.

(** [Set]: timestamp, key length, value length, key and value are written
    by five calls, each checked. *)
Definition Set_ (b : Bitcask) (key value : string) (now : Z) (w : World)
  : World * Bitcask * option error :=
  let '(w, f, r) := Seek (file b) 0 SeekEnd w in
  match r with
  | inl e => (w, mkBitcask f (index b), Some e)
  | inr offset =>
    let timestamp := now in
    let keyBytes := list_byte_of_string key in
    let valueBytes := list_byte_of_string value in
    let '(w, f, err) := Write f (PutUint64 timestamp) w in
    match err with
    | Some e => (w, mkBitcask f (index b), Some e)
    | None =>
      let '(w, f, err) :=
        Write f (PutUint32 (uint32 (Z.of_nat (length keyBytes)))) w in
      match err with
      | Some e => (w, mkBitcask f (index b), Some e)
      | None =>
        let '(w, f, err) :=
          Write f (PutUint32 (uint32 (Z.of_nat (length valueBytes)))) w in
        match err with
        | Some e => (w, mkBitcask f (index b), Some e)
        | None =>
          let '(w, f, err) := Write f keyBytes w in
          match err with
          | Some e => (w, mkBitcask f (index b), Some e)
          | None =>
            let '(w, f, err) := Write f valueBytes w in
            match err with
            | Some e => (w, mkBitcask f (index b), Some e)
            | None => (w, mkBitcask f (<[key := offset]> (index b)), None)
            end
          end
        end
      end
    end
  end.

(** [Get]: seeks to the record and reads header and value through the
    cursor, which it leaves wherever the last read ended. *)
Definition Get (b : Bitcask) (key : string) (w : World)
  : World * Bitcask * (string * option error) :=
  match index b !! key with
  | None => (w, b, (EmptyString, Some ErrKeyNotFound))
  | Some offset =>
    let '(w, f, r) := Seek (file b) offset SeekStart w in
    match r with
    | inl e => (w, mkBitcask f (index b), (EmptyString, Some e))
    | inr _ =>
      let '(w, f, r) := binary_Read f 8 w in
      match r with
      | inl e => (w, mkBitcask f (index b), (EmptyString, Some e))
      | inr _ =>
        let '(w, f, r) := binary_Read f 4 w in
        match r with
        | inl e => (w, mkBitcask f (index b), (EmptyString, Some e))
        | inr ks =>
          let keySize := Uint32 ks in
          let '(w, f, r) := binary_Read f 4 w in
          match r with
          | inl e => (w, mkBitcask f (index b), (EmptyString, Some e))
          | inr vs =>
            let valueSize := Uint32 vs in
            let '(w, f, r) := Seek f keySize SeekCurrent w in
            match r with
            | inl e => (w, mkBitcask f (index b), (EmptyString, Some e))
            | inr _ =>
              let '(w, f, (valueBytes, err)) :=
                ReadFull f (Z.to_nat valueSize) w in
              match err with
              | Some e => (w, mkBitcask f (index b), (EmptyString, Some e))
              | None =>
                (w, mkBitcask f (index b),
                 (string_of_list_byte valueBytes, None))
              end
            end
          end
        end
      end
    end
  end.

End atomkv_v1.

(** ** The command-line client *)

Module cli.

(** What the program prints: a line on standard output, a line on standard
    error, or a format with the error it is applied to on standard
    error. *)
Inductive Output : Type :=
  | Println (s : string)
  | Fprintln_Stderr (s : string)
  | Fprintf_Stderr (format : string) (e : error).

Definition dbPath : string := "atomkv.db".

Definition usage : list Output :=
  [Fprintln_Stderr "usage: atomkv <command> [args]";
   Fprintln_Stderr "  set <key> <value>  Store a key-value pair";
   Fprintln_Stderr "  get <key>          Retrieve a value by key"].

(** [os.Args[i]], read only where [len(os.Args)] has been checked. *)
Definition Arg (Args : list string) (i : nat) : string :=
  default EmptyString (Args !! i).

(** [main]: the files afterwards, the output and the exit status; [now]
    is the clock reading [Set] takes.  [os.Exit] does not run the deferred
    [db.Close()]; returning from [main] does.  The result is [None] only
    where the bound of [Load] is hit, which [Load_terminates] excludes. *)
Definition main (Args : list string) (now : Z) (w : World)
  : option (World * list Output * Z) :=
  if (length Args <? 2)%nat then Some (w, usage, 1) else
  match Open dbPath w with
  | (w, inl e) => Some (w, [Fprintf_Stderr "error: %v\n" e], 1)
  | (w, inr db) =>
    match Load db w with
    | None => None
    | Some (w, db, Some e) =>
      Some (w, [Fprintf_Stderr "error loading db: %v\n" e], 1)
    | Some (w, db, None) =>
      if String.eqb (Arg Args 1) "set" then
        if negb (length Args =? 4)%nat then
          Some (w, [Fprintln_Stderr "usage: atomkv set <key> <value>"], 1)
        else
          match Set_ db (Arg Args 2) (Arg Args 3) now w with
          | (w, db, Some e) => Some (w, [Fprintf_Stderr "error: %v\n" e], 1)
          | (w, db, None) =>
            let '(w, _, _) := atomkv.Close db w in
            Some (w, [Println "OK"], 0)
          end
      else if String.eqb (Arg Args 1) "get" then
        if negb (length Args =? 3)%nat then
          Some (w, [Fprintln_Stderr "usage: atomkv get <key>"], 1)
        else
          let '(w, (val, err)) := Get db (Arg Args 2) w in
          match err with
          | Some e => Some (w, [Fprintf_Stderr "error: %v\n" e], 1)
          | None =>
            let '(w, _, _) := atomkv.Close db w in
            Some (w, [Println val], 0)
          end
      else Some (w, usage, 1)
    end
  end.

End cli.

(** The database file of the client holds the log [es]; a missing file
    counts as the empty log. *)
Definition db_log (w : World) (es : list Entry) : Prop :=
  default [] (files w !! cli.dbPath) = log_bytes es.

(** The example log as the database of the client. *)
Definition cli_world : World :=
  mkWorld {["atomkv.db" := log_bytes ex_entries]} [].

(** ** The HTTP server ([cmd/atomkv-server/main.go]) *)

(** Each handler makes one call of the engine, which the engine runs under
    its lock; a handler is modelled as the function from the engine and
    the files before that call to the engine, the files and the response
    after it. *)

Module server.

Record setRequest : Type := mkSetRequest { Key : string; Value : string }.

(** What the handlers read of a request: the method, the result of
    decoding the body as a [setRequest] ([None] when [Decode] returns an
    error) and [r.URL.Query().Get("key")], empty when the parameter is
    absent. *)
Record Request : Type := mkRequest {
  Method : string;
  Body : option setRequest;
  Query_key : string
}.

(** What is written to the response: the message of [http.Error] (a text
    or the text of an error), the text of [fmt.Fprint], or a JSON array of
    strings. *)
Inductive Payload : Type :=
  | Error_text (msg : string)
  | Error_of (e : error)
  | Fprint (s : string)
  | Encode (keys : list string).

Record Response : Type := mkResponse { status : Z; payload : Payload }.

Definition StatusOK : Z := 200.
Definition StatusBadRequest : Z := 400.
Definition StatusNotFound : Z := 404.
Definition StatusMethodNotAllowed : Z := 405.
Definition StatusInternalServerError : Z := 500.

Definition handleSet (db : Bitcask) (r : Request) (now : Z) (w : World)
  : World * Bitcask * Response :=
  if negb (String.eqb (Method r) "POST") then
    (w, db, mkResponse StatusMethodNotAllowed (Error_text "method not allowed"))
  else
    match Body r with
    | None => (w, db, mkResponse StatusBadRequest (Error_text "invalid json"))
    | Some req =>
      match Set_ db (Key req) (Value req) now w with
      | (w, db, Some e) =>
        (w, db, mkResponse StatusInternalServerError (Error_of e))
      | (w, db, None) => (w, db, mkResponse StatusOK (Fprint "OK"))
      end
    end.

Definition handleGet (db : Bitcask) (r : Request) (w : World)
  : World * Response :=
  if negb (String.eqb (Method r) "GET") then
    (w, mkResponse StatusMethodNotAllowed (Error_text "method not allowed"))
  else
    let key := Query_key r in
    if String.eqb key "" then
      (w, mkResponse StatusBadRequest (Error_text "missing key parameter"))
    else
      let '(w, (val, err)) := Get db key w in
      match err with
      | Some ErrKeyNotFound =>
        (w, mkResponse StatusNotFound (Error_text "key not found"))
      | Some e => (w, mkResponse StatusInternalServerError (Error_of e))
      | None => (w, mkResponse StatusOK (Fprint val))
      end.

Definition handleKeys (db : Bitcask) (order : list (string * Z)) (r : Request)
  : Response :=
  if negb (String.eqb (Method r) "GET") then
    mkResponse StatusMethodNotAllowed (Error_text "method not allowed")
  else mkResponse StatusOK (Encode (Keys db order)).

Definition handleCompact (db : Bitcask) (order : list (string * Z))
    (r : Request) (w : World) : World * Bitcask * Response :=
  if negb (String.eqb (Method r) "POST") then
    (w, db, mkResponse StatusMethodNotAllowed (Error_text "method not allowed"))
  else
    match Compact db order w with
    | (w, db, Some e) =>
      (w, db, mkResponse StatusInternalServerError (Error_of e))
    | (w, db, None) => (w, db, mkResponse StatusOK (Fprint "OK"))
    end.

End server.

(** A value of [2^32] bytes, the shortest whose length does not fit the
    32-bit length field of a record. *)
Definition long_value : string :=
  string_of_list_byte (replicate (Z.to_nat (2 ^ 32)) "a"%byte).

(** ** Proofs *)

(** *** The codec *)

Lemma Z_of_byte_of_Z z : Z_of_byte (byte_of_Z z) = z mod 2 ^ 8.
Proof.
  unfold Z_of_byte, byte_of_Z.
  change 255 with (Z.ones 8). rewrite Z.land_ones by lia.
  assert (Hr : 0 ≤ z mod 2 ^ 8 < 2 ^ 8) by (apply Z.mod_pos_bound; lia).
  destruct (Byte.of_N (Z.to_N (z mod 2 ^ 8))) as [b|] eqn:Hb.
  - apply Byte.to_of_N in Hb. simpl. rewrite Hb. lia.
  - apply Byte.of_N_None_iff in Hb. lia.
Qed.

Lemma length_put_le n v : length (put_le n v) = n.
Proof. revert v. induction n as [|n IH]; intros v; simpl; [done|]. by rewrite IH. Qed.

Lemma get_le_nonneg l : 0 ≤ get_le l.
Proof.
  induction l as [|b l IH]; simpl; [lia|].
  apply Z.lor_nonneg. split.
  - unfold Z_of_byte. lia.
  - apply Z.shiftl_nonneg. done.
Qed.

Lemma get_put_le n v : get_le (put_le n v) = v mod 2 ^ (8 * Z.of_nat n).
Proof.
  revert v. induction n as [|n IH]; intros v.
  - simpl. by rewrite Z.mod_1_r.
  - cbn [put_le get_le]. rewrite IH, Z_of_byte_of_Z.
    apply Z.bits_inj'. intros i Hi.
    rewrite Z.lor_spec.
    replace (8 * Z.of_nat (S n)) with (8 * Z.of_nat n + 8) by lia.
    destruct (decide (i < 8)) as [Hlt|Hge].
    + rewrite Z.shiftl_spec_low by lia.
      rewrite !Z.mod_pow2_bits_low by lia. by rewrite orb_false_r.
    + rewrite Z.mod_pow2_bits_high by lia.
      rewrite Z.shiftl_spec by lia. simpl.
      destruct (decide (i < 8 * Z.of_nat n + 8)).
      * rewrite !Z.mod_pow2_bits_low by lia.
        rewrite Z.shiftr_spec by lia. f_equal. lia.
      * rewrite !Z.mod_pow2_bits_high by lia. done.
Qed.

Lemma Uint32_PutUint32 v rest :
  0 ≤ v < 2 ^ 32 → Uint32 (PutUint32 v ++ rest) = v.
Proof.
  intros Hv. unfold Uint32, PutUint32.
  rewrite take_app_length' by (by rewrite length_put_le).
  rewrite get_put_le. apply Z.mod_small. simpl. lia.
Qed.

Lemma length_record_bytes ts k v :
  length (record_bytes ts k v) = (16 + length k + length v)%nat.
Proof.
  unfold record_bytes, PutUint64, PutUint32.
  rewrite !length_app, !length_put_le. lia.
Qed.

Lemma length_entry_bytes e : Z.of_nat (length (entry_bytes e)) = entry_size e.
Proof.
  unfold entry_bytes, entry_size, len. rewrite length_record_bytes. lia.
Qed.

Lemma len_nonneg s : 0 ≤ len s.
Proof. unfold len. lia. Qed.

Lemma entry_size_pos e : 16 ≤ entry_size e.
Proof. unfold entry_size. pose proof (len_nonneg (e_key e)). pose proof (len_nonneg (e_value e)). lia. Qed.

Lemma log_size_cons e es : log_size (e :: es) = entry_size e + log_size es.
Proof.
  unfold log_size. cbn [log_bytes]. rewrite length_app, Nat2Z.inj_add.
  by rewrite length_entry_bytes.
Qed.

Lemma log_bytes_app es1 es2 :
  log_bytes (es1 ++ es2) = log_bytes es1 ++ log_bytes es2.
Proof.
  induction es1 as [|e es1 IH]; simpl; [done|]. by rewrite IH, app_assoc.
Qed.

Lemma log_size_app es1 es2 :
  log_size (es1 ++ es2) = log_size es1 + log_size es2.
Proof. unfold log_size. rewrite log_bytes_app, length_app. lia. Qed.

Lemma log_size_nonneg es : 0 ≤ log_size es.
Proof. unfold log_size. lia. Qed.

(** *** The file primitives when no fault is pending *)

Lemma next_fault_quiet w : quiet w → next_fault w = (None, w).
Proof. unfold quiet, next_fault. by intros ->. Qed.

Lemma next_fault_files w : files (next_fault w).2 = files w.
Proof. unfold next_fault. by destruct (faults w). Qed.

Lemma quiet_store w p d : quiet w → quiet (store w p d).
Proof. done. Qed.

Lemma content_store w f d : content (store w (f_name f) d) f = d.
Proof. unfold content, store. simpl. by rewrite lookup_insert_eq. Qed.

Lemma content_store_pos w f d p :
  content (store w (f_name f) d) (with_pos f p) = d.
Proof. unfold content, store. simpl. by rewrite lookup_insert_eq. Qed.

Lemma content_with_pos w f p : content w (with_pos f p) = content w f.
Proof. done. Qed.

Lemma content_lookup w f d :
  files w !! f_name f = Some d → content w f = d.
Proof. unfold content. by intros ->. Qed.

Lemma with_pos_same f : with_pos f (f_pos f) = f.
Proof. by destruct f. Qed.

Lemma with_pos_twice f p q : with_pos (with_pos f p) q = with_pos f q.
Proof. done. Qed.

Lemma Seek_quiet f off wh w :
  f_closed f = false → quiet w →
  let p := match wh with
           | SeekStart => 0
           | SeekCurrent => f_pos f
           | SeekEnd => Z.of_nat (length (content w f))
           end + off in
  0 ≤ p → Seek f off wh w = (w, with_pos f p, inr p).
Proof.
  intros Hc Hq p Hp. unfold Seek. rewrite Hc, next_fault_quiet by done.
  fold p. destruct (Z.ltb_spec p 0); [lia|done].
Qed.

Lemma take_drop_middle_eq (pre mid post : list byte) :
  take (length mid) (drop (length pre) (pre ++ mid ++ post)) = mid.
Proof.
  rewrite drop_app_length. by rewrite take_app_length.
Qed.

Lemma ReadFull_quiet f w pre mid post :
  f_closed f = false → quiet w →
  content w f = pre ++ mid ++ post → f_pos f = Z.of_nat (length pre) →
  ReadFull f (length mid) w
  = (w, with_pos f (f_pos f + Z.of_nat (length mid)), (mid, None)).
Proof.
  intros Hc Hq Hd Hp. unfold ReadFull.
  destruct mid as [|x mid'] eqn:Hm.
  - simpl. rewrite Z.add_0_r. by rewrite with_pos_same.
  - rewrite <- Hm. destruct (length mid) eqn:Hlen; [by subst|].
    rewrite <- Hlen. rewrite Hc, next_fault_quiet by done.
    rewrite Hd, Hp, Nat2Z.id.
    rewrite <- Hm in *. rewrite take_drop_middle_eq.
    by rewrite Nat.eqb_refl.
Qed.

Lemma ReadAt_quiet f w off pre mid post :
  f_closed f = false → quiet w →
  content w f = pre ++ mid ++ post → off = Z.of_nat (length pre) →
  ReadAt f (length mid) off w = (w, (mid, None)).
Proof.
  intros Hc Hq Hd Hp. unfold ReadAt.
  destruct (Z.ltb_spec off 0); [lia|].
  destruct mid as [|x mid'] eqn:Hm; [done|].
  rewrite <- Hm. destruct (length mid) eqn:Hlen; [by subst|].
  rewrite <- Hlen. rewrite Hc, next_fault_quiet by done.
  rewrite Hd, Hp, Nat2Z.id.
  rewrite <- Hm in *. rewrite take_drop_middle_eq.
  by rewrite Nat.eqb_refl.
Qed.

Lemma write_at_end d buf : write_at d (length d) buf = d ++ buf.
Proof.
  unfold write_at. destruct buf as [|x buf]; [by rewrite app_nil_r|].
  rewrite take_ge, Nat.sub_diag, drop_ge by lia.
  simpl. by rewrite app_nil_r.
Qed.

Lemma Write_quiet_end f w buf :
  f_closed f = false → quiet w →
  (f_append f = false → f_pos f = Z.of_nat (length (content w f))) →
  Write f buf w
  = (store w (f_name f) (content w f ++ buf),
     with_pos f (Z.of_nat (length (content w f) + length buf)), None).
Proof.
  intros Hc Hq Hp. unfold Write. rewrite Hc, next_fault_quiet by done.
  assert ((if f_append f then length (content w f) else Z.to_nat (f_pos f))
          = length (content w f)) as ->.
  { destruct (f_append f); [done|]. rewrite Hp by done. apply Nat2Z.id. }
  by rewrite write_at_end.
Qed.

Lemma Close_quiet f w :
  f_closed f = false → quiet w →
  os.Close f w = (w, mkFile (f_name f) (f_pos f) (f_append f) true, None).
Proof.
  intros Hc Hq. unfold os.Close. by rewrite Hc, next_fault_quiet.
Qed.

(** *** [Set] *)

Lemma Set_quiet b key value now w :
  f_closed (file b) = false → quiet w →
  let d := content w (file b) in
  let buf := record_bytes now (list_byte_of_string key)
               (list_byte_of_string value) in
  Set_ b key value now w
  = (store w (f_name (file b)) (d ++ buf),
     mkBitcask (with_pos (file b) (Z.of_nat (length d + length buf)))
       (path b) (<[key := Z.of_nat (length d)]> (index b)),
     None).
Proof.
  intros Hc Hq d buf. unfold Set_.
  rewrite (Seek_quiet _ 0 SeekEnd) by (done || simpl; lia).
  cbn zeta. rewrite Z.add_0_r.
  rewrite Write_quiet_end by done.
  fold buf. rewrite content_with_pos. fold d. done.
Qed.

(** *** [Get] *)

Lemma uint32_small z : 0 ≤ z < 2 ^ 32 → uint32 z = z.
Proof. intros. unfold uint32. by apply Z.mod_small. Qed.

Lemma int64_small z : - 2 ^ 63 ≤ z < 2 ^ 63 → int64 z = z.
Proof. intros. unfold int64. rewrite Z.mod_small; lia. Qed.

Lemma length_header_bytes ts ks vs : length (header_bytes ts ks vs) = 16%nat.
Proof.
  unfold header_bytes, PutUint64, PutUint32.
  by rewrite !length_app, !length_put_le.
Qed.

Lemma header_keySize ts ks vs :
  0 ≤ ks < 2 ^ 32 → Uint32 (drop 8 (header_bytes ts ks vs)) = ks.
Proof.
  intros. unfold header_bytes, PutUint64.
  rewrite drop_app_length' by (by rewrite length_put_le).
  by apply Uint32_PutUint32.
Qed.

Lemma header_valueSize ts ks vs :
  0 ≤ vs < 2 ^ 32 → Uint32 (drop 12 (header_bytes ts ks vs)) = vs.
Proof.
  intros. unfold header_bytes, PutUint64.
  rewrite app_assoc.
  rewrite drop_app_length'
    by (unfold PutUint32; by rewrite length_app, !length_put_le).
  rewrite <- (app_nil_r (PutUint32 vs)). by apply Uint32_PutUint32.
Qed.

Lemma entry_bytes_split e :
  entry_ok e →
  entry_bytes e
  = header_bytes (e_ts e) (len (e_key e)) (len (e_value e))
    ++ list_byte_of_string (e_key e) ++ list_byte_of_string (e_value e).
Proof.
  intros [Hk Hv]. unfold entry_bytes, record_bytes, header_bytes.
  fold (len (e_key e)) (len (e_value e)).
  pose proof (len_nonneg (e_key e)). pose proof (len_nonneg (e_value e)).
  rewrite !uint32_small by lia. by rewrite <- !app_assoc.
Qed.

(** [Get] returns the value bytes of whatever complete record starts at the
    indexed offset; the key stored in that record plays no part. *)
Lemma Get_record b k w pre e post off :
  f_closed (file b) = false → quiet w →
  content w (file b) = pre ++ entry_bytes e ++ post →
  index b !! k = Some off → off = Z.of_nat (length pre) →
  entry_ok e → off + entry_size e < 2 ^ 63 →
  Get b k w = (w, (e_value e, None)).
Proof.
  intros Hc Hq Hd Hi Hoff Hok Hsz. unfold Get. rewrite Hi.
  pose proof (len_nonneg (e_key e)) as Hk0.
  pose proof (len_nonneg (e_value e)) as Hv0.
  destruct Hok as [Hk Hv]. rewrite entry_bytes_split in Hd by done.
  set (h := header_bytes (e_ts e) (len (e_key e)) (len (e_value e))) in *.
  assert (Hh : length h = 16%nat) by apply length_header_bytes.
  rewrite <- Hh at 1.
  rewrite (ReadAt_quiet _ _ _ pre h
             (list_byte_of_string (e_key e)
              ++ list_byte_of_string (e_value e) ++ post)); try done.
  2:{ rewrite Hd. by rewrite <- !app_assoc. }
  cbn match. subst h. rewrite header_keySize, header_valueSize by lia.
  unfold entry_size in Hsz.
  rewrite int64_small by lia.
  replace (Z.to_nat (len (e_value e)))
    with (length (list_byte_of_string (e_value e)))
    by (unfold len; by rewrite Nat2Z.id).
  rewrite (ReadAt_quiet _ _ _
             (pre ++ header_bytes (e_ts e) (len (e_key e)) (len (e_value e))
              ++ list_byte_of_string (e_key e))
             (list_byte_of_string (e_value e)) post); try done.
  - by rewrite string_of_list_byte_of_string.
  - rewrite Hd. by rewrite <- !app_assoc.
  - rewrite !length_app, length_header_bytes. unfold len. lia.
Qed.

Lemma Set_seq_keeps ops : ∀ b w e pre post key,
  f_closed (file b) = false → quiet w →
  content w (file b) = pre ++ entry_bytes e ++ post →
  index b !! key = Some (Z.of_nat (length pre)) →
  Forall (λ op : string * string * Z, op.1.1 ≠ key) ops →
  ∀ w2 b2, Set_seq b ops w = (w2, b2) →
    f_closed (file b2) = false ∧ quiet w2 ∧
    index b2 !! key = Some (Z.of_nat (length pre)) ∧
    ∃ post', content w2 (file b2) = pre ++ entry_bytes e ++ post'.
Proof.
  induction ops as [|[[k v] now] ops IH]; intros b w e pre post key Hc Hq Hd Hi Hops w2 b2 Hrun.
  - simpl in Hrun. injection Hrun as <- <-. eauto.
  - cbn [Set_seq] in Hrun. rewrite Set_quiet in Hrun by done.
    apply Forall_cons in Hops as [Hk Hops]. simpl in Hk.
    eapply (IH _ _ e pre) in Hrun; try done.
    + cbn [file]. rewrite content_store_pos, Hd. by rewrite <- !app_assoc.
    + cbn [index]. by rewrite lookup_insert_ne.
Qed.

(** What a [Set] that returned no error has done, whatever faults were
    pending. *)
Lemma Set_success b key value now w w' b' :
  Set_ b key value now w = (w', b', None) →
  f_closed (file b') = false ∧ f_name (file b') = f_name (file b) ∧
  path b' = path b ∧
  content w' (file b')
  = content w (file b)
    ++ record_bytes now (list_byte_of_string key) (list_byte_of_string value) ∧
  index b' = <[key := Z.of_nat (length (content w (file b)))]> (index b).
Proof.
  unfold Set_. intros H.
  destruct (Seek (file b) 0 SeekEnd w) as [[w1 f1] [e1|off]] eqn:Hs; [done|].
  destruct (Write f1 _ w1) as [[w2 f2] [e2|]] eqn:Hw; [done|].
  simplify_eq. unfold Seek in Hs. unfold Write in Hw.
  destruct (f_closed (file b)) eqn:Hc; [done|].
  pose proof (next_fault_files w) as Hf1.
  destruct (next_fault w) as [[x|] w1']; [done|]. simpl in Hf1.
  assert (Hct : content w1' (file b) = content w (file b))
    by (unfold content; by rewrite Hf1).
  rewrite Hct in Hs.
  destruct (_ <? 0); [done|]. simplify_eq.
  cbn [f_closed with_pos] in Hw. rewrite Hc in Hw.
  pose proof (next_fault_files w1) as Hf2.
  destruct (next_fault w1) as [[x|] w2']; [done|]. simpl in Hf2.
  assert (Hct2 : content w2' (with_pos (file b)
                   (Z.of_nat (length (content w (file b))) + 0))
                 = content w (file b))
    by (unfold content in *; cbn [f_name with_pos]; by rewrite Hf2).
  rewrite Hct2 in Hw. cbn [f_append f_pos f_name with_pos] in Hw.
  rewrite Z.add_0_r, Nat2Z.id in Hw.
  assert ((if f_append (file b) then length (content w (file b))
           else length (content w (file b)))
          = length (content w (file b))) as Heq by (by destruct (f_append _)).
  rewrite Heq, write_at_end in Hw. simplify_eq.
  cbn [file path index]. rewrite with_pos_twice, content_store_pos.
  cbn [f_closed f_name with_pos]. rewrite ?Z.add_0_r. repeat split; done.
Qed.

(** C1 (round trip).  After a [Set] that returned no error, of a key and a
    value whose lengths fit the 32-bit length fields of the record, a
    [Get] of that key returns exactly that value, also after any number
    of later [Set]s of other keys (no I/O fault occurring after the
    [Set]). *)
Theorem set_get_roundtrip b w key value now w1 b1 ops :
  Set_ b key value now w = (w1, b1, None) → quiet w1 →
  len key < 2 ^ 32 → len value < 2 ^ 32 →
  Z.of_nat (length (content w (file b))) + 16 + len key + len value < 2 ^ 63 →
  Forall (λ op : string * string * Z, op.1.1 ≠ key) ops →
  ∀ w2 b2, Set_seq b1 ops w1 = (w2, b2) →
    Get b2 key w2 = (w2, (value, None)).
Proof.
  intros Hset Hq Hk Hv Hsz Hops w2 b2 Hrun.
  apply Set_success in Hset as (Hc1 & _ & _ & Hd1 & Hi1).
  set (e := mkEntry now key value).
  eapply (Set_seq_keeps _ _ _ e (content w (file b)) [] key) in Hrun; try done.
  - destruct Hrun as (Hc2 & Hq2 & Hi2 & post' & Hd2).
    eapply (Get_record _ _ _ _ e); try done.
    unfold entry_size. simpl. lia.
  - rewrite Hd1. by rewrite app_nil_r.
  - rewrite Hi1. by rewrite lookup_insert_eq.
Qed.

(** With no fault pending, [Set] on an open engine does succeed. *)
Lemma Set_succeeds b key value now w :
  f_closed (file b) = false → quiet w →
  ∃ w1 b1, Set_ b key value now w = (w1, b1, None) ∧ quiet w1.
Proof. intros Hc Hq. rewrite Set_quiet by done. by eexists _, _. Qed.

Lemma set_get_roundtrip_witness :
  Get (Set_seq (Set_ fresh_db "name" "alice" 42 fresh_world).1.2
         [("city", "paris", 43)]
         (Set_ fresh_db "name" "alice" 42 fresh_world).1.1).2
    "name"
    (Set_seq (Set_ fresh_db "name" "alice" 42 fresh_world).1.2
       [("city", "paris", 43)]
       (Set_ fresh_db "name" "alice" 42 fresh_world).1.1).1
  = ((Set_seq (Set_ fresh_db "name" "alice" 42 fresh_world).1.2
        [("city", "paris", 43)]
        (Set_ fresh_db "name" "alice" 42 fresh_world).1.1).1,
     ("alice"%string, None)).
Proof.
  apply (set_get_roundtrip fresh_db fresh_world "name" "alice" 42
           (Set_ fresh_db "name" "alice" 42 fresh_world).1.1
           (Set_ fresh_db "name" "alice" 42 fresh_world).1.2
           [("city", "paris", 43)]).
  - vm_compute. reflexivity.
  - reflexivity.
  - reflexivity.
  - reflexivity.
  - reflexivity.
  - repeat constructor. simpl. discriminate.
  - vm_compute. reflexivity.
Defined.

(** The length fields are 32 bits wide and [Set] converts with
    [uint32(len(...))]: a value of [2^32 + n] bytes is stored whole but
    declared as [n] bytes, and [Get] returns its first [n] bytes only.
    This is why the round-trip properties are stated for lengths below
    [2^32]. *)
Lemma Set_long_value_wraps b w key value now n :
  f_closed (file b) = false → quiet w →
  len key < 2 ^ 32 → len value = 2 ^ 32 + n → 0 ≤ n < 2 ^ 32 →
  Z.of_nat (length (content w (file b))) + 16 + len key + n < 2 ^ 63 →
  ∃ w1 b1,
    Set_ b key value now w = (w1, b1, None) ∧
    Get b1 key w1
    = (w1, (string_of_list_byte
              (take (Z.to_nat n) (list_byte_of_string value)), None)).
Proof.
  intros Hc Hq Hk Hv Hn Hsz. rewrite Set_quiet by done.
  eexists _, _. split; [done|].
  pose proof (len_nonneg key) as Hk0.
  set (d := content w (file b)) in *.
  set (kb := list_byte_of_string key). set (vb := list_byte_of_string value).
  assert (Hrec : record_bytes now kb vb
                 = header_bytes now (len key) n ++ kb ++ vb).
  { unfold record_bytes, header_bytes.
    change (Z.of_nat (length kb)) with (len key).
    change (Z.of_nat (length vb)) with (len value).
    rewrite (uint32_small (len key)) by lia.
    replace (uint32 (len value)) with n
      by (unfold uint32; rewrite Hv;
          replace (2 ^ 32 + n) with (n + 1 * 2 ^ 32) by lia;
          rewrite Z.mod_add, Z.mod_small; lia).
    by rewrite <- !app_assoc. }
  rewrite Hrec. unfold Get. cbn [index file]. rewrite lookup_insert_eq.
  assert (Hh : length (header_bytes now (len key) n) = 16%nat)
    by apply length_header_bytes.
  rewrite <- Hh at 1.
  rewrite (ReadAt_quiet _ _ _ d (header_bytes now (len key) n) (kb ++ vb));
    try done; [|by rewrite content_store_pos].
  cbn match. rewrite header_keySize, header_valueSize by lia.
  rewrite int64_small by lia.
  assert (Hlen : length (take (Z.to_nat n) vb) = Z.to_nat n).
  { rewrite length_take. unfold len in Hv. fold vb in Hv. lia. }
  rewrite <- Hlen at 1.
  rewrite (ReadAt_quiet _ _ _ (d ++ header_bytes now (len key) n ++ kb)
             (take (Z.to_nat n) vb) (drop (Z.to_nat n) vb)); try done.
  - rewrite content_store_pos, take_drop. by rewrite <- !app_assoc.
  - rewrite !length_app, Hh. unfold len. fold kb. lia.
Qed.

Lemma len_long_value : len long_value = 2 ^ 32.
Proof.
  unfold len, long_value.
  rewrite list_byte_of_string_of_list_byte.
  rewrite length_replicate.
  apply Z2Nat.id. apply Z.pow_nonneg. lia.
Qed.

Lemma long_value_nonempty : long_value ≠ EmptyString.
Proof.
  intros H. pose proof len_long_value as Hl. rewrite H in Hl.
  vm_compute in Hl. discriminate Hl.
Qed.

(** On a fresh store [Set] of a [2^32]-byte value writes a value length of
    zero and returns no error; [Get] then returns the empty string. *)
Lemma Set_long_value_truncates key now :
  len key < 2 ^ 32 →
  (Set_ fresh_db key long_value now fresh_world).2 = None ∧
  (Get (Set_ fresh_db key long_value now fresh_world).1.2 key
     (Set_ fresh_db key long_value now fresh_world).1.1).2
  = (EmptyString, None).
Proof.
  intros Hk. pose proof (len_nonneg key) as Hk0.
  assert (Hc : f_closed (file fresh_db) = false) by reflexivity.
  assert (Hq : quiet fresh_world) by reflexivity.
  assert (Hv : len long_value = 2 ^ 32 + 0)
    by (rewrite len_long_value; reflexivity).
  assert (Hn : 0 ≤ 0 < 2 ^ 32) by lia.
  assert (Hsz : Z.of_nat (length (content fresh_world (file fresh_db)))
                + 16 + len key + 0 < 2 ^ 63).
  { change (Z.of_nat (length (content fresh_world (file fresh_db)))) with 0.
    lia. }
  destruct (Set_long_value_wraps fresh_db fresh_world key long_value now 0
              Hc Hq Hk Hv Hn Hsz) as (w1 & b1 & Hset & Hget).
  rewrite Hset. cbn [fst snd]. rewrite Hget. split; reflexivity.
Qed.

(** C1 without the bound on the lengths does not hold: on a fresh store
    [Set] of key ["k"] and a value of [2^32] bytes returns no error, and
    the [Get] of ["k"] that follows returns the empty string, not the
    value. *)
Lemma set_get_roundtrip_counterexample :
  (Set_ fresh_db "k" long_value 1 fresh_world).2 = None ∧
  (Get (Set_ fresh_db "k" long_value 1 fresh_world).1.2 "k"
     (Set_ fresh_db "k" long_value 1 fresh_world).1.1).2
  = (EmptyString, None) ∧
  long_value ≠ EmptyString.
Proof.
  assert (Hk : len "k" < 2 ^ 32) by reflexivity.
  destruct (Set_long_value_truncates "k" 1 Hk) as [H1 H2].
  split; [exact H1|]. split; [exact H2|]. exact long_value_nonempty.
Qed.

(** *** Failed writes *)

(** C6.  When the seek to the end of the log succeeds and the write of the
    record fails with [e], [Set] returns [e], which is an I/O failure, and
    the index is the one before the call. *)
Theorem set_failed_append_keeps_index b key value now w w1 f1 off w2 f2 e :
  Seek (file b) 0 SeekEnd w = (w1, f1, inr off) →
  Write f1 (record_bytes now (list_byte_of_string key)
              (list_byte_of_string value)) w1 = (w2, f2, Some e) →
  ∃ w' b', Set_ b key value now w = (w', b', Some e) ∧
           index b' = index b ∧ e ≠ ErrKeyNotFound.
Proof.
  intros Hseek Hwrite. unfold Set_. rewrite Hseek, Hwrite.
  eexists _, _. split; [done|]. split; [done|].
  unfold Write in Hwrite.
  destruct (f_closed f1); [by simplify_eq|].
  destruct (next_fault w1) as [[x|] w3]; by simplify_eq.
Qed.

Lemma set_failed_append_keeps_index_witness :
  ∃ w' b',
    Set_ (mkBitcask (mkFile "db" 0 false false) "db" {["old" := 0]})
      "name" "alice" 42
      (mkWorld {["db" := []]} [None; Some (mkFault 28 3)])
    = (w', b', Some (PathError 28)) ∧
    index b' = {["old" := 0]} ∧ PathError 28 ≠ ErrKeyNotFound.
Proof.
  exact (set_failed_append_keeps_index
           (mkBitcask (mkFile "db" 0 false false) "db" {["old" := 0]})
           "name" "alice" 42
           (mkWorld {["db" := []]} [None; Some (mkFault 28 3)])
           _ _ _ _ _ (PathError 28) eq_refl eq_refl).
Defined.

(** Any failed [Set], whichever call failed, leaves the index alone. *)
Lemma Set_error_keeps_index b key value now w w' b' e :
  Set_ b key value now w = (w', b', Some e) → index b' = index b.
Proof.
  unfold Set_. intros H.
  destruct (Seek (file b) 0 SeekEnd w) as [[w1 f1] [e1|off]].
  - by simplify_eq.
  - destruct (Write f1 _ w1) as [[w2 f2] [e2|]]; by simplify_eq.
Qed.

(** *** What [Get] reads *)

Lemma ReadAt_quiet_take f w n off :
  f_closed f = false → quiet w → 0 ≤ off →
  (Z.to_nat off + n ≤ length (content w f))%nat →
  ReadAt f n off w = (w, (take n (drop (Z.to_nat off) (content w f)), None)).
Proof.
  intros Hc Hq Hoff Hn. unfold ReadAt.
  destruct (Z.ltb_spec off 0); [lia|].
  destruct n as [|n]; [done|].
  rewrite Hc, next_fault_quiet by done.
  rewrite length_take, length_drop.
  replace (S n `min` (length (content w f) - Z.to_nat off))%nat with (S n) by lia.
  by rewrite Nat.eqb_refl.
Qed.

Lemma ReadAt_error_not_KeyNotFound f n off w w' buf e :
  ReadAt f n off w = (w', (buf, Some e)) → e ≠ ErrKeyNotFound.
Proof.
  unfold ReadAt. intros H.
  destruct (off <? 0); [by simplify_eq|].
  destruct n; [by simplify_eq|].
  destruct (f_closed f); [by simplify_eq|].
  destruct (next_fault w) as [[x|] w1]; [by simplify_eq|].
  destruct (_ =? _)%nat; by simplify_eq.
Qed.

Lemma take_drop_take (l : list byte) (n m k : nat) :
  (m + n ≤ k)%nat → take n (drop m (take k l)) = take n (drop m l).
Proof.
  intros. rewrite !take_drop_commute, take_take.
  do 2 f_equal. lia.
Qed.

Lemma Uint32_nonneg l : 0 ≤ Uint32 l.
Proof. apply get_le_nonneg. Qed.

(** C8.  [Get] fails with [ErrKeyNotFound] exactly when the key is not in
    the index, which is the case for every key of a freshly opened store.
    Otherwise, with [keySize] and [valueSize] decoded from bytes 8..12 and
    12..16 after the indexed offset, it returns the [valueSize] bytes that
    start at [offset + 16 + keySize]; the key bytes stored there are never
    looked at. *)
Theorem get_spec b key w :
  ((Get b key w).2.2 = Some ErrKeyNotFound ↔ index b !! key = None)
  ∧ (∀ p w0, Open p w0 = (w, inr b) →
       Get b key w = (w, (EmptyString, Some ErrKeyNotFound)))
  ∧ (∀ off d,
       index b !! key = Some off →
       f_closed (file b) = false → quiet w → content w (file b) = d →
       0 ≤ off →
       let keySize := Uint32 (drop (Z.to_nat off + 8) d) in
       let valueSize := Uint32 (drop (Z.to_nat off + 12) d) in
       let valueOffset := off + 16 + keySize in
       valueOffset + valueSize ≤ Z.of_nat (length d) →
       valueOffset < 2 ^ 63 →
       Get b key w
       = (w, (string_of_list_byte
                (take (Z.to_nat valueSize) (drop (Z.to_nat valueOffset) d)),
              None))).
Proof.
  split; [|split].
  - unfold Get. destruct (index b !! key) as [off|] eqn:Hi; [|done].
    split; [|done]. intros H. exfalso.
    destruct (ReadAt (file b) 16 off w) as [w1 [hdr [e|]]] eqn:Hh.
    + simpl in H. apply ReadAt_error_not_KeyNotFound in Hh. congruence.
    + destruct (ReadAt (file b) _ _ w1) as [w2 [vb [e|]]] eqn:Hv; [|done].
      simpl in H. apply ReadAt_error_not_KeyNotFound in Hv. congruence.
  - intros p w0 Hopen. unfold Open in Hopen.
    destruct (OpenFile p true false false w0) as [w1 [e|f]]; simplify_eq.
    done.
  - intros off d Hi Hc Hq Hd Hoff keySize valueSize valueOffset Hfit Hsmall.
    pose proof (Uint32_nonneg (drop (Z.to_nat off + 8) d)) as Hk0.
    pose proof (Uint32_nonneg (drop (Z.to_nat off + 12) d)) as Hv0.
    fold keySize in Hk0. fold valueSize in Hv0.
    unfold Get. rewrite Hi.
    rewrite ReadAt_quiet_take by (done || rewrite Hd; lia).
    rewrite Hd. cbn match.
    assert (Hks : Uint32 (drop 8 (take 16 (drop (Z.to_nat off) d))) = keySize).
    { unfold keySize, Uint32. rewrite <- drop_drop.
      by rewrite take_drop_take by lia. }
    assert (Hvs : Uint32 (drop 12 (take 16 (drop (Z.to_nat off) d))) = valueSize).
    { unfold valueSize, Uint32. rewrite <- drop_drop.
      by rewrite take_drop_take by lia. }
    rewrite Hks, Hvs. fold valueOffset.
    rewrite int64_small by lia.
    rewrite ReadAt_quiet_take by (done || rewrite ?Hd; lia).
    by rewrite Hd.
Qed.

Lemma get_spec_witness :
  Get (mkBitcask (mkFile "db" 0 false false) "db" {["other" := 0]}) "other"
    (mkWorld {["db" := record_bytes 7 (list_byte_of_string "k")
                         (list_byte_of_string "hello")]} [])
  = (mkWorld {["db" := record_bytes 7 (list_byte_of_string "k")
                         (list_byte_of_string "hello")]} [],
     ("hello"%string, None)).
Proof.
  pose proof (get_spec
                (mkBitcask (mkFile "db" 0 false false) "db" {["other" := 0]})
                "other"
                (mkWorld {["db" := record_bytes 7 (list_byte_of_string "k")
                                     (list_byte_of_string "hello")]} []))
    as (_ & _ & H).
  exact (H 0 _ eq_refl eq_refl eq_refl eq_refl ltac:(lia)
           ltac:(by vm_compute) ltac:(reflexivity)).
Defined.

(** *** Sequential reads *)

Lemma ahead_closed f w rest : ahead f w rest → f_closed f = false.
Proof. by intros (? & ? & ?). Qed.

Lemma Seek_quiet_cur f off w :
  f_closed f = false → quiet w → 0 ≤ f_pos f + off →
  Seek f off SeekCurrent w
  = (w, with_pos f (f_pos f + off), inr (f_pos f + off)).
Proof. intros. by apply (Seek_quiet f off SeekCurrent w). Qed.

Lemma Seek_quiet_start f off w :
  f_closed f = false → quiet w → 0 ≤ off →
  Seek f off SeekStart w = (w, with_pos f off, inr off).
Proof. intros. by apply (Seek_quiet f off SeekStart w). Qed.

Lemma Seek_quiet_end f w :
  f_closed f = false → quiet w →
  Seek f 0 SeekEnd w
  = (w, with_pos f (Z.of_nat (length (content w f))),
     inr (Z.of_nat (length (content w f)))).
Proof.
  intros. pose proof (Seek_quiet f 0 SeekEnd w) as H'. cbn zeta in H'.
  rewrite Z.add_0_r in H'. apply H'; (done || lia).
Qed.

Lemma ahead_skip f w mid rest n :
  ahead f w (mid ++ rest) → Z.of_nat (length mid) = n →
  ahead (with_pos f (f_pos f + n)) w rest.
Proof.
  intros (Hc & Hp & Hd) <-. split; [done|]. split; [simpl; lia|].
  cbn [f_pos with_pos]. rewrite content_with_pos.
  rewrite Z2Nat.inj_add, Nat2Z.id by lia.
  rewrite <- drop_drop, Hd. by rewrite drop_app_length.
Qed.

Lemma ahead_start f w off pre rest :
  f_closed f = false → content w f = pre ++ rest →
  off = Z.of_nat (length pre) → ahead (with_pos f off) w rest.
Proof.
  intros Hc Hd ->. split; [done|]. split; [simpl; lia|].
  cbn [f_pos with_pos]. rewrite content_with_pos, Hd, Nat2Z.id.
  by rewrite drop_app_length.
Qed.

Lemma ReadFull_ahead f w n mid rest :
  quiet w → ahead f w (mid ++ rest) → length mid = n →
  ReadFull f n w = (w, with_pos f (f_pos f + Z.of_nat n), (mid, None)).
Proof.
  intros Hq (Hc & Hp & Hd) <-. unfold ReadFull.
  destruct mid as [|x mid'] eqn:Hm.
  - simpl. rewrite Z.add_0_r. by rewrite with_pos_same.
  - rewrite <- Hm in *. destruct (length mid) eqn:Hlen; [by subst|].
    rewrite <- Hlen. rewrite Hc, next_fault_quiet by done.
    rewrite Hd, take_app_length. by rewrite Nat.eqb_refl.
Qed.

Lemma binary_Read_ahead f w n mid rest :
  quiet w → ahead f w (mid ++ rest) → length mid = n →
  binary_Read f n w = (w, with_pos f (f_pos f + Z.of_nat n), inr mid).
Proof.
  intros. unfold binary_Read. by erewrite ReadFull_ahead.
Qed.

Lemma Seek_ahead f w mid rest n :
  quiet w → ahead f w (mid ++ rest) → Z.of_nat (length mid) = n →
  Seek f n SeekCurrent w
  = (w, with_pos f (f_pos f + n), inr (f_pos f + n)).
Proof.
  intros Hq (Hc & Hp & Hd) <-. apply Seek_quiet_cur; (done || lia).
Qed.

(** *** [Load] on a well-formed log *)

Lemma length_PutUint32 v : length (PutUint32 v) = 4%nat.
Proof. apply length_put_le. Qed.

Lemma length_PutUint64 v : length (PutUint64 v) = 8%nat.
Proof. apply length_put_le. Qed.

Lemma Uint32_PutUint32_eq v : 0 ≤ v < 2 ^ 32 → Uint32 (PutUint32 v) = v.
Proof.
  intros. rewrite <- (app_nil_r (PutUint32 v)). by apply Uint32_PutUint32.
Qed.

Lemma entry_bytes_parts e :
  entry_ok e →
  entry_bytes e
  = PutUint64 (e_ts e) ++ PutUint32 (len (e_key e))
    ++ PutUint32 (len (e_value e))
    ++ list_byte_of_string (e_key e) ++ list_byte_of_string (e_value e).
Proof.
  intros. rewrite entry_bytes_split by done. unfold header_bytes.
  by rewrite <- !app_assoc.
Qed.

Lemma Load_iter_entry f w e rest :
  quiet w → ahead f w (entry_bytes e ++ rest) → entry_ok e →
  Load_iter f w
  = (w, with_pos f (f_pos f + entry_size e), Continue (e_key e) (f_pos f))
  ∧ ahead (with_pos f (f_pos f + entry_size e)) w rest.
Proof.
  intros Hq Ha Hok.
  pose proof (len_nonneg (e_key e)) as Hk0.
  pose proof (len_nonneg (e_value e)) as Hv0.
  pose proof Hok as [Hk Hv].
  split; [|by eapply ahead_skip; [done|apply length_entry_bytes]].
  rewrite entry_bytes_parts in Ha by done. rewrite <- !app_assoc in Ha.
  unfold Load_iter.
  pose proof Ha as (Hc & Hp & _).
  rewrite Seek_quiet_cur by (done || lia).
  rewrite Z.add_0_r, with_pos_same.
  erewrite binary_Read_ahead; [|done|done|apply length_PutUint64].
  eapply ahead_skip in Ha; [|apply f_equal, length_PutUint64].
  erewrite binary_Read_ahead; [|done|done|apply length_PutUint32].
  eapply ahead_skip in Ha; [|apply f_equal, length_PutUint32].
  erewrite binary_Read_ahead; [|done|done|apply length_PutUint32].
  eapply ahead_skip in Ha; [|apply f_equal, length_PutUint32].
  cbn match. rewrite !Uint32_PutUint32_eq by lia.
  replace (Z.to_nat (len (e_key e)))
    with (length (list_byte_of_string (e_key e))) by (unfold len; lia).
  erewrite ReadFull_ahead; [|done|done|done].
  eapply ahead_skip in Ha; [|reflexivity].
  erewrite Seek_ahead; [|done|done|reflexivity].
  rewrite string_of_list_byte_of_string.
  cbn [f_pos with_pos]. unfold entry_size, len. do 3 f_equal. lia.
Qed.

Lemma Load_iter_eof f w :
  quiet w → ahead f w [] → Load_iter f w = (w, f, Break).
Proof.
  intros Hq (Hc & Hp & Hd). unfold Load_iter.
  rewrite Seek_quiet_cur by (done || lia).
  rewrite Z.add_0_r, with_pos_same.
  unfold binary_Read, ReadFull. rewrite Hc, next_fault_quiet by done.
  rewrite Hd. simpl. rewrite Z.add_0_r. by rewrite with_pos_same.
Qed.

Lemma Load_loop_log es : ∀ f idx w fuel,
  quiet w → ahead f w (log_bytes es) → Forall entry_ok es →
  (length es < fuel)%nat →
  Load_loop fuel f idx w
  = Some (w, with_pos f (f_pos f + log_size es),
          replay (f_pos f) es idx, None).
Proof.
  induction es as [|e es IH]; intros f idx w fuel Hq Ha Hok Hfuel.
  - destruct fuel as [|fuel]; [simpl in Hfuel; lia|].
    cbn [Load_loop]. rewrite Load_iter_eof by done.
    unfold log_size. simpl. rewrite Z.add_0_r. by rewrite with_pos_same.
  - destruct fuel as [|fuel]; [simpl in Hfuel; lia|].
    apply Forall_cons in Hok as [Hoke Hok]. cbn [log_bytes] in Ha.
    destruct (Load_iter_entry f w e (log_bytes es)) as [Hit Ha']; try done.
    cbn [Load_loop]. rewrite Hit.
    rewrite IH; try done; [|simpl in Hfuel; lia].
    cbn [f_pos with_pos]. rewrite log_size_cons.
    rewrite with_pos_twice, Z.add_assoc. done.
Qed.

(** *** Index assignments and the latest record of a key *)

Lemma assign_all_lookup kos : ∀ idx k,
  assign_all idx kos !! k
  = match last_assign kos k with Some o => Some o | None => idx !! k end.
Proof.
  induction kos as [|[k' o'] kos IH]; intros idx k; [done|].
  cbn [assign_all foldl last_assign]. fold (assign_all (<[k' := o']> idx) kos).
  rewrite IH. destruct (last_assign kos k); [done|]. simpl.
  destruct (decide (k' = k)) as [->|Hne].
  - by rewrite lookup_insert_eq.
  - by rewrite lookup_insert_ne.
Qed.

Lemma assign_all_app idx l1 l2 :
  assign_all idx (l1 ++ l2) = assign_all (assign_all idx l1) l2.
Proof. apply foldl_app. Qed.

Lemma assign_all_twice idx kos :
  assign_all (assign_all idx kos) kos = assign_all idx kos.
Proof.
  apply map_eq. intros k. rewrite !assign_all_lookup.
  by destruct (last_assign kos k).
Qed.

Lemma entry_offsets_app es1 : ∀ off es2,
  entry_offsets off (es1 ++ es2)
  = entry_offsets off es1 ++ entry_offsets (off + log_size es1) es2.
Proof.
  induction es1 as [|e es1 IH]; intros off es2.
  - simpl. unfold log_size. simpl. by rewrite Z.add_0_r.
  - cbn [app entry_offsets]. rewrite IH, log_size_cons.
    by rewrite Z.add_assoc.
Qed.

Lemma replay_app off es1 es2 idx :
  replay off (es1 ++ es2) idx
  = replay (off + log_size es1) es2 (replay off es1 idx).
Proof. unfold replay. by rewrite entry_offsets_app, assign_all_app. Qed.

Lemma last_assign_None es : ∀ off k,
  last_assign (entry_offsets off es) k = None →
  Forall (λ e', e_key e' ≠ k) es.
Proof.
  induction es as [|e es IH]; intros off k H; [constructor|].
  cbn [entry_offsets last_assign] in H.
  destruct (last_assign _ k) eqn:Hl; [done|]. simpl in H.
  destruct (decide (e_key e = k)); [done|].
  constructor; [done|]. by eapply IH.
Qed.

Lemma last_assign_Some es : ∀ off k o,
  last_assign (entry_offsets off es) k = Some o →
  ∃ pre e post, es = pre ++ e :: post ∧ o = off + log_size pre ∧
                e_key e = k ∧ Forall (λ e', e_key e' ≠ k) post.
Proof.
  induction es as [|e es IH]; intros off k o H; [done|].
  cbn [entry_offsets last_assign] in H.
  destruct (last_assign _ k) as [o'|] eqn:Hl.
  - injection H as ->. apply IH in Hl as (pre & e' & post & -> & -> & Hk & Hpost).
    exists (e :: pre), e', post. rewrite log_size_cons.
    split; [done|]. split; [lia|done].
  - simpl in H. destruct (decide (e_key e = k)) as [Hk|]; [|done].
    injection H as <-. exists [], e, es. unfold log_size. simpl.
    split; [done|]. split; [lia|]. split; [done|]. by eapply last_assign_None.
Qed.

Lemma replay_latest es idx k off :
  replay 0 es idx !! k = Some off →
  (∃ e, latest_at es k off e) ∨
  (idx !! k = Some off ∧ Forall (λ e', e_key e' ≠ k) es).
Proof.
  unfold replay. rewrite assign_all_lookup.
  destruct (last_assign _ k) as [o|] eqn:Hl.
  - intros [= ->]. left.
    apply last_assign_Some in Hl as (pre & e & post & -> & -> & Hk & Hpost).
    exists e, pre, post. by rewrite Z.add_0_l.
  - intros H. right. split; [done|]. by eapply last_assign_None.
Qed.

Lemma last_entry_None es k :
  Forall (λ e', e_key e' ≠ k) es → last_entry es k = None.
Proof.
  induction 1 as [|e es Hk _ IH]; [done|]. simpl. rewrite IH.
  by destruct (decide (e_key e = k)).
Qed.

Lemma last_assign_fresh es : ∀ off k,
  Forall (λ e', e_key e' ≠ k) es → last_assign (entry_offsets off es) k = None.
Proof.
  induction es as [|e es IH]; intros off k H; [done|].
  apply Forall_cons in H as [Hk H]. cbn [entry_offsets last_assign].
  rewrite IH by done. simpl. by destruct (decide (e_key e = k)).
Qed.

(** [latest_at] is a function of the log and the key. *)
Lemma latest_at_last es k off e :
  latest_at es k off e →
  last_entry es k = Some e ∧ last_assign (entry_offsets 0 es) k = Some off.
Proof.
  intros (pre & post & -> & -> & Hk & Hpost).
  assert (Hgen : ∀ base,
    last_entry (pre ++ e :: post) k = Some e ∧
    last_assign (entry_offsets base (pre ++ e :: post)) k
    = Some (base + log_size pre)).
  { induction pre as [|p pre IH]; intros base.
    - cbn [app last_entry entry_offsets last_assign].
      rewrite last_entry_None, last_assign_fresh by done. simpl.
      destruct (decide (e_key e = k)); [|done].
      unfold log_size. simpl. by rewrite Z.add_0_r.
    - cbn [app last_entry entry_offsets last_assign].
      destruct (IH (base + entry_size p)) as [-> ->].
      rewrite log_size_cons. split; [done|]. f_equal. lia. }
  destruct (Hgen 0) as [H1 H2]. by rewrite Z.add_0_l in H2.
Qed.

Lemma latest_at_fun es k off1 e1 off2 e2 :
  latest_at es k off1 e1 → latest_at es k off2 e2 → off1 = off2 ∧ e1 = e2.
Proof.
  intros [H1 H2]%latest_at_last [H3 H4]%latest_at_last. split; congruence.
Qed.

Lemma latest_at_bytes es k off e :
  latest_at es k off e →
  ∃ pre post, log_bytes es = pre ++ entry_bytes e ++ post ∧
              off = Z.of_nat (length pre) ∧
              off + entry_size e ≤ log_size es.
Proof.
  intros (pre & post & -> & -> & _).
  exists (log_bytes pre), (log_bytes post). rewrite log_bytes_app.
  split; [done|]. split; [done|].
  rewrite log_size_app, log_size_cons. pose proof (log_size_nonneg post). lia.
Qed.

Lemma latest_at_ok es k off e :
  Forall entry_ok es → latest_at es k off e → entry_ok e.
Proof.
  intros Hok (pre & post & -> & _).
  apply Forall_app in Hok as [_ Hok]. by apply Forall_cons in Hok as [? _].
Qed.

Lemma latest_at_snoc_same es e :
  latest_at (es ++ [e]) (e_key e) (log_size es) e.
Proof. exists es, []. by repeat split. Qed.

Lemma latest_at_snoc_other es e k off e' :
  e_key e ≠ k → latest_at es k off e' → latest_at (es ++ [e]) k off e'.
Proof.
  intros Hne (pre & post & -> & -> & Hk & Hpost).
  exists pre, (post ++ [e]). rewrite <- app_assoc. split; [done|].
  split; [done|]. split; [done|]. apply Forall_app. split; [done|].
  by constructor.
Qed.

(** Under the invariant [Get] returns the value of the latest record. *)
Lemma Get_inv w b es k off e :
  inv w b es → quiet w → log_size es < 2 ^ 63 →
  index b !! k = Some off → latest_at es k off e →
  Get b k w = (w, (e_value e, None)).
Proof.
  intros [Hc Hn Hf Hok Hi] Hq Hsz Hk Hl.
  destruct (latest_at_bytes _ _ _ _ Hl) as (pre & post & Hb & Hoff & Hle).
  eapply Get_record; try done.
  - rewrite (content_lookup _ _ (log_bytes es)); [done|]. by rewrite Hn.
  - by eapply latest_at_ok.
  - lia.
Qed.

(** *** [Set] preserves the invariant *)

Lemma Seek_success f off wh w w' f' p :
  Seek f off wh w = (w', f', inr p) →
  f_closed f = false ∧ files w' = files w ∧ f' = with_pos f p ∧
  p = match wh with
      | SeekStart => 0
      | SeekCurrent => f_pos f
      | SeekEnd => Z.of_nat (length (content w f))
      end + off ∧ 0 ≤ p.
Proof.
  unfold Seek. intros H.
  destruct (f_closed f); [done|].
  assert (Hfs : files (next_fault w).2 = files w).
  { unfold next_fault. by destruct (faults w). }
  assert (Hct : content (next_fault w).2 f = content w f).
  { unfold content. by rewrite Hfs. }
  destruct (next_fault w) as [[x|] w1]; [done|]. simpl in Hfs, Hct.
  rewrite Hct in H.
  destruct (Z.ltb_spec (match wh with
                        | SeekStart => 0
                        | SeekCurrent => f_pos f
                        | SeekEnd => Z.of_nat (length (content w f))
                        end + off) 0); [done|].
  by simplify_eq.
Qed.

Lemma Write_success f buf w w' f' :
  Write f buf w = (w', f', None) →
  f_closed f = false ∧
  let p := if f_append f then length (content w f) else Z.to_nat (f_pos f) in
  files w' = <[f_name f := write_at (content w f) p buf]> (files w) ∧
  f' = with_pos f (Z.of_nat (p + length buf)).
Proof.
  unfold Write. intros H.
  destruct (f_closed f); [done|].
  assert (Hfs : files (next_fault w).2 = files w).
  { unfold next_fault. by destruct (faults w). }
  assert (Hct : content (next_fault w).2 f = content w f).
  { unfold content. by rewrite Hfs. }
  destruct (next_fault w) as [[x|] w1]; [done|]. simpl in Hfs, Hct.
  rewrite Hct in H. simplify_eq. split; [done|]. split; [|done].
  unfold store. simpl. by rewrite Hfs.
Qed.

Lemma Set_success_inv w b es key value now w' b' :
  inv w b es → entry_ok (mkEntry now key value) →
  Set_ b key value now w = (w', b', None) →
  inv w' b' (es ++ [mkEntry now key value]) ∧
  index b' = <[key := log_size es]> (index b) ∧ path b' = path b.
Proof.
  intros [Hc Hn Hf Hok Hi] Hoke H. unfold Set_ in H.
  destruct (Seek (file b) 0 SeekEnd w) as [[w1 f1] [e1|off]] eqn:Hs; [done|].
  destruct (Write f1 _ w1) as [[w2 f2] [e2|]] eqn:Hw; [done|].
  simplify_eq.
  apply Seek_success in Hs as (_ & Hfs1 & -> & Hoff & _).
  apply Write_success in Hw as (_ & Hfs2 & ->).
  assert (Hct : content w (file b) = log_bytes es).
  { apply content_lookup. by rewrite Hn. }
  assert (Hct1 : content w1 (with_pos (file b) off) = log_bytes es).
  { unfold content. rewrite Hfs1. apply Hct. }
  rewrite Hct, Z.add_0_r in Hoff. rewrite Hct1 in Hfs2.
  cbn [f_append f_pos f_name with_pos] in Hfs2.
  assert ((if f_append (file b) then length (log_bytes es) else Z.to_nat off)
          = length (log_bytes es)) as Heq.
  { destruct (f_append (file b)); [done|]. subst off. apply Nat2Z.id. }
  rewrite Heq, write_at_end, Hfs1, Hn in Hfs2.
  split; [|by subst off].
  split; cbn [file path index with_pos f_closed f_name]; try done.
  - rewrite Hfs2, lookup_insert_eq. rewrite log_bytes_app. simpl.
    by rewrite app_nil_r.
  - apply Forall_app. split; [done|]. by constructor.
  - intros k o Hk. destruct (decide (key = k)) as [->|Hne].
    + rewrite lookup_insert_eq in Hk. injection Hk as <-. subst off.
      eexists. apply (latest_at_snoc_same es (mkEntry now k value)).
    + rewrite lookup_insert_ne in Hk by done.
      destruct (Hi _ _ Hk) as [e' He']. exists e'.
      by apply latest_at_snoc_other.
Qed.

Lemma Set_inv w b es key value now :
  inv w b es → quiet w → entry_ok (mkEntry now key value) →
  ∃ w' b', Set_ b key value now w = (w', b', None) ∧ quiet w' ∧
           inv w' b' (es ++ [mkEntry now key value]) ∧
           index b' = <[key := log_size es]> (index b) ∧ path b' = path b.
Proof.
  intros Hinv Hq Hok. pose proof (inv_open _ _ _ Hinv) as Hc.
  pose proof (Set_quiet b key value now w Hc Hq) as Hset. cbn zeta in Hset.
  eexists _, _. split; [exact Hset|]. split; [done|].
  by eapply Set_success_inv.
Qed.

(** *** [Close], [Open] and [Load] on a well-formed log *)

Lemma length_le_log_size es : Z.of_nat (length es) ≤ log_size es.
Proof.
  induction es as [|e es IH]; [done|]. rewrite log_size_cons.
  pose proof (entry_size_pos e). simpl length. lia.
Qed.

Lemma Close_inv w b es :
  inv w b es → quiet w →
  ∃ b', atomkv.Close b w = (w, b', None) ∧ path b' = path b.
Proof.
  intros [Hc _ _ _ _] Hq. unfold atomkv.Close.
  rewrite Close_quiet by done. by eexists.
Qed.

Lemma Open_existing p w d :
  quiet w → files w !! p = Some d →
  Open p w = (w, inr (mkBitcask (mkFile p 0 false false) p ∅)).
Proof.
  intros Hq Hf. unfold Open, OpenFile.
  by rewrite next_fault_quiet, Hf.
Qed.

Lemma Open_inv p w es :
  quiet w → files w !! p = Some (log_bytes es) → Forall entry_ok es →
  inv w (mkBitcask (mkFile p 0 false false) p ∅) es.
Proof. intros. by split. Qed.

Lemma Load_inv w b es :
  inv w b es → quiet w →
  ∃ b', Load b w = Some (w, b', None) ∧ inv w b' es ∧
        index b' = replay 0 es (index b) ∧ path b' = path b.
Proof.
  intros [Hc Hn Hf Hok Hi] Hq. unfold Load.
  rewrite Seek_quiet_start by (done || lia).
  assert (Hct : content w (file b) = log_bytes es).
  { apply content_lookup. by rewrite Hn. }
  rewrite content_with_pos, Hct.
  assert (Ha : ahead (with_pos (file b) 0) w (log_bytes es))
    by (by apply (ahead_start _ _ 0 [])).
  assert (Hfuel : (length es < S (length (log_bytes es)))%nat).
  { pose proof (length_le_log_size es). unfold log_size in *. lia. }
  rewrite (Load_loop_log es _ _ _ _ Hq Ha Hok Hfuel).
  eexists. split; [done|]. split; [|done].
  split; cbn [file path index with_pos f_closed f_name]; try done.
  intros k off Hk. apply replay_latest in Hk as [Hk|[Hk _]]; [done|].
  by apply Hi.
Qed.

(** After [Load] on a freshly opened handle every key of the log is
    indexed at its latest record. *)
Lemma replay_last es k off e :
  latest_at es k off e → replay 0 es ∅ !! k = Some off.
Proof.
  intros [_ H]%latest_at_last. unfold replay.
  by rewrite assign_all_lookup, H.
Qed.

Lemma reopen_Get w b es k off e :
  inv w b es → quiet w → log_size es < 2 ^ 63 → latest_at es k off e →
  ∃ b1 b2 b3,
    atomkv.Close b w = (w, b1, None) ∧
    Open (path b) w = (w, inr b2) ∧
    Load b2 w = Some (w, b3, None) ∧
    Get b3 k w = (w, (e_value e, None)).
Proof.
  intros Hinv Hq Hsz Hl.
  destruct (Close_inv _ _ _ Hinv Hq) as (b1 & Hclose & _).
  pose proof (inv_file _ _ _ Hinv) as Hf.
  pose proof (Open_existing _ _ _ Hq Hf) as Hopen.
  pose proof (Open_inv _ _ _ Hq Hf (inv_ok _ _ _ Hinv)) as Hinv2.
  destruct (Load_inv _ _ _ Hinv2 Hq) as (b3 & Hload & Hinv3 & Hidx & _).
  eexists b1, _, b3. repeat split; try done.
  eapply Get_inv; try done.
  rewrite Hidx. by eapply replay_last.
Qed.

Lemma Set_then_reopen w b es key value now :
  inv w b es → quiet w → entry_ok (mkEntry now key value) →
  log_size es + (16 + len key + len value) < 2 ^ 63 →
  ∃ w1 b1,
    Set_ b key value now w = (w1, b1, None) ∧ quiet w1 ∧
    inv w1 b1 (es ++ [mkEntry now key value]) ∧ path b1 = path b ∧
    Get b1 key w1 = (w1, (value, None)) ∧
    ∃ b2 b3 b4,
      atomkv.Close b1 w1 = (w1, b2, None) ∧
      Open (path b) w1 = (w1, inr b3) ∧
      Load b3 w1 = Some (w1, b4, None) ∧
      Get b4 key w1 = (w1, (value, None)).
Proof.
  intros Hinv Hq Hok Hsz.
  destruct (Set_inv _ _ _ key value now Hinv Hq Hok)
    as (w1 & b1 & Hset & Hq1 & Hinv1 & Hidx & Hp).
  set (e := mkEntry now key value) in *.
  assert (Hsz1 : log_size (es ++ [e]) < 2 ^ 63).
  { rewrite log_size_app, log_size_cons. unfold log_size at 2. simpl.
    unfold entry_size. simpl. lia. }
  pose proof (latest_at_snoc_same es e) as Hl. simpl in Hl.
  exists w1, b1. repeat (split; [done|]). split.
  - eapply (Get_inv _ _ _ _ _ e); try done.
    rewrite Hidx. by rewrite lookup_insert_eq.
  - rewrite <- Hp. by eapply (reopen_Get _ _ _ _ _ e).
Qed.



(** C10 (empty key, empty value).  [Set] with the empty key and [Set] with
    the empty value succeed; the log grows by [16 + len(value)] and by
    [16 + len(key)] bytes; [Get] returns the value written (the empty
    string with no error for the empty value), also after [Close], [Open]
    and [Load]. *)
Theorem empty_key_and_empty_value w b es key value now :
  inv w b es → quiet w →
  len key < 2 ^ 32 → len value < 2 ^ 32 →
  log_size es + 16 + len key + len value < 2 ^ 63 →
  (∃ w1 b1 d1,
     Set_ b EmptyString value now w = (w1, b1, None) ∧
     files w1 !! path b = Some d1 ∧
     Z.of_nat (length d1) = log_size es + (16 + len value) ∧
     Get b1 EmptyString w1 = (w1, (value, None)) ∧
     ∃ b2 b3 b4,
       atomkv.Close b1 w1 = (w1, b2, None) ∧
       Open (path b) w1 = (w1, inr b3) ∧
       Load b3 w1 = Some (w1, b4, None) ∧
       Get b4 EmptyString w1 = (w1, (value, None)))
  ∧
  (∃ w1 b1 d1,
     Set_ b key EmptyString now w = (w1, b1, None) ∧
     files w1 !! path b = Some d1 ∧
     Z.of_nat (length d1) = log_size es + (16 + len key) ∧
     Get b1 key w1 = (w1, (EmptyString, None)) ∧
     ∃ b2 b3 b4,
       atomkv.Close b1 w1 = (w1, b2, None) ∧
       Open (path b) w1 = (w1, inr b3) ∧
       Load b3 w1 = Some (w1, b4, None) ∧
       Get b4 key w1 = (w1, (EmptyString, None))).
Proof.
  intros Hinv Hq Hk Hv Hsz.
  pose proof (len_nonneg key). pose proof (len_nonneg value).
  assert (Hz : len EmptyString = 0) by done.
  split.
  - destruct (Set_then_reopen w b es EmptyString value now Hinv Hq)
      as (w1 & b1 & Hset & Hq1 & Hinv1 & Hp & Hget & Hre).
    { split; simpl; [rewrite Hz; lia|done]. }
    { rewrite Hz. lia. }
    exists w1, b1, (log_bytes (es ++ [mkEntry now EmptyString value])).
    split; [done|]. split; [rewrite <- Hp; apply (inv_file _ _ _ Hinv1)|].
    split; [|done].
    fold (log_size (es ++ [mkEntry now EmptyString value])).
    rewrite log_size_app, log_size_cons. unfold log_size at 2. simpl.
    unfold entry_size. simpl. rewrite Hz. lia.
  - destruct (Set_then_reopen w b es key EmptyString now Hinv Hq)
      as (w1 & b1 & Hset & Hq1 & Hinv1 & Hp & Hget & Hre).
    { split; simpl; [done|rewrite Hz; lia]. }
    { rewrite Hz. lia. }
    exists w1, b1, (log_bytes (es ++ [mkEntry now key EmptyString])).
    split; [done|]. split; [rewrite <- Hp; apply (inv_file _ _ _ Hinv1)|].
    split; [|done].
    fold (log_size (es ++ [mkEntry now key EmptyString])).
    rewrite log_size_app, log_size_cons. unfold log_size at 2. simpl.
    unfold entry_size. simpl. rewrite Hz. lia.
Qed.

Lemma empty_key_and_empty_value_witness :
  (∃ w1 b1 d1,
     Set_ fresh_db "" "v" 1 fresh_world = (w1, b1, None) ∧
     files w1 !! "db"%string = Some d1 ∧
     Z.of_nat (length d1) = 0 + (16 + 1) ∧
     Get b1 "" w1 = (w1, ("v"%string, None)) ∧
     ∃ b2 b3 b4,
       atomkv.Close b1 w1 = (w1, b2, None) ∧
       Open "db" w1 = (w1, inr b3) ∧
       Load b3 w1 = Some (w1, b4, None) ∧
       Get b4 "" w1 = (w1, ("v"%string, None)))
  ∧
  (∃ w1 b1 d1,
     Set_ fresh_db "key" "" 1 fresh_world = (w1, b1, None) ∧
     files w1 !! "db"%string = Some d1 ∧
     Z.of_nat (length d1) = 0 + (16 + 3) ∧
     Get b1 "key" w1 = (w1, (EmptyString, None)) ∧
     ∃ b2 b3 b4,
       atomkv.Close b1 w1 = (w1, b2, None) ∧
       Open "db" w1 = (w1, inr b3) ∧
       Load b3 w1 = Some (w1, b4, None) ∧
       Get b4 "key" w1 = (w1, (EmptyString, None))).
Proof.
  apply (empty_key_and_empty_value fresh_world fresh_db [] "key" "v" 1).
  - by split.
  - reflexivity.
  - reflexivity.
  - reflexivity.
  - reflexivity.
Defined.

(** C10 without the bound on the lengths does not hold: on a fresh store
    [Set] of the empty key and a value of [2^32] bytes returns no error,
    and the [Get] of the empty key that follows returns the empty string,
    not the value. *)
Lemma empty_key_roundtrip_counterexample :
  (Set_ fresh_db "" long_value 1 fresh_world).2 = None ∧
  (Get (Set_ fresh_db "" long_value 1 fresh_world).1.2 ""
     (Set_ fresh_db "" long_value 1 fresh_world).1.1).2
  = (EmptyString, None) ∧
  long_value ≠ EmptyString.
Proof.
  assert (Hk : len "" < 2 ^ 32) by reflexivity.
  destruct (Set_long_value_truncates "" 1 Hk) as [H1 H2].
  split; [exact H1|]. split; [exact H2|]. exact long_value_nonempty.
Qed.

(** *** What the file primitives leave alone *)

Lemma same_handle_refl f : same_handle f f.
Proof. done. Qed.

Lemma same_handle_with_pos f p : same_handle f (with_pos f p).
Proof. done. Qed.

Lemma same_handle_trans f1 f2 f3 :
  same_handle f1 f2 → same_handle f2 f3 → same_handle f1 f3.
Proof. intros (?&?&?) (?&?&?). repeat split; congruence. Qed.

Lemma with_pos_same_handle f f' p :
  same_handle f f' → with_pos f' p = with_pos f p.
Proof. intros (Hn & Ha & Hc). unfold with_pos. by rewrite Hn, Ha, Hc. Qed.



Lemma next_fault_None w w' :
  next_fault w = (None, w') → files w' = files w ∧ (quiet w → w' = w).
Proof.
  intros H. split.
  - pose proof (next_fault_files w) as Hf. by rewrite H in Hf.
  - intros Hq. rewrite next_fault_quiet in H by done. by simplify_eq.
Qed.

Lemma Seek_frame f off wh w w' f' r :
  Seek f off wh w = (w', f', r) →
  same_handle f f' ∧ files w' = files w ∧ (quiet w → w' = w).
Proof.
  unfold Seek. intros H.
  destruct (f_closed f); [by simplify_eq|].
  destruct (next_fault w) as [flt w1] eqn:Hnf.
  assert (files w1 = files w ∧ (quiet w → w1 = w)) as [Hfs Hqw].
  { pose proof (next_fault_files w) as Hf. rewrite Hnf in Hf. split; [done|].
    intros Hq. rewrite next_fault_quiet in Hnf by done. by simplify_eq. }
  destruct flt; [by simplify_eq|].
  destruct (_ <? 0); by simplify_eq.
Qed.

Lemma ReadFull_frame f n w w' f' r :
  ReadFull f n w = (w', f', r) →
  same_handle f f' ∧ files w' = files w ∧ (quiet w → w' = w).
Proof.
  unfold ReadFull. intros H.
  destruct n; [by simplify_eq|].
  destruct (f_closed f); [by simplify_eq|].
  destruct (next_fault w) as [flt w1] eqn:Hnf.
  assert (files w1 = files w ∧ (quiet w → w1 = w)) as [Hfs Hqw].
  { pose proof (next_fault_files w) as Hf. rewrite Hnf in Hf. split; [done|].
    intros Hq. rewrite next_fault_quiet in Hnf by done. by simplify_eq. }
  destruct flt; [by simplify_eq|].
  destruct (_ =? _)%nat; by simplify_eq.
Qed.

Lemma binary_Read_frame f n w w' f' r :
  binary_Read f n w = (w', f', r) →
  same_handle f f' ∧ files w' = files w ∧ (quiet w → w' = w).
Proof.
  unfold binary_Read. intros H.
  destruct (ReadFull f n w) as [[w1 f1] [buf [e|]]] eqn:Hr;
    apply ReadFull_frame in Hr; by simplify_eq.
Qed.

(** Chaining frames: the second call started where the first one ended. *)
Lemma frame_trans (f f1 f2 : File) (w w1 w2 : World) :
  same_handle f f1 ∧ files w1 = files w ∧ (quiet w → w1 = w) →
  same_handle f1 f2 ∧ files w2 = files w1 ∧ (quiet w1 → w2 = w1) →
  same_handle f f2 ∧ files w2 = files w ∧ (quiet w → w2 = w).
Proof.
  intros (Hh & Hf & Hq) (Hh' & Hf' & Hq'). split; [|split].
  - by eapply same_handle_trans.
  - congruence.
  - intros Hqw. specialize (Hq Hqw). subst w1. by apply Hq'.
Qed.

Lemma Load_iter_frame f w w' f' s :
  Load_iter f w = (w', f', s) →
  same_handle f f' ∧ files w' = files w ∧ (quiet w → w' = w).
Proof.
  unfold Load_iter. intros H.
  destruct (Seek f 0 SeekCurrent w) as [[w1 f1] r1] eqn:H1.
  apply Seek_frame in H1.
  destruct r1 as [e1|off]; [by simplify_eq|].
  destruct (binary_Read f1 8 w1) as [[w2 f2] r2] eqn:H2.
  apply binary_Read_frame in H2. pose proof (frame_trans _ _ _ _ _ _ H1 H2) as H12.
  destruct r2 as [e2|ts]; [destruct e2; by simplify_eq|].
  destruct (binary_Read f2 4 w2) as [[w3 f3] r3] eqn:H3.
  apply binary_Read_frame in H3. pose proof (frame_trans _ _ _ _ _ _ H12 H3) as H13.
  destruct r3 as [e3|ks]; [by simplify_eq|].
  destruct (binary_Read f3 4 w3) as [[w4 f4] r4] eqn:H4.
  apply binary_Read_frame in H4. pose proof (frame_trans _ _ _ _ _ _ H13 H4) as H14.
  destruct r4 as [e4|vs]; [by simplify_eq|].
  destruct (ReadFull f4 _ w4) as [[w5 f5] [kb err5]] eqn:H5.
  apply ReadFull_frame in H5. pose proof (frame_trans _ _ _ _ _ _ H14 H5) as H15.
  destruct err5 as [e5|]; [by simplify_eq|].
  destruct (Seek f5 _ SeekCurrent w5) as [[w6 f6] r6] eqn:H6.
  apply Seek_frame in H6. pose proof (frame_trans _ _ _ _ _ _ H15 H6) as H16.
  destruct r6; by simplify_eq.
Qed.

Lemma Load_loop_frame fuel : ∀ f idx w w' f' idx' e,
  Load_loop fuel f idx w = Some (w', f', idx', e) →
  same_handle f f' ∧ files w' = files w ∧ (quiet w → w' = w).
Proof.
  induction fuel as [|fuel IH]; intros f idx w w' f' idx' e H; [done|].
  cbn [Load_loop] in H.
  destruct (Load_iter f w) as [[w1 f1] s] eqn:Hit.
  apply Load_iter_frame in Hit.
  destruct s as [k o| |e1]; [|by simplify_eq..].
  apply IH in H. by eapply frame_trans.
Qed.

(** The assignments of a run of the loop do not depend on the index it
    started from. *)
Lemma Load_loop_assigns fuel : ∀ f w,
  ∃ kos, ∀ idx,
    Load_loop fuel f idx w
    = match Load_loop fuel f ∅ w with
      | Some (w', f', _, e) => Some (w', f', assign_all idx kos, e)
      | None => None
      end.
Proof.
  induction fuel as [|fuel IH]; intros f w; [by exists []|].
  cbn [Load_loop].
  destruct (Load_iter f w) as [[w1 f1] [k o| |e]].
  - destruct (IH f1 w1) as [kos Hkos]. exists ((k, o) :: kos). intros idx.
    rewrite (Hkos (<[k := o]> idx)), (Hkos (<[k := o]> ∅)).
    by destruct (Load_loop fuel f1 ∅ w1) as [[[[w' f'] idx'] e]|].
  - by exists [].
  - by exists [].
Qed.

(** *** [Load] terminates *)

Lemma ReadFull_success f n w w' f' buf :
  ReadFull f n w = (w', f', (buf, None)) →
  f' = with_pos f (f_pos f + Z.of_nat n) ∧
  buf = take n (drop (Z.to_nat (f_pos f)) (content w f)) ∧ length buf = n.
Proof.
  unfold ReadFull. intros H.
  destruct n as [|n].
  - simplify_eq. rewrite Z.add_0_r. by rewrite with_pos_same.
  - destruct (f_closed f); [done|].
    pose proof (next_fault_files w) as Hf.
    destruct (next_fault w) as [[x|] w1]; [done|]. simpl in Hf.
    unfold content in *. rewrite Hf in H.
    destruct (Nat.eqb_spec
                (length (take (S n) (drop (Z.to_nat (f_pos f))
                                       (default [] (files w !! f_name f)))))
                (S n)) as [Heq|]; [|done].
    simplify_eq. by rewrite Heq.
Qed.

Lemma binary_Read_success f n w w' f' buf :
  binary_Read f n w = (w', f', inr buf) →
  f' = with_pos f (f_pos f + Z.of_nat n) ∧
  buf = take n (drop (Z.to_nat (f_pos f)) (content w f)) ∧ length buf = n.
Proof.
  unfold binary_Read. intros H.
  destruct (ReadFull f n w) as [[w1 f1] [b1 [e|]]] eqn:Hr; [done|].
  simplify_eq. by apply ReadFull_success in Hr.
Qed.

Lemma Load_iter_progress f w w' f' k o :
  Load_iter f w = (w', f', Continue k o) →
  f_pos f + 16 ≤ f_pos f' ∧
  f_pos f + 8 ≤ Z.of_nat (length (content w f)) ∧ 0 ≤ f_pos f.
Proof.
  unfold Load_iter. intros H.
  destruct (Seek f 0 SeekCurrent w) as [[w1 f1] [e1|off]] eqn:H1; [done|].
  pose proof (Seek_frame _ _ _ _ _ _ _ H1) as (_ & Hfs1 & _).
  apply Seek_success in H1 as (_ & _ & -> & -> & Hp). rewrite Z.add_0_r in *.
  rewrite with_pos_same in H.
  destruct (binary_Read f 8 w1) as [[w2 f2] [e2|ts]] eqn:H2;
    [destruct e2; done|].
  apply binary_Read_success in H2 as (-> & -> & Hlen).
  destruct (binary_Read _ 4 w2) as [[w3 f3] [e3|ks]] eqn:H3; [done|].
  apply binary_Read_success in H3 as (-> & _ & _).
  destruct (binary_Read _ 4 w3) as [[w4 f4] [e4|vs]] eqn:H4; [done|].
  apply binary_Read_success in H4 as (-> & _ & _).
  destruct (ReadFull _ _ w4) as [[w5 f5] [kb [e5|]]] eqn:H5; [done|].
  apply ReadFull_success in H5 as (-> & _ & _).
  destruct (Seek _ _ SeekCurrent w5) as [[w6 f6] [e6|p6]] eqn:H6; [done|].
  apply Seek_success in H6 as (_ & _ & -> & -> & _).
  simplify_eq. cbn [f_pos with_pos].
  pose proof (Uint32_nonneg ks). pose proof (Uint32_nonneg vs).
  rewrite length_take, length_drop in Hlen.
  assert (content w1 f = content w f) as Hct
    by (unfold content; by rewrite Hfs1).
  rewrite Hct in Hlen. lia.
Qed.

Lemma Load_loop_terminates fuel : ∀ f idx w,
  (0 < fuel)%nat →
  Z.of_nat (length (content w f)) - f_pos f < Z.of_nat fuel →
  is_Some (Load_loop fuel f idx w).
Proof.
  induction fuel as [|fuel IH]; intros f idx w Hpos Hfuel; [lia|].
  cbn [Load_loop].
  destruct (Load_iter f w) as [[w1 f1] [k o| |e]] eqn:Hit; [|done..].
  pose proof (Load_iter_frame _ _ _ _ _ Hit) as ((Hn & _ & _) & Hfs & _).
  apply Load_iter_progress in Hit as (Hadv & Hin & Hp).
  assert (content w1 f1 = content w f) as Hct
    by (unfold content; by rewrite Hfs, Hn).
  apply IH; [lia|]. rewrite Hct. lia.
Qed.

(** [Load] always returns: the bound on the number of turns is never
    reached, whatever the file holds and whatever faults occur. *)
Theorem Load_terminates b w : is_Some (Load b w).
Proof.
  unfold Load.
  destruct (Seek (file b) 0 SeekStart w) as [[w1 f1] [e|p]] eqn:Hs; [done|].
  apply Seek_success in Hs as (_ & _ & -> & -> & _).
  destruct (Load_loop_terminates (S (length (content w1 (with_pos (file b) (0 + 0)))))
              (with_pos (file b) (0 + 0)) (index b) w1) as [[[[w2 f2] idx2] e2] ->].
  - lia.
  - cbn [f_pos with_pos]. lia.
  - done.
Qed.

(** *** [Load] is idempotent *)

(** C9.  With no I/O fault pending, for every engine state and every log
    content, [Load] returns, a second [Load] right after it returns the
    same result, and the index after the second is the index after the
    first. *)
Theorem Load_idempotent b w :
  quiet w →
  ∃ w1 b1 e1 w2 b2,
    Load b w = Some (w1, b1, e1) ∧ Load b1 w1 = Some (w2, b2, e1) ∧
    index b2 = index b1.
Proof.
  intros Hq. unfold Load.
  destruct (f_closed (file b)) eqn:Hc.
  - unfold Seek. rewrite Hc. eexists _, _, _, _, _. split; [done|].
    cbn [file]. rewrite Hc. done.
  - rewrite Seek_quiet_start by (done || lia).
    rewrite content_with_pos.
    set (fuel := S (length (content w (file b)))).
    destruct (Load_loop_terminates fuel (with_pos (file b) 0) (index b) w)
      as [[[[w1 f1] idx1] e1] Hrun].
    { unfold fuel. lia. }
    { unfold fuel. cbn [f_pos with_pos]. rewrite content_with_pos. lia. }
    rewrite Hrun.
    pose proof (Load_loop_frame _ _ _ _ _ _ _ _ Hrun) as (Hsame & _ & Hw).
    specialize (Hw Hq). subst w1.
    destruct (Load_loop_assigns fuel (with_pos (file b) 0) w) as [kos Hkos].
    rewrite (Hkos (index b)) in Hrun.
    match type of Hrun with
    | context [Load_loop ?a ?f ?i ?x] =>
      destruct (Load_loop a f i x) as [[[[w0 f0] idx0] e0]|] eqn:Hbase; [|done]
    end.
    simplify_eq.
    eexists _, _, _, _, _. split; [done|]. cbn [file index path].
    destruct Hsame as (Hn & Ha & Hc1). cbn [with_pos f_closed] in Hc1.
    rewrite Seek_quiet_start by (done || lia || congruence).
    rewrite (with_pos_same_handle (with_pos (file b) 0) f1) by done.
    rewrite with_pos_twice, content_with_pos. fold fuel.
    rewrite (Hkos (assign_all (index b) kos)).
    split; [done|]. cbn [index]. apply assign_all_twice.
Qed.

Lemma Load_idempotent_witness :
  ∃ w1 b1 e1 w2 b2,
    Load (mkBitcask (mkFile "db" 5 false false) "db" {["stale" := 9]})
      (mkWorld {["db" := record_bytes 1 (list_byte_of_string "k")
                           (list_byte_of_string "v")]} [])
    = Some (w1, b1, e1) ∧
    Load b1 w1 = Some (w2, b2, e1) ∧ index b2 = index b1.
Proof. apply Load_idempotent. reflexivity. Defined.

(** *** [Compact] *)

Lemma tempPath_neq b : tempPath b ≠ path b.
Proof.
  unfold tempPath. induction (path b) as [|a s IH]; [done|].
  simpl. intros [= H]. by apply IH.
Qed.

Lemma store_store w n d1 d2 : store (store w n d1) n d2 = store w n d2.
Proof. unfold store. simpl. by rewrite insert_insert_eq. Qed.

Lemma content_store_ne w n d f :
  f_name f ≠ n → content (store w n d) f = content w f.
Proof. intros. unfold content, store. simpl. by rewrite lookup_insert_ne. Qed.

(** A handle positioned for appending to the file [n], which holds [d]. *)
Lemma Write_append tf w n d buf :
  quiet w → f_closed tf = false → f_name tf = n → files w !! n = Some d →
  f_pos tf = Z.of_nat (length d) →
  Write tf buf w
  = (store w n (d ++ buf), with_pos tf (Z.of_nat (length (d ++ buf))), None).
Proof.
  intros Hq Hc Hn Hf Hp.
  assert (content w tf = d) as Hct by (apply content_lookup; by rewrite Hn).
  rewrite Write_quiet_end by (done || by rewrite Hct).
  by rewrite Hct, Hn, length_app.
Qed.

Lemma entry_bytes_compacted e :
  entry_ok e →
  PutUint64 (int64 (Uint64 (PutUint64 (e_ts e))))
  ++ PutUint32 (uint32 (Z.of_nat (length (list_byte_of_string (e_key e)))))
  ++ PutUint32 (len (e_value e))
  ++ list_byte_of_string (e_key e) ++ list_byte_of_string (e_value e)
  = entry_bytes (compacted e).
Proof.
  intros [Hk Hv]. unfold entry_bytes, compacted, record_bytes. simpl.
  fold (len (e_value e)). pose proof (len_nonneg (e_value e)).
  by rewrite (uint32_small (len (e_value e))) by lia.
Qed.

Lemma Compact_range_cons tmp p es w bf tf done_ k off e :
  quiet w → tmp ≠ p →
  f_closed bf = false → f_name bf = p →
  files w !! p = Some (log_bytes es) → Forall entry_ok es →
  f_closed tf = false → f_name tf = tmp →
  files w !! tmp = Some (log_bytes done_) →
  latest_at es k off e →
  ∃ w1 bf1 tf1,
    (∀ rest newIndex,
       Compact_range tmp ((k, off) :: rest) bf tf newIndex w
       = Compact_range tmp rest bf1 tf1
           (<[k := log_size done_]> newIndex) w1) ∧
    quiet w1 ∧
    files w1 = <[tmp := log_bytes (done_ ++ [compacted e])]> (files w) ∧
    f_closed bf1 = false ∧ f_name bf1 = p ∧
    f_closed tf1 = false ∧ f_name tf1 = tmp.
Proof.
  intros Hq Hne Hcb Hnb Hfp Hok Hct Hnt Hft Hl.
  pose proof (latest_at_ok _ _ _ _ Hok Hl) as Hoke.
  destruct (latest_at_bytes _ _ _ _ Hl) as (pre & post & Hb & Hoff & _).
  destruct Hl as (_ & _ & _ & _ & Hk & _).
  pose proof (len_nonneg (e_key e)) as Hk0.
  pose proof (len_nonneg (e_value e)) as Hv0.
  pose proof Hoke as [Hkb Hvb].
  assert (Hcb' : content w bf = pre ++ entry_bytes e ++ post).
  { rewrite <- Hb. apply content_lookup. by rewrite Hnb. }
  pose proof (ahead_start bf w off pre _ Hcb Hcb' Hoff) as Ha.
  rewrite entry_bytes_parts in Ha by done. rewrite <- !app_assoc in Ha.
  set (bf0 := with_pos bf off) in *.
  (* the reads from the old log *)
  pose proof (binary_Read_ahead _ _ 8 _ _ Hq Ha (length_PutUint64 _)) as R1.
  eapply ahead_skip in Ha; [|apply f_equal, length_PutUint64].
  pose proof (binary_Read_ahead _ _ 4 _ _ Hq Ha (length_PutUint32 _)) as R2.
  eapply ahead_skip in Ha; [|apply f_equal, length_PutUint32].
  pose proof (binary_Read_ahead _ _ 4 _ _ Hq Ha (length_PutUint32 _)) as R3.
  eapply ahead_skip in Ha; [|apply f_equal, length_PutUint32].
  pose proof (Seek_ahead _ _ _ _ (len (e_key e)) Hq Ha eq_refl) as R4.
  apply (ahead_skip _ _ _ _ (len (e_key e))) in Ha; [|reflexivity].
  pose proof (ReadFull_ahead _ _ (Z.to_nat (len (e_value e))) _ _ Hq Ha) as R5.
  specialize (R5 ltac:(unfold len; lia)).
  (* the writes to the temporary file *)
  assert (Hctt : content w tf = log_bytes done_).
  { apply content_lookup. by rewrite Hnt. }
  pose proof (Seek_quiet_end tf w Hct Hq) as S1. rewrite Hctt in S1.
  set (tf0 := with_pos tf (Z.of_nat (length (log_bytes done_)))) in *.
  set (b1 := PutUint64 (int64 (Uint64 (PutUint64 (e_ts e))))).
  set (b2 := PutUint32 (uint32 (Z.of_nat (length (list_byte_of_string k))))).
  set (b3 := PutUint32 (len (e_value e))).
  set (b4 := list_byte_of_string k).
  set (b5 := list_byte_of_string (e_value e)).
  pose proof (Write_append tf0 w tmp _ b1 Hq Hct Hnt Hft eq_refl) as W1.
  set (d1 := log_bytes done_ ++ b1) in *.
  pose proof (Write_append (with_pos tf0 (Z.of_nat (length d1)))
                (store w tmp d1) tmp d1 b2 (quiet_store _ _ _ Hq) Hct Hnt
                (lookup_insert_eq _ _ _) eq_refl) as W2.
  set (d2 := d1 ++ b2) in *. rewrite store_store, with_pos_twice in W2.
  pose proof (Write_append (with_pos tf0 (Z.of_nat (length d2)))
                (store w tmp d2) tmp d2 b3 (quiet_store _ _ _ Hq) Hct Hnt
                (lookup_insert_eq _ _ _) eq_refl) as W3.
  set (d3 := d2 ++ b3) in *. rewrite store_store, with_pos_twice in W3.
  pose proof (Write_append (with_pos tf0 (Z.of_nat (length d3)))
                (store w tmp d3) tmp d3 b4 (quiet_store _ _ _ Hq) Hct Hnt
                (lookup_insert_eq _ _ _) eq_refl) as W4.
  set (d4 := d3 ++ b4) in *. rewrite store_store, with_pos_twice in W4.
  pose proof (Write_append (with_pos tf0 (Z.of_nat (length d4)))
                (store w tmp d4) tmp d4 b5 (quiet_store _ _ _ Hq) Hct Hnt
                (lookup_insert_eq _ _ _) eq_refl) as W5.
  set (d5 := d4 ++ b5) in *. rewrite store_store, with_pos_twice in W5.
  eexists (store w tmp d5), _, (with_pos tf0 (Z.of_nat (length d5))).
  split; [|split; [done|split]].
  - intros rest newIndex. cbn [Compact_range].
    rewrite Seek_quiet_start by (done || lia). fold bf0.
    rewrite R1. cbn match. rewrite R2. cbn match. rewrite R3. cbn match.
    rewrite !Uint32_PutUint32_eq by lia.
    rewrite R4. cbn match. rewrite R5. cbn match.
    rewrite S1. cbn match. fold b1 b2 b3 b4 b5.
    rewrite W1. cbn match. rewrite W2. cbn match. rewrite W3. cbn match.
    rewrite W4. cbn match. rewrite W5. cbn match.
    reflexivity.
  - unfold store. simpl. f_equal. unfold d5, d4, d3, d2, d1.
    rewrite log_bytes_app. simpl. rewrite app_nil_r, <- !app_assoc.
    f_equal. subst b1 b2 b3 b4 b5. subst k. by apply entry_bytes_compacted.
  - done.
Qed.

Lemma Compact_range_quiet tmp p es order : ∀ ces w bf tf done_ newIndex,
  quiet w → tmp ≠ p →
  f_closed bf = false → f_name bf = p →
  files w !! p = Some (log_bytes es) → Forall entry_ok es →
  f_closed tf = false → f_name tf = tmp →
  files w !! tmp = Some (log_bytes done_) →
  Forall2 (λ ko e, latest_at es ko.1 ko.2 e) order ces →
  ∃ w' bf' tf',
    Compact_range tmp order bf tf newIndex w
    = (w', bf', tf',
       assign_all newIndex
         (entry_offsets (log_size done_) (compacted <$> ces)), None) ∧
    quiet w' ∧
    files w' = <[tmp := log_bytes (done_ ++ (compacted <$> ces))]> (files w) ∧
    f_closed bf' = false ∧ f_name bf' = p ∧
    f_closed tf' = false ∧ f_name tf' = tmp.
Proof.
  induction order as [|[k off] order IH];
    intros ces w bf tf done_ newIndex Hq Hne Hcb Hnb Hfp Hok Hct Hnt Hft Hall.
  - apply Forall2_nil_inv_l in Hall as ->. exists w, bf, tf.
    cbn [Compact_range fmap list_fmap entry_offsets assign_all foldl].
    rewrite app_nil_r. repeat split; try done.
    by rewrite insert_id.
  - apply Forall2_cons_inv_l in Hall as (e & ces' & Hl & Hall & ->).
    simpl in Hl.
    destruct (Compact_range_cons tmp p es w bf tf done_ k off e)
      as (w1 & bf1 & tf1 & Hstep & Hq1 & Hfs1 & Hcb1 & Hnb1 & Hct1 & Hnt1);
      try done.
    destruct (IH ces' w1 bf1 tf1 (done_ ++ [compacted e])
                (<[k := log_size done_]> newIndex))
      as (w' & bf' & tf' & Hrun & Hq' & Hfs' & Hcb' & Hnb' & Hct' & Hnt');
      try done.
    { rewrite Hfs1. by rewrite lookup_insert_ne. }
    { rewrite Hfs1. by rewrite lookup_insert_eq. }
    exists w', bf', tf'. rewrite Hstep, Hrun.
    destruct Hl as (_ & _ & _ & _ & Hk & _).
    split; [|repeat split; try done].
    + cbn [fmap list_fmap entry_offsets assign_all foldl].
      rewrite log_size_app, log_size_cons. unfold log_size at 3. simpl.
      rewrite Z.add_0_r. subst k. done.
    + rewrite Hfs', Hfs1, insert_insert_eq. cbn [fmap list_fmap].
      by rewrite <- app_assoc.
Qed.

Lemma OpenFile_trunc_quiet p w :
  quiet w →
  OpenFile p true true false w = (store w p [], inr (mkFile p 0 false false)).
Proof.
  intros Hq. unfold OpenFile. rewrite next_fault_quiet by done.
  by destruct (files w !! p).
Qed.

Lemma entry_ok_compacted e : entry_ok e → entry_ok (compacted e).
Proof. done. Qed.

Lemma entry_size_compacted e : entry_size (compacted e) = entry_size e.
Proof. done. Qed.

(** What a successful [Compact] leaves behind, in terms of the records
    [ces] the index pointed at, in iteration order. *)
Lemma Compact_quiet w b es order ces :
  inv w b es → quiet w →
  Forall2 (λ ko e, latest_at es ko.1 ko.2 e) order ces →
  ∃ w',
    Compact b order w
    = (w', mkBitcask (mkFile (path b) 0 true false) (path b)
             (replay 0 (compacted <$> ces) ∅), None) ∧
    quiet w' ∧
    files w' = <[path b := log_bytes (compacted <$> ces)]>
                 (delete (tempPath b) (files w)).
Proof.
  intros [Hc Hn Hf Hok Hi] Hq Hall. unfold Compact.
  rewrite OpenFile_trunc_quiet by done.
  pose proof (tempPath_neq b) as Hne.
  destruct (Compact_range_quiet (tempPath b) (path b) es order ces
              (store w (tempPath b) []) (file b)
              (mkFile (tempPath b) 0 false false) [] ∅)
    as (w1 & bf1 & tf1 & Hrun & Hq1 & Hfs1 & Hcb1 & Hnb1 & Hct1 & Hnt1);
    try done.
  { unfold store. simpl. by rewrite lookup_insert_ne. }
  { unfold store. simpl. by rewrite lookup_insert_eq. }
  rewrite Hrun. rewrite !Close_quiet by done.
  unfold Rename. rewrite next_fault_quiet by done.
  rewrite Hfs1, lookup_insert_eq.
  unfold OpenFile. rewrite next_fault_quiet by done. cbn [files].
  rewrite lookup_insert_eq.
  eexists. split; [done|]. split; [done|]. cbn [files].
  unfold store. cbn [files]. rewrite insert_insert_eq, delete_insert_eq.
  done.
Qed.

Lemma Forall2_elem_l {A B} (R : A → B → Prop) l l' x :
  Forall2 R l l' → x ∈ l → ∃ y, y ∈ l' ∧ R x y.
Proof.
  induction 1 as [|a b l l' Hab _ IH]; intros Hx.
  - by apply not_elem_of_nil in Hx.
  - apply elem_of_cons in Hx as [->|Hx].
    + exists b. split; [left|done].
    + destruct (IH Hx) as (y & Hy & HR). exists y. split; [by right|done].
Qed.

Lemma Forall2_elem_r {A B} (R : A → B → Prop) l l' y :
  Forall2 R l l' → y ∈ l' → ∃ x, x ∈ l ∧ R x y.
Proof.
  induction 1 as [|a b l l' Hab _ IH]; intros Hy.
  - by apply not_elem_of_nil in Hy.
  - apply elem_of_cons in Hy as [->|Hy].
    + exists a. split; [left|done].
    + destruct (IH Hy) as (x & Hx & HR). exists x. split; [by right|done].
Qed.

Lemma Forall_exists_Forall2 {A B} (R : A → B → Prop) l :
  (∀ x, x ∈ l → ∃ y, R x y) → ∃ l', Forall2 R l l'.
Proof.
  induction l as [|a l IH]; intros H; [by exists []|].
  destruct (H a) as [b Hb]; [left|].
  destruct IH as [l' Hl']; [intros x Hx; apply H; by right|].
  exists (b :: l'). by constructor.
Qed.

(** The records an index satisfying the invariant points at. *)
Lemma inv_pointed w b es order :
  inv w b es → range_order (index b) order →
  ∃ ces, Forall2 (λ ko e, latest_at es ko.1 ko.2 e) order ces.
Proof.
  intros Hinv Hord. apply Forall_exists_Forall2. intros [k off] Hin.
  unfold range_order in Hord. rewrite Hord in Hin.
  apply elem_of_map_to_list in Hin. by apply (inv_index _ _ _ Hinv).
Qed.

Lemma elem_of_compacted e' (ces : list Entry) :
  e' ∈ compacted <$> ces → ∃ e, e ∈ ces ∧ e' = compacted e.
Proof.
  induction ces as [|c ces IH]; intros H.
  - by apply not_elem_of_nil in H.
  - cbn [fmap list_fmap] in H. apply elem_of_cons in H as [->|H].
    + exists c. split; [left|done].
    + destruct (IH H) as (e & He & ->). exists e. split; [by right|done].
Qed.

Lemma compacted_elem_of e (ces : list Entry) : e ∈ ces → compacted e ∈ compacted <$> ces.
Proof.
  induction ces as [|c ces IH]; intros H.
  - by apply not_elem_of_nil in H.
  - cbn [fmap list_fmap]. apply elem_of_cons in H as [->|H]; [left|right; auto].
Qed.

Lemma latest_at_elem es k off e : latest_at es k off e → e ∈ es ∧ e_key e = k.
Proof.
  intros (pre & post & -> & _ & Hk & _). split; [|done].
  apply elem_of_app. right. left.
Qed.

(** The compacted log has a record for [k] exactly when the old index had
    [k], and that record carries the value of the record the old index
    pointed at. *)
Lemma compacted_latest w b es order ces k off' e' :
  inv w b es → range_order (index b) order →
  Forall2 (λ ko e, latest_at es ko.1 ko.2 e) order ces →
  latest_at (compacted <$> ces) k off' e' →
  ∃ off e, index b !! k = Some off ∧ latest_at es k off e ∧
           e' = compacted e.
Proof.
  intros Hinv Hord Hall Hl.
  apply latest_at_elem in Hl as [Hin Hk].
  apply elem_of_compacted in Hin as (e & Hin & ->).
  destruct (Forall2_elem_r _ _ _ _ Hall Hin) as ([k2 off2] & Hko & Hl2).
  simpl in Hl2. pose proof (latest_at_elem _ _ _ _ Hl2) as [_ Hk2].
  simpl in Hk. assert (k2 = k) as -> by congruence.
  unfold range_order in Hord. rewrite Hord in Hko.
  apply elem_of_map_to_list in Hko. by exists off2, e.
Qed.

Lemma compacted_indexed w b es order ces k off e :
  inv w b es → range_order (index b) order →
  Forall2 (λ ko e, latest_at es ko.1 ko.2 e) order ces →
  index b !! k = Some off → latest_at es k off e →
  ∃ off', replay 0 (compacted <$> ces) ∅ !! k = Some off' ∧
          latest_at (compacted <$> ces) k off' (compacted e).
Proof.
  intros Hinv Hord Hall Hk Hl.
  assert (Hko : (k, off) ∈ order).
  { unfold range_order in Hord. rewrite Hord. by apply elem_of_map_to_list. }
  destruct (Forall2_elem_l _ _ _ _ Hall Hko) as (e0 & Hin & Hl0).
  simpl in Hl0. destruct (latest_at_fun _ _ _ _ _ _ Hl Hl0) as [_ <-].
  apply compacted_elem_of in Hin.
  pose proof (latest_at_elem _ _ _ _ Hl) as [_ Hke].
  destruct (replay 0 (compacted <$> ces) ∅ !! k) as [off'|] eqn:Hr.
  - exists off'. split; [done|].
    apply replay_latest in Hr as [[e' Hl']|[Hr _]]; [|done].
    destruct (compacted_latest _ _ _ _ _ _ _ _ Hinv Hord Hall Hl')
      as (off2 & e2 & Hk2 & Hl2 & ->).
    assert (off2 = off) as -> by congruence.
    by destruct (latest_at_fun _ _ _ _ _ _ Hl Hl2) as [_ <-].
  - exfalso. unfold replay in Hr. rewrite assign_all_lookup in Hr.
    destruct (last_assign _ k) eqn:Hla; [done|].
    apply last_assign_None in Hla.
    rewrite Forall_forall in Hla. by apply (Hla _ Hin).
Qed.

Lemma Compact_inv w b es order :
  inv w b es → quiet w → range_order (index b) order →
  ∃ w' b' ces,
    Compact b order w = (w', b', None) ∧ quiet w' ∧
    Forall2 (λ ko e, latest_at es ko.1 ko.2 e) order ces ∧
    inv w' b' (compacted <$> ces) ∧ path b' = path b ∧
    index b' = replay 0 (compacted <$> ces) ∅.
Proof.
  intros Hinv Hq Hord.
  destruct (inv_pointed _ _ _ _ Hinv Hord) as [ces Hall].
  destruct (Compact_quiet _ _ _ _ _ Hinv Hq Hall) as (w' & Hrun & Hq' & Hfs).
  eexists w', _, ces. split; [exact Hrun|]. split; [done|]. split; [done|].
  split; [|done].
  split; cbn [file path index f_closed f_name]; try done.
  - rewrite Hfs. by rewrite lookup_insert_eq.
  - apply Forall_forall. intros e' Hin.
    apply elem_of_compacted in Hin as (e & Hin & ->).
    destruct (Forall2_elem_r _ _ _ _ Hall Hin) as (ko & _ & Hl).
    apply entry_ok_compacted. eapply latest_at_ok; [|exact Hl].
    apply (inv_ok _ _ _ Hinv).
  - intros k off Hk. by apply replay_latest in Hk as [Hk|[Hk _]].
Qed.

(** *** Sizes *)

Lemma Keys_fst b order : Keys b order = order.*1.
Proof.
  unfold Keys.
  assert (H : ∀ acc, foldl (λ keys (kv : string * Z), keys ++ [kv.1]) acc order
                     = acc ++ order.*1).
  { induction order as [|kv order IH]; intros acc; simpl.
    - by rewrite app_nil_r.
    - rewrite IH. by rewrite <- app_assoc. }
  apply (H []).
Qed.

Lemma last_entry_key es k e : last_entry es k = Some e → e_key e = k.
Proof.
  induction es as [|x es IH]; [done|]. simpl.
  destruct (last_entry es k); [intros [= ->]; by apply IH|].
  destruct (decide (e_key x = k)); [|done]. by intros [= <-].
Qed.

Lemma last_entry_filter es k k' :
  k' ≠ k →
  last_entry (filter (λ e, e_key e ≠ k) es) k' = last_entry es k'.
Proof.
  intros Hne. induction es as [|e es IH]; [done|].
  destruct (decide (e_key e = k)) as [Hk|Hk].
  - rewrite filter_cons_False by (intros H; by apply H).
    rewrite IH. simpl. destruct (last_entry es k'); [done|].
    destruct (decide (e_key e = k')); [congruence|done].
  - rewrite filter_cons_True by done. simpl. by rewrite IH.
Qed.

Lemma latest_size_filter es k :
  latest_size es k + log_size (filter (λ e, e_key e ≠ k) es) ≤ log_size es.
Proof.
  unfold latest_size. induction es as [|e es IH]; [done|].
  pose proof (entry_size_pos e).
  destruct (decide (e_key e = k)) as [Hk|Hk].
  - rewrite filter_cons_False by (intros H'; by apply H').
    rewrite log_size_cons. simpl.
    destruct (last_entry es k); [lia|].
    destruct (decide (e_key e = k)); [lia|done].
  - rewrite filter_cons_True by done. rewrite !log_size_cons. simpl.
    destruct (last_entry es k); [lia|].
    destruct (decide (e_key e = k)); [done|lia].
Qed.

Lemma Zsum_ext {A} (f g : A → Z) l :
  (∀ x, x ∈ l → f x = g x) → Zsum f l = Zsum g l.
Proof.
  induction l as [|a l IH]; intros H; [done|]. simpl.
  rewrite (H a) by left. rewrite IH; [done|]. intros x Hx. apply H. by right.
Qed.

(** The latest records of distinct keys are distinct records of the log,
    so together they are no larger than the log. *)
Lemma sum_latest_le keys : ∀ es,
  NoDup keys → Zsum (latest_size es) keys ≤ log_size es.
Proof.
  induction keys as [|k keys IH]; intros es Hnd.
  - simpl. apply log_size_nonneg.
  - apply NoDup_cons in Hnd as [Hk Hnd]. simpl.
    pose proof (latest_size_filter es k) as Hf.
    specialize (IH (filter (λ e, e_key e ≠ k) es) Hnd).
    rewrite (Zsum_ext (latest_size es)
               (latest_size (filter (λ e, e_key e ≠ k) es))); [lia|].
    intros k' Hk'. unfold latest_size. rewrite last_entry_filter; [done|].
    intros ->. done.
Qed.

Lemma Zsum_cons {A} (f : A → Z) x l : Zsum f (x :: l) = f x + Zsum f l.
Proof. done. Qed.

Lemma compacted_size es order ces :
  Forall2 (λ ko e, latest_at es ko.1 ko.2 e) order ces →
  log_size (compacted <$> ces)
  = Zsum (λ ko : string * Z, 16 + len ko.1 + len (latest_value es ko.1)) order
  ∧ log_size (compacted <$> ces) = Zsum (latest_size es) order.*1.
Proof.
  induction 1 as [|[k off] e order ces Hl _ [IH1 IH2]]; [done|].
  rewrite !fmap_cons, !Zsum_cons, log_size_cons, entry_size_compacted.
  rewrite <- IH1, <- IH2.
  apply latest_at_last in Hl as [Hl _]. cbn [fst] in *.
  pose proof (last_entry_key _ _ _ Hl) as Hk.
  unfold latest_value, latest_size. rewrite Hl.
  unfold entry_size. by rewrite Hk.
Qed.

Lemma compacted_smaller b es order ces :
  range_order (index b) order →
  Forall2 (λ ko e, latest_at es ko.1 ko.2 e) order ces →
  log_size (compacted <$> ces) ≤ log_size es.
Proof.
  intros Hord Hall.
  destruct (compacted_size _ _ _ Hall) as [_ ->].
  apply sum_latest_le. unfold range_order in Hord. rewrite Hord.
  apply NoDup_fst_map_to_list.
Qed.

Lemma Keys_range b order :
  range_order (index b) order →
  NoDup (Keys b order) ∧ ∀ k, k ∈ Keys b order ↔ is_Some (index b !! k).
Proof.
  intros Hord. rewrite Keys_fst. unfold range_order in Hord. split.
  - rewrite Hord. apply NoDup_fst_map_to_list.
  - intros k. rewrite list_elem_of_fmap. split.
    + intros ([k' o] & -> & Hin). rewrite Hord in Hin.
      apply elem_of_map_to_list in Hin. by exists o.
    + intros [o Ho]. exists (k, o). split; [done|].
      rewrite Hord. by apply elem_of_map_to_list.
Qed.


Lemma ex_inv : inv ex_world ex_db ex_entries.
Proof.
  split; try done.
  - repeat constructor.
  - intros k off H. unfold ex_db in H. cbn [index] in H.
    destruct (decide (k = "a"%string)) as [->|Ha].
    + rewrite lookup_insert_eq in H. injection H as <-.
      exists (mkEntry 3 "a" "zz"),
        [mkEntry 1 "a" "x"; mkEntry 2 "b" "y"], [].
      by repeat split.
    + rewrite lookup_insert_ne in H by done.
      destruct (decide (k = "b"%string)) as [->|Hb].
      * rewrite lookup_insert_eq in H. injection H as <-.
        exists (mkEntry 2 "b" "y"), [mkEntry 1 "a" "x"], [mkEntry 3 "a" "zz"].
        repeat split. by repeat constructor.
      * by rewrite lookup_insert_ne in H.
Qed.


(** *** Successful calls in a world with faults pending *)








Lemma inv_files w w' b es : files w' = files w → inv w b es → inv w' b es.
Proof. intros Hf [Hc Hn Hfl Hok Hi]. split; try done. by rewrite Hf. Qed.


(** *** The index invariant *)



(** ** Where the code departs from its specification *)

(** *** [Load] on a log whose last record is cut short *)

Lemma Load_loop_prefix es : ∀ f idx w fuel rest,
  quiet w → ahead f w (log_bytes es ++ rest) → Forall entry_ok es →
  (length es ≤ fuel)%nat →
  Load_loop fuel f idx w
  = Load_loop (fuel - length es) (with_pos f (f_pos f + log_size es))
      (replay (f_pos f) es idx) w
  ∧ ahead (with_pos f (f_pos f + log_size es)) w rest.
Proof.
  induction es as [|e es IH]; intros f idx w fuel rest Hq Ha Hok Hfuel.
  - unfold log_size. simpl. rewrite Z.add_0_r, with_pos_same, Nat.sub_0_r.
    done.
  - destruct fuel as [|fuel]; [simpl in Hfuel; lia|].
    apply Forall_cons in Hok as [Hoke Hok].
    cbn [log_bytes] in Ha. rewrite <- app_assoc in Ha.
    destruct (Load_iter_entry f w e _ Hq Ha Hoke) as [Hit Ha'].
    cbn [Load_loop]. rewrite Hit.
    destruct (IH _ (<[e_key e := f_pos f]> idx) w fuel rest Hq Ha' Hok)
      as [Hrun Ha'']; [simpl in Hfuel; lia|].
    rewrite Hrun. cbn [f_pos with_pos] in *. rewrite with_pos_twice in *.
    rewrite log_size_cons, Z.add_assoc. done.
Qed.

Lemma ReadFull_short f w n rest :
  quiet w → ahead f w rest → (length rest < n)%nat →
  ReadFull f n w
  = (w, with_pos f (f_pos f + Z.of_nat (length rest)),
     (rest ++ zeros (n - length rest),
      Some (match rest with [] => EOF | _ => ErrUnexpectedEOF end))).
Proof.
  intros Hq (Hc & Hp & Hd) Hn. unfold ReadFull.
  destruct n as [|n]; [lia|].
  rewrite Hc, next_fault_quiet, Hd by done.
  rewrite take_ge by lia.
  destruct (Nat.eqb_spec (length rest) (S n)); [lia|done].
Qed.

Lemma binary_Read_short f w n rest :
  quiet w → ahead f w rest → (length rest < n)%nat →
  binary_Read f n w
  = (w, with_pos f (f_pos f + Z.of_nat (length rest)),
     inl (match rest with [] => EOF | _ => ErrUnexpectedEOF end)).
Proof. intros. unfold binary_Read. by rewrite (ReadFull_short _ _ _ rest). Qed.

Lemma eof_error_short (rest : list byte) :
  eof_error (match rest with [] => EOF | _ => ErrUnexpectedEOF end).
Proof. destruct rest; [by left|by right]. Qed.

(** A record cut inside its header or its key stops the scan with an
    error. *)
Lemma Load_iter_torn f w e n :
  quiet w → ahead f w (take n (entry_bytes e)) → entry_ok e →
  (0 < n < 16 + length (list_byte_of_string (e_key e)))%nat →
  ∃ f' err, Load_iter f w = (w, f', Return err) ∧ eof_error err.
Proof.
  intros Hq Ha Hok Hn.
  pose proof (len_nonneg (e_key e)) as Hk0.
  pose proof (len_nonneg (e_value e)) as Hv0.
  pose proof Hok as [Hk Hv].
  rewrite entry_bytes_parts in Ha by done.
  pose proof Ha as (Hc & Hp & _).
  unfold Load_iter. rewrite Seek_quiet_cur by (done || lia).
  rewrite Z.add_0_r, with_pos_same.
  destruct (decide (n < 8)%nat) as [H8|H8].
  { rewrite take_app_le in Ha by (rewrite length_PutUint64; lia).
    rewrite (binary_Read_short _ _ _ _ Hq Ha)
      by (rewrite length_take, length_PutUint64; lia).
    destruct (take n (PutUint64 (e_ts e))) eqn:Ht.
    - apply (f_equal length) in Ht.
      rewrite length_take, length_PutUint64 in Ht. simpl in Ht. lia.
    - eexists _, _. split; [done|]. by right. }
  rewrite take_app_ge in Ha by (rewrite length_PutUint64; lia).
  rewrite length_PutUint64 in Ha.
  erewrite binary_Read_ahead; [|done|exact Ha|apply length_PutUint64].
  eapply ahead_skip in Ha; [|apply f_equal, length_PutUint64].
  destruct (decide (n < 12)%nat) as [H12|H12].
  { rewrite take_app_le in Ha by (rewrite length_PutUint32; lia).
    rewrite (binary_Read_short _ _ _ _ Hq Ha)
      by (rewrite length_take, length_PutUint32; lia).
    eexists _, _. split; [done|]. apply eof_error_short. }
  rewrite take_app_ge in Ha by (rewrite length_PutUint32; lia).
  rewrite length_PutUint32 in Ha.
  erewrite binary_Read_ahead; [|done|exact Ha|apply length_PutUint32].
  eapply ahead_skip in Ha; [|apply f_equal, length_PutUint32].
  destruct (decide (n < 16)%nat) as [H16|H16].
  { rewrite take_app_le in Ha by (rewrite length_PutUint32; lia).
    rewrite (binary_Read_short _ _ _ _ Hq Ha)
      by (rewrite length_take, length_PutUint32; lia).
    eexists _, _. split; [done|]. apply eof_error_short. }
  rewrite take_app_ge in Ha by (rewrite length_PutUint32; lia).
  rewrite length_PutUint32 in Ha.
  erewrite binary_Read_ahead; [|done|exact Ha|apply length_PutUint32].
  eapply ahead_skip in Ha; [|apply f_equal, length_PutUint32].
  cbn match. rewrite !Uint32_PutUint32_eq by lia.
  rewrite take_app_le in Ha by lia.
  rewrite (ReadFull_short _ _ _ _ Hq Ha)
    by (rewrite length_take; unfold len; lia).
  eexists _, _. split; [done|]. apply eof_error_short.
Qed.

(** A record cut inside its value is taken for a complete one: the value
    is skipped with [Seek], which does not look at the file. *)
Lemma Load_iter_torn_value f w e n :
  quiet w → ahead f w (take n (entry_bytes e)) → entry_ok e →
  (16 + length (list_byte_of_string (e_key e)) ≤ n)%nat →
  Load_iter f w
  = (w, with_pos f (f_pos f + entry_size e), Continue (e_key e) (f_pos f))
  ∧ ahead (with_pos f (f_pos f + entry_size e)) w [].
Proof.
  intros Hq Ha Hok Hn.
  pose proof (len_nonneg (e_key e)) as Hk0.
  pose proof (len_nonneg (e_value e)) as Hv0.
  pose proof Hok as [Hk Hv].
  pose proof Ha as (Hc & Hp & Hd).
  split.
  - rewrite entry_bytes_parts in Ha by done.
    unfold Load_iter. rewrite Seek_quiet_cur by (done || lia).
    rewrite Z.add_0_r, with_pos_same.
    rewrite take_app_ge in Ha by (rewrite length_PutUint64; lia).
    rewrite length_PutUint64 in Ha.
    erewrite binary_Read_ahead; [|done|exact Ha|apply length_PutUint64].
    eapply ahead_skip in Ha; [|apply f_equal, length_PutUint64].
    rewrite take_app_ge in Ha by (rewrite length_PutUint32; lia).
    rewrite length_PutUint32 in Ha.
    erewrite binary_Read_ahead; [|done|exact Ha|apply length_PutUint32].
    eapply ahead_skip in Ha; [|apply f_equal, length_PutUint32].
    rewrite take_app_ge in Ha by (rewrite length_PutUint32; lia).
    rewrite length_PutUint32 in Ha.
    erewrite binary_Read_ahead; [|done|exact Ha|apply length_PutUint32].
    eapply ahead_skip in Ha; [|apply f_equal, length_PutUint32].
    cbn match. rewrite !Uint32_PutUint32_eq by lia.
    rewrite take_app_ge in Ha by lia.
    replace (Z.to_nat (len (e_key e)))
      with (length (list_byte_of_string (e_key e))) by (unfold len; lia).
    erewrite ReadFull_ahead; [|done|exact Ha|done].
    destruct Ha as (Hc' & Hp' & _).
    rewrite Seek_quiet_cur by (done || cbn [f_pos with_pos] in *; lia).
    rewrite string_of_list_byte_of_string.
    cbn [f_pos with_pos]. unfold entry_size, len. do 3 f_equal. lia.
  - split; [done|]. split; [cbn [f_pos with_pos]; unfold entry_size; lia|].
    cbn [f_pos with_pos]. rewrite content_with_pos.
    apply (f_equal length) in Hd. rewrite length_drop, length_take in Hd.
    pose proof (length_entry_bytes e) as Hlen.
    apply drop_ge. unfold entry_size in *. unfold len in *. lia.
Qed.

(** [Load] on a well-formed log followed by a record cut inside its header
    or key: the call fails with an end-of-file error and the index holds
    the records before the cut, not the partial one. *)
Lemma Load_detects_torn_header_or_key b w es e n :
  f_closed (file b) = false → quiet w →
  content w (file b) = log_bytes es ++ take n (entry_bytes e) →
  Forall entry_ok es → entry_ok e →
  (0 < n < 16 + length (list_byte_of_string (e_key e)))%nat →
  ∃ f' err,
    Load b w = Some (w, mkBitcask f' (path b) (replay 0 es (index b)),
                     Some err) ∧
    eof_error err.
Proof.
  intros Hc Hq Hd Hok Hoke Hn. unfold Load.
  rewrite Seek_quiet_start by (done || lia).
  rewrite content_with_pos.
  assert (Ha : ahead (with_pos (file b) 0) w
                 (log_bytes es ++ take n (entry_bytes e)))
    by (by apply (ahead_start _ _ 0 [])).
  pose proof (length_le_log_size es) as Hlen. unfold log_size in Hlen.
  destruct (Load_loop_prefix es _ (index b) w
              (S (length (content w (file b)))) _ Hq Ha Hok) as [Hrun Ha'].
  { rewrite Hd, length_app. lia. }
  rewrite Hrun. cbn [f_pos with_pos] in *. rewrite with_pos_twice in *.
  destruct (Load_iter_torn _ _ _ _ Hq Ha' Hoke Hn) as (f' & err & Hit & Herr).
  destruct (S (length (content w (file b))) - length es)%nat as [|fuel] eqn:Hf.
  { rewrite Hd, length_app in Hf. lia. }
  cbn [Load_loop]. rewrite Hit. by exists f', err.
Qed.

(** [Load] on a well-formed log followed by a record cut inside its value
    returns no error and indexes the partial record like a complete one. *)
Lemma Load_indexes_torn_value b w es e n :
  f_closed (file b) = false → quiet w →
  content w (file b) = log_bytes es ++ take n (entry_bytes e) →
  Forall entry_ok es → entry_ok e →
  (16 + length (list_byte_of_string (e_key e)) ≤ n)%nat →
  ∃ f',
    Load b w = Some (w, mkBitcask f' (path b)
                          (replay 0 (es ++ [e]) (index b)), None) ∧
    replay 0 (es ++ [e]) (index b) !! e_key e = Some (log_size es).
Proof.
  intros Hc Hq Hd Hok Hoke Hn. unfold Load.
  rewrite Seek_quiet_start by (done || lia).
  rewrite content_with_pos.
  assert (Ha : ahead (with_pos (file b) 0) w
                 (log_bytes es ++ take n (entry_bytes e)))
    by (by apply (ahead_start _ _ 0 [])).
  pose proof (length_le_log_size es) as Hlen. unfold log_size in Hlen.
  destruct (Load_loop_prefix es _ (index b) w
              (S (length (content w (file b)))) _ Hq Ha Hok) as [Hrun Ha'].
  { rewrite Hd, length_app. lia. }
  rewrite Hrun. cbn [f_pos with_pos] in *. rewrite with_pos_twice in *.
  destruct (Load_iter_torn_value _ _ _ _ Hq Ha' Hoke Hn) as [Hit Ha''].
  pose proof (length_entry_bytes e) as Hsz.
  destruct (S (length (content w (file b))) - length es)%nat
    as [|[|fuel]] eqn:Hf.
  { rewrite Hd, length_app in Hf. lia. }
  { rewrite Hd, length_app, length_take in Hf.
    pose proof (entry_size_pos e). lia. }
  cbn [Load_loop]. rewrite Hit, Load_iter_eof by done.
  cbn [f_pos with_pos]. rewrite Z.add_0_l.
  eexists. split.
  - rewrite replay_app. unfold replay at 1.
    cbn [entry_offsets assign_all foldl fst snd]. by rewrite Z.add_0_l.
  - rewrite replay_app. unfold replay at 1.
    cbn [entry_offsets assign_all foldl fst snd].
    by rewrite lookup_insert_eq, Z.add_0_l.
Qed.

(** C3 (torn record).  [Load] skips the value with [Seek], and seeking past
    the end of a file succeeds: on a log that ends inside the value of its
    last record [Load] returns no error and the torn record is indexed; the
    [Get] that follows fails with [EOF]. *)
Theorem Load_accepts_torn_value :
  Open "db" torn_world = (torn_world, inr fresh_db) ∧
  Load fresh_db torn_world
  = Some (torn_world,
          mkBitcask (mkFile "db" 22 false false) "db" {["k" := 0]}, None) ∧
  Get (mkBitcask (mkFile "db" 22 false false) "db" {["k" := 0]}) "k"
    torn_world
  = (torn_world, (EmptyString, Some EOF)).
Proof. repeat split; vm_compute; reflexivity. Qed.

(** *** The checked failure paths of [Compact] *)

Lemma same_but_refl p w : same_but p w w.
Proof. done. Qed.

Lemma same_but_trans p w1 w2 w3 :
  same_but p w1 w2 → same_but p w2 w3 → same_but p w1 w3.
Proof. intros H1 H2 q Hq. by rewrite H2, H1. Qed.

Lemma same_but_files p w w' : files w' = files w → same_but p w w'.
Proof. intros H q _. by rewrite H. Qed.

Lemma Write_other f buf w w' f' r :
  Write f buf w = (w', f', r) →
  same_handle f f' ∧ same_but (f_name f) w w'.
Proof.
  unfold Write. intros H.
  destruct (f_closed f); [by simplify_eq|].
  pose proof (next_fault_files w) as Hf.
  destruct (next_fault w) as [[x|] w1]; simpl in Hf; simplify_eq;
    (split; [done|]); intros q Hq; unfold store; simpl;
    by rewrite lookup_insert_ne, Hf.
Qed.

Lemma Close_frame f w w' f' r :
  os.Close f w = (w', f', r) → f_name f' = f_name f ∧ files w' = files w.
Proof.
  unfold os.Close. intros H.
  destruct (f_closed f); [by simplify_eq|].
  pose proof (next_fault_files w) as Hf.
  destruct (next_fault w) as [flt w1]. by simplify_eq.
Qed.

Lemma Remove_other p w w' r : Remove p w = (w', r) → same_but p w w'.
Proof.
  unfold Remove. intros H.
  pose proof (next_fault_files w) as Hf.
  destruct (next_fault w) as [[x|] w1]; simpl in Hf;
    [simplify_eq; by apply same_but_files|].
  destruct (files w1 !! p); simplify_eq; [|by apply same_but_files].
  intros q Hq. simpl. by rewrite lookup_delete_ne, Hf.
Qed.

Lemma OpenFile_other p c t a w w' r :
  OpenFile p c t a w = (w', r) → same_but p w w'.
Proof.
  unfold OpenFile. intros H.
  pose proof (next_fault_files w) as Hf.
  destruct (next_fault w) as [[x|] w1]; simpl in Hf;
    [simplify_eq; by apply same_but_files|].
  assert (Hst : same_but p w (store w1 p [])).
  { intros q Hq. unfold store. simpl. by rewrite lookup_insert_ne, Hf. }
  destruct (files w1 !! p); [destruct t|destruct c]; simplify_eq;
    first [done | by apply same_but_files].
Qed.

Lemma OpenFile_name p c t a w w' f :
  OpenFile p c t a w = (w', inr f) → f_name f = p.
Proof.
  unfold OpenFile. intros H.
  destruct (next_fault w) as [[x|] w1]; [done|].
  destruct (files w1 !! p); [|destruct c]; by simplify_eq.
Qed.

(** The loop of [Compact] writes to the temporary file only. *)
Lemma Compact_range_other tmp order : ∀ bf tf ni w w' bf' tf' ni' r,
  f_name tf = tmp →
  Compact_range tmp order bf tf ni w = (w', bf', tf', ni', r) →
  same_but tmp w w'.
Proof.
  induction order as [|[k off] order IH];
    intros bf tf ni w w' bf' tf' ni' r Hn H.
  - cbn [Compact_range] in H. by simplify_eq.
  - cbn [Compact_range] in H.
    destruct (Seek bf off SeekStart w) as [[w1 bf1] r1] eqn:E1.
    apply Seek_frame in E1 as (_ & F1 & _).
    destruct r1 as [e|p].
    { destruct (os.Close tf w1) as [[w2 tf2] r2] eqn:E2.
      apply Close_frame in E2 as (_ & F2).
      destruct (Remove tmp w2) as [w3 r3] eqn:E3.
      apply Remove_other in E3. simplify_eq.
      eapply same_but_trans; [|exact E3].
      apply same_but_files. congruence. }
    destruct (binary_Read bf1 8 w1) as [[w2 bf2] r2] eqn:E2.
    apply binary_Read_frame in E2 as (_ & F2 & _).
    destruct (binary_Read bf2 4 w2) as [[w3 bf3] r3] eqn:E3.
    apply binary_Read_frame in E3 as (_ & F3 & _).
    destruct (binary_Read bf3 4 w3) as [[w4 bf4] r4] eqn:E4.
    apply binary_Read_frame in E4 as (_ & F4 & _).
    destruct (Seek bf4 _ SeekCurrent w4) as [[w5 bf5] r5] eqn:E5.
    apply Seek_frame in E5 as (_ & F5 & _).
    destruct (ReadFull bf5 _ w5) as [[w6 bf6] [vb r6]] eqn:E6.
    apply ReadFull_frame in E6 as (_ & F6 & _).
    destruct (Seek tf 0 SeekEnd w6) as [[w7 tf7] r7] eqn:E7.
    apply Seek_frame in E7 as ((N7 & _) & F7 & _).
    destruct (Write tf7 _ w7) as [[w8 tf8] r8] eqn:E8.
    apply Write_other in E8 as ((N8 & _) & F8).
    destruct (Write tf8 _ w8) as [[w9 tf9] r9] eqn:E9.
    apply Write_other in E9 as ((N9 & _) & F9).
    destruct (Write tf9 _ w9) as [[w10 tf10] r10] eqn:E10.
    apply Write_other in E10 as ((N10 & _) & F10).
    destruct (Write tf10 _ w10) as [[w11 tf11] r11] eqn:E11.
    apply Write_other in E11 as ((N11 & _) & F11).
    destruct (Write tf11 _ w11) as [[w12 tf12] r12] eqn:E12.
    apply Write_other in E12 as ((N12 & _) & F12).
    apply IH in H; [|congruence].
    rewrite N7, Hn in F8. rewrite N8, N7, Hn in F9.
    rewrite N9, N8, N7, Hn in F10. rewrite N10, N9, N8, N7, Hn in F11.
    rewrite N11, N10, N9, N8, N7, Hn in F12.
    assert (same_but tmp w w7) by (apply same_but_files; congruence).
    repeat (eapply same_but_trans; [|eassumption]). done.
Qed.

(** Every failed [Compact] leaves the index alone. *)
Lemma Compact_error_keeps_index b order w w' b' e :
  Compact b order w = (w', b', Some e) →
  index b' = index b ∧ path b' = path b.
Proof.
  unfold Compact. intros H.
  destruct (OpenFile (tempPath b) true true false w) as [w1 [e1|tf]];
    [by simplify_eq|].
  destruct (Compact_range _ order (file b) tf ∅ w1)
    as [[[[w2 bf] tf'] ni] [e2|]]; [by simplify_eq|].
  destruct (os.Close bf w2) as [[w3 bf3] r3].
  destruct (os.Close tf' w3) as [[w4 tf4] r4].
  destruct (Rename _ _ w4) as [w5 [e5|]]; [by simplify_eq|].
  destruct (OpenFile (path b) true false true w5) as [w6 [e6|nf]];
    by simplify_eq.
Qed.

(** The two failures [Compact] checks before the rename -- opening the
    temporary file and the first [Seek] of a turn -- return the error and
    leave the log file as it was. *)
Lemma Compact_checked_failure b order w :
  (∀ w1 e, OpenFile (tempPath b) true true false w = (w1, inl e) →
     Compact b order w = (w1, b, Some e) ∧
     files w1 !! path b = files w !! path b)
  ∧ (∀ w1 tf w2 bf tf' ni e,
       OpenFile (tempPath b) true true false w = (w1, inr tf) →
       Compact_range (tempPath b) order (file b) tf ∅ w1
       = (w2, bf, tf', ni, Some e) →
       Compact b order w = (w2, mkBitcask bf (path b) (index b), Some e) ∧
       files w2 !! path b = files w !! path b).
Proof.
  pose proof (tempPath_neq b) as Hne. split.
  - intros w1 e Hopen. unfold Compact. rewrite Hopen. split; [done|].
    apply OpenFile_other in Hopen. by apply Hopen.
  - intros w1 tf w2 bf tf' ni e Hopen Hrun. unfold Compact.
    rewrite Hopen, Hrun. split; [done|].
    pose proof (OpenFile_name _ _ _ _ _ _ _ Hopen) as Hn.
    apply OpenFile_other in Hopen.
    apply Compact_range_other in Hrun; [|done].
    rewrite (Hrun (path b)), (Hopen (path b)); done.
Qed.

(** C4 (failure inside [Compact]).  Only the first [Seek] of each turn of
    the loop is checked.  When the write of a value to the temporary file
    fails, [Compact] still returns no error and renames the incomplete
    temporary file over the log: the log no longer holds the value and
    [Get] of the key fails with [EOF]. *)
Theorem Compact_ignores_failed_write :
  Compact one_key_db [("k"%string, 0)] full_disk_world
  = (mkWorld {["db" := take 17 (record_bytes 1 (list_byte_of_string "k")
                                  (list_byte_of_string "hello"))]} [],
     mkBitcask (mkFile "db" 0 true false) "db" {["k" := 0]}, None) ∧
  Get (mkBitcask (mkFile "db" 0 true false) "db" {["k" := 0]}) "k"
    (mkWorld {["db" := take 17 (record_bytes 1 (list_byte_of_string "k")
                                  (list_byte_of_string "hello"))]} [])
  = (mkWorld {["db" := take 17 (record_bytes 1 (list_byte_of_string "k")
                                  (list_byte_of_string "hello"))]} [],
     (EmptyString, Some EOF)).
Proof. split; vm_compute; reflexivity. Qed.

(** The same without any injected fault: compacting the torn log that
    [Load] accepted drops the short read of the value and writes the two
    bytes that were there followed by three zero bytes. *)
Lemma Compact_pads_torn_value :
  Compact one_key_db [("k"%string, 0)] torn_world
  = (mkWorld {["db" := take 17 torn_log
                       ++ list_byte_of_string "he" ++ [x00; x00; x00]]} [],
     mkBitcask (mkFile "db" 0 true false) "db" {["k" := 0]}, None).
Proof. vm_compute; reflexivity. Qed.

(** ** Further properties of the engine *)

(** *** Use after [Close] *)

Lemma Bitcask_eta b : mkBitcask (file b) (path b) (index b) = b.
Proof. by destruct b. Qed.

Lemma Close_closes b w : f_closed (file (atomkv.Close b w).1.2) = true.
Proof.
  unfold atomkv.Close, os.Close.
  destruct (f_closed (file b)) eqn:Hc; [done|].
  by destruct (next_fault w).
Qed.

Lemma closed_Set b key value now w :
  f_closed (file b) = true →
  Set_ b key value now w = (w, b, Some ErrClosed).
Proof.
  intros Hc. unfold Set_, Seek. rewrite Hc. by rewrite Bitcask_eta.
Qed.

Lemma closed_Load b w :
  f_closed (file b) = true → Load b w = Some (w, b, Some ErrClosed).
Proof.
  intros Hc. unfold Load, Seek. rewrite Hc. by rewrite Bitcask_eta.
Qed.

Lemma closed_Close b w :
  f_closed (file b) = true → atomkv.Close b w = (w, b, Some ErrClosed).
Proof.
  intros Hc. unfold atomkv.Close, os.Close. rewrite Hc.
  by rewrite Bitcask_eta.
Qed.

Lemma closed_Get b key w :
  f_closed (file b) = true → (Get b key w).2.2 ≠ None.
Proof.
  intros Hc. unfold Get, ReadAt.
  destruct (index b !! key) as [off|]; [|done].
  destruct (off <? 0); [done|]. by rewrite Hc.
Qed.

(** X1.  [Close] is terminal: whatever [Close] itself returned, the engine
    it leaves refuses every later [Set], [Load] and [Close] with
    [ErrClosed], changing neither the files nor the engine, and [Get]
    returns an error for every key. *)
Theorem closed_engine_rejects b w key value now :
  let w1 := (atomkv.Close b w).1.1 in
  let b1 := (atomkv.Close b w).1.2 in
  Set_ b1 key value now w1 = (w1, b1, Some ErrClosed) ∧
  Load b1 w1 = Some (w1, b1, Some ErrClosed) ∧
  atomkv.Close b1 w1 = (w1, b1, Some ErrClosed) ∧
  (Get b1 key w1).2.2 ≠ None.
Proof.
  intros w1 b1. pose proof (Close_closes b w) as Hc. fold b1 in Hc.
  split; [by apply closed_Set|]. split; [by apply closed_Load|].
  split; [by apply closed_Close|by apply closed_Get].
Qed.

(** *** [Set] only appends *)

Lemma Write_step f buf w w' f' r :
  (f_append f = false → f_pos f = Z.of_nat (length (content w f))) →
  Write f buf w = (w', f', r) →
  ∃ tail,
    content w' f = content w f ++ tail ∧ tail `prefix_of` buf ∧
    (r = None → tail = buf) ∧
    same_handle f f' ∧
    (r = None → f_append f' = false →
     f_pos f' = Z.of_nat (length (content w' f'))) ∧
    (∀ q, q ≠ f_name f → files w' !! q = files w !! q).
Proof.
  intros Hp H. unfold Write in H.
  destruct (f_closed f).
  { simplify_eq. exists []. rewrite app_nil_r.
    repeat split; try done. apply prefix_nil. }
  pose proof (next_fault_files w) as Hf.
  destruct (next_fault w) as [flt w1]. simpl in Hf.
  assert (Hct : content w1 f = content w f)
    by (unfold content; by rewrite Hf).
  rewrite Hct in H.
  assert ((if f_append f then length (content w f) else Z.to_nat (f_pos f))
          = length (content w f)) as Heq.
  { destruct (f_append f); [done|]. rewrite Hp by done. apply Nat2Z.id. }
  rewrite Heq in H.
  destruct flt as [x|]; simplify_eq; rewrite write_at_end.
  - exists (take (fault_done x) buf). rewrite content_store.
    repeat split; try done.
    + exists (drop (fault_done x) buf). by rewrite take_drop.
    + intros q Hq. unfold store. simpl. by rewrite lookup_insert_ne, Hf.
  - exists buf. rewrite content_store. repeat split; try done.
    + intros _ _. cbn [f_pos with_pos]. rewrite content_store_pos.
      by rewrite length_app.
    + intros q Hq. unfold store. simpl. by rewrite lookup_insert_ne, Hf.
Qed.

Lemma Set_appends b key value now w w' b' err :
  Set_ b key value now w = (w', b', err) →
  ∃ tail,
    content w' (file b) = content w (file b) ++ tail ∧
    tail `prefix_of` record_bytes now (list_byte_of_string key)
                       (list_byte_of_string value) ∧
    (err = None →
     tail = record_bytes now (list_byte_of_string key)
              (list_byte_of_string value)) ∧
    (∀ q, q ≠ f_name (file b) → files w' !! q = files w !! q).
Proof.
  unfold Set_. intros H.
  destruct (Seek (file b) 0 SeekEnd w) as [[w1 f1] r1] eqn:Hs.
  pose proof (Seek_frame _ _ _ _ _ _ _ Hs) as (Hsame & Hf1 & _).
  assert (Hct1 : content w1 (file b) = content w (file b))
    by (unfold content; by rewrite Hf1).
  destruct r1 as [e1|off].
  { simplify_eq. exists []. rewrite app_nil_r. split; [done|].
    split; [apply prefix_nil|]. split; [done|]. intros q _. by rewrite Hf1. }
  apply Seek_success in Hs as (_ & _ & -> & Hoff & _).
  rewrite Z.add_0_r in Hoff.
  destruct (Write _ _ w1) as [[w2 f2] r2] eqn:Hw.
  apply Write_step in Hw as (tail & Htail & Hpre & Hr & _ & _ & Hq).
  2:{ intros _. cbn [f_pos with_pos]. rewrite content_with_pos, Hct1.
      done. }
  rewrite !content_with_pos, Hct1 in Htail. cbn [f_name with_pos] in Hq.
  exists tail.
  assert (∀ q, q ≠ f_name (file b) → files w2 !! q = files w !! q)
    by (intros q Hne; by rewrite Hq, Hf1).
  destruct r2 as [e2|]; simplify_eq; by repeat split.
Qed.

(** X2.  The log is append-only under [Set]: whatever faults occur and
    whether the call succeeds or not, the bytes the log held stay where
    they were, what follows them is a prefix of the record, and no other
    file is touched; when [Set] returns no error the log has grown by
    exactly the record, [16 + len(key) + len(value)] bytes. *)
Theorem Set_appends_only b key value now w :
  let record := record_bytes now (list_byte_of_string key)
                  (list_byte_of_string value) in
  let w' := (Set_ b key value now w).1.1 in
  let err := (Set_ b key value now w).2 in
  (∃ tail,
     content w' (file b) = content w (file b) ++ tail ∧
     tail `prefix_of` record ∧
     (err = None →
      tail = record ∧
      Z.of_nat (length tail) = 16 + len key + len value)) ∧
  (∀ q, q ≠ f_name (file b) → files w' !! q = files w !! q).
Proof.
  cbv zeta. destruct (Set_ b key value now w) as [[w' b'] err] eqn:H.
  apply Set_appends in H as (tail & Hct & Hpre & Hr & Hoth).
  cbn [fst snd]. split; [|done]. exists tail.
  split; [done|]. split; [done|]. intros ->. rewrite (Hr eq_refl).
  split; [done|]. rewrite length_record_bytes. unfold len. lia.
Qed.

(** *** Reads never write *)

Lemma ReadAt_frame f n off w w' r :
  ReadAt f n off w = (w', r) → files w' = files w.
Proof.
  unfold ReadAt. intros H.
  destruct (off <? 0); [by simplify_eq|].
  destruct n; [by simplify_eq|].
  destruct (f_closed f); [by simplify_eq|].
  pose proof (next_fault_files w) as Hf.
  destruct (next_fault w) as [[x|] w1]; simpl in Hf; [by simplify_eq|].
  destruct (_ =? _)%nat; by simplify_eq.
Qed.

Lemma Get_frame b key w : files (Get b key w).1 = files w.
Proof.
  unfold Get. destruct (index b !! key) as [off|]; [|done].
  destruct (ReadAt (file b) 16 off w) as [w1 [hdr [e|]]] eqn:H1;
    apply ReadAt_frame in H1; [done|].
  destruct (ReadAt (file b) _ _ w1) as [w2 [vb [e|]]] eqn:H2;
    apply ReadAt_frame in H2; simpl; congruence.
Qed.

Lemma assign_all_keeps idx kos k :
  is_Some (idx !! k) → is_Some (assign_all idx kos !! k).
Proof.
  intros H. rewrite assign_all_lookup. by destruct (last_assign kos k).
Qed.

(** X3.  [Get] and [Load] never write: the files are as before, whatever
    faults occur.  [Load] always returns (its loop ends on every file
    content), and it only adds or moves index entries: a key that was in
    the index before [Load] is still there afterwards, also when [Load]
    fails. *)
Theorem reads_never_write b key w :
  files (Get b key w).1 = files w ∧
  ∃ w' b' err,
    Load b w = Some (w', b', err) ∧ files w' = files w ∧
    path b' = path b ∧
    ∀ k, is_Some (index b !! k) → is_Some (index b' !! k).
Proof.
  split; [apply Get_frame|].
  destruct (Load_terminates b w) as [[[w' b'] err] Hload].
  exists w', b', err. split; [done|]. unfold Load in Hload.
  destruct (Seek (file b) 0 SeekStart w) as [[w1 f1] [e|p]] eqn:Hs;
    pose proof (Seek_frame _ _ _ _ _ _ _ Hs) as (_ & Hf1 & _).
  { by simplify_eq. }
  destruct (Load_loop_assigns (S (length (content w1 f1))) f1 w1) as [kos Hk].
  rewrite (Hk (index b)) in Hload.
  destruct (Load_loop _ f1 ∅ w1) as [[[[w2 f2] idx2] e2]|] eqn:Hl; [|done].
  apply Load_loop_frame in Hl as (_ & Hf2 & _). simplify_eq.
  split; [congruence|]. split; [done|].
  intros k. apply assign_all_keeps.
Qed.

(** *** Recovery *)

Lemma replay_snoc es e idx :
  replay 0 (es ++ [e]) idx = <[e_key e := log_size es]> (replay 0 es idx).
Proof.
  rewrite replay_app. unfold replay at 1.
  cbn [entry_offsets assign_all foldl fst snd]. by rewrite Z.add_0_l.
Qed.

Lemma Set_seq_inv ops : ∀ w b es,
  inv w b es → complete b es → quiet w → Forall fits ops →
  ∃ w1 b1,
    Set_seq b ops w = (w1, b1) ∧ quiet w1 ∧
    inv w1 b1 (es ++ (op_entry <$> ops)) ∧
    complete b1 (es ++ (op_entry <$> ops)) ∧ path b1 = path b.
Proof.
  induction ops as [|[[k v] now] ops IH]; intros w b es Hinv Hcomp Hq Hfits.
  - exists w, b. cbn [fmap list_fmap Set_seq]. by rewrite app_nil_r.
  - apply Forall_cons in Hfits as [Hfit Hfits].
    destruct (Set_inv _ _ _ k v now Hinv Hq Hfit)
      as (w1 & b1 & Hset & Hq1 & Hinv1 & Hidx & Hp1).
    assert (Hc1 : complete b1 (es ++ [mkEntry now k v])).
    { unfold complete in *. by rewrite Hidx, replay_snoc, Hcomp. }
    destruct (IH _ _ _ Hinv1 Hc1 Hq1 Hfits)
      as (w2 & b2 & Hrun & Hq2 & Hinv2 & Hc2 & Hp2).
    exists w2, b2. cbn [Set_seq]. rewrite Hset.
    cbn [fmap list_fmap]. rewrite <- app_assoc in Hinv2, Hc2.
    split; [done|]. split; [done|]. split; [done|]. split; [done|].
    congruence.
Qed.

(** X4.  Recovery determinism.  A session that starts with the index of
    its log (a fresh store, or after [Load]) and performs any run of
    [Set]s ends with an index that [Close], [Open], [Load] rebuild
    identically from the file. *)
Theorem recovery_rebuilds_index w b es ops :
  inv w b es → complete b es → quiet w → Forall fits ops →
  ∃ w1 b1 b2 b3 b4,
    Set_seq b ops w = (w1, b1) ∧
    atomkv.Close b1 w1 = (w1, b2, None) ∧
    Open (path b) w1 = (w1, inr b3) ∧
    Load b3 w1 = Some (w1, b4, None) ∧
    index b4 = index b1.
Proof.
  intros Hinv Hcomp Hq Hfits.
  destruct (Set_seq_inv ops _ _ _ Hinv Hcomp Hq Hfits)
    as (w1 & b1 & Hrun & Hq1 & Hinv1 & Hc1 & Hp1).
  destruct (Close_inv _ _ _ Hinv1 Hq1) as (b2 & Hclose & _).
  pose proof (inv_file _ _ _ Hinv1) as Hf. rewrite Hp1 in Hf.
  pose proof (Open_existing _ _ _ Hq1 Hf) as Hopen.
  pose proof (Open_inv _ _ _ Hq1 Hf (inv_ok _ _ _ Hinv1)) as Hinv3.
  destruct (Load_inv _ _ _ Hinv3 Hq1) as (b4 & Hload & _ & Hidx & _).
  eexists w1, b1, b2, _, b4. repeat (split; [done|]).
  rewrite Hidx. symmetry. apply Hc1.
Qed.

Lemma recovery_rebuilds_index_witness :
  ∃ w1 b1 b2 b3 b4,
    Set_seq fresh_db [("a", "x", 1); ("b", "y", 2); ("a", "zz", 3)]
      fresh_world = (w1, b1) ∧
    atomkv.Close b1 w1 = (w1, b2, None) ∧
    Open (path fresh_db) w1 = (w1, inr b3) ∧
    Load b3 w1 = Some (w1, b4, None) ∧
    index b4 = index b1.
Proof.
  apply (recovery_rebuilds_index fresh_world fresh_db []).
  - by split.
  - reflexivity.
  - reflexivity.
  - repeat constructor.
Defined.

(** X5.  [Open] does not scan: after [Close] and [Open] of a store that
    holds data, the log is untouched but the index is empty, so [Get] of
    every key is [ErrKeyNotFound] and [Keys] is empty until [Load] is
    called; after [Load] every key the old index had is back with its
    value. *)
Theorem Open_without_Load_sees_nothing w b es :
  inv w b es → quiet w → log_size es < 2 ^ 63 →
  ∃ b1 b2 b3,
    atomkv.Close b w = (w, b1, None) ∧
    Open (path b) w = (w, inr b2) ∧
    (∀ k, Get b2 k w = (w, (EmptyString, Some ErrKeyNotFound))) ∧
    Keys b2 (map_to_list (index b2)) = [] ∧
    Load b2 w = Some (w, b3, None) ∧
    (∀ k off, index b !! k = Some off →
       Get b3 k w = (w, (latest_value es k, None))).
Proof.
  intros Hinv Hq Hsz.
  destruct (Close_inv _ _ _ Hinv Hq) as (b1 & Hclose & _).
  pose proof (inv_file _ _ _ Hinv) as Hf.
  pose proof (Open_existing _ _ _ Hq Hf) as Hopen.
  pose proof (Open_inv _ _ _ Hq Hf (inv_ok _ _ _ Hinv)) as Hinv2.
  destruct (Load_inv _ _ _ Hinv2 Hq) as (b3 & Hload & Hinv3 & Hidx & _).
  eexists b1, _, b3. repeat (split; [done|]).
  intros k off Hk. destruct (inv_index _ _ _ Hinv _ _ Hk) as [e Hl].
  assert (latest_value es k = e_value e) as ->.
  { unfold latest_value. by apply latest_at_last in Hl as [-> _]. }
  eapply Get_inv; try done. rewrite Hidx. by eapply replay_last.
Qed.

Lemma Open_without_Load_sees_nothing_witness :
  ∃ b1 b2 b3,
    atomkv.Close ex_db ex_world = (ex_world, b1, None) ∧
    Open (path ex_db) ex_world = (ex_world, inr b2) ∧
    (∀ k, Get b2 k ex_world
          = (ex_world, (EmptyString, Some ErrKeyNotFound))) ∧
    Keys b2 (map_to_list (index b2)) = [] ∧
    Load b2 ex_world = Some (ex_world, b3, None) ∧
    (∀ k off, index ex_db !! k = Some off →
       Get b3 k ex_world = (ex_world, (latest_value ex_entries k, None))).
Proof.
  apply (Open_without_Load_sees_nothing ex_world ex_db ex_entries).
  - apply ex_inv.
  - reflexivity.
  - reflexivity.
Defined.

(** *** More on [Compact] *)

Lemma range_order_empty (m : gmap string Z) order :
  m = ∅ → range_order m order → order = [].
Proof.
  intros -> H. unfold range_order in H. rewrite map_to_list_empty in H.
  by apply Permutation_nil_r in H.
Qed.

Lemma Close_quiet_any f w :
  quiet w → ∃ f' r, os.Close f w = (w, f', r) ∧ f_name f' = f_name f.
Proof.
  intros Hq. unfold os.Close. destruct (f_closed f); [by eexists _, _|].
  rewrite next_fault_quiet by done. by eexists _, _.
Qed.

(** X6.  [Compact] keeps the keys of the index, not the keys of the log.
    With an empty index -- an engine that was opened and not loaded --
    it succeeds and replaces the log by an empty file, whatever the log
    held. *)
Theorem Compact_empty_index_erases_log b w order :
  quiet w → index b = ∅ → range_order (index b) order →
  ∃ w',
    Compact b order w
    = (w', mkBitcask (mkFile (path b) 0 true false) (path b) ∅, None) ∧
    files w' !! path b = Some [] ∧ files w' !! tempPath b = None.
Proof.
  intros Hq Hi Hord. rewrite (range_order_empty _ _ Hi Hord).
  pose proof (tempPath_neq b) as Hne.
  unfold Compact. rewrite OpenFile_trunc_quiet by done.
  cbn [Compact_range].
  destruct (Close_quiet_any (file b) (store w (tempPath b) []))
    as (f1 & r1 & -> & _); [done|].
  rewrite Close_quiet by done.
  unfold Rename. rewrite next_fault_quiet by done.
  unfold store at 1. cbn [files]. rewrite lookup_insert_eq.
  unfold OpenFile. rewrite next_fault_quiet by done.
  cbn [files]. rewrite lookup_insert_eq.
  eexists. split; [done|]. cbn [files store].
  rewrite lookup_insert_eq. split; [done|].
  rewrite lookup_insert_ne by done. rewrite delete_insert_eq.
  apply lookup_delete_eq.
Qed.

Lemma Compact_empty_index_erases_log_witness :
  ∃ w',
    Compact (mkBitcask (mkFile "db" 0 false false) "db" ∅) [] ex_world
    = (w', mkBitcask (mkFile "db" 0 true false) "db" ∅, None) ∧
    files w' !! "db"%string = Some [] ∧
    files w' !! "db.tmp"%string = None.
Proof.
  apply (Compact_empty_index_erases_log
           (mkBitcask (mkFile "db" 0 false false) "db" ∅) ex_world []).
  - reflexivity.
  - reflexivity.
  - unfold range_order. reflexivity.
Defined.

(** X7.  A successful [Compact] leaves no temporary file behind, also when
    a stale one existed before, touches no file but the log and the
    temporary file, and leaves the engine on a handle in append mode. *)
Theorem Compact_cleans_up w b es order :
  inv w b es → quiet w → range_order (index b) order →
  ∃ w' b',
    Compact b order w = (w', b', None) ∧
    files w' !! tempPath b = None ∧
    (∀ q, q ≠ path b → q ≠ tempPath b → files w' !! q = files w !! q) ∧
    file b' = mkFile (path b) 0 true false.
Proof.
  intros Hinv Hq Hord.
  destruct (inv_pointed _ _ _ _ Hinv Hord) as [ces Hall].
  destruct (Compact_quiet _ _ _ _ _ Hinv Hq Hall) as (w' & Hrun & _ & Hfs).
  pose proof (tempPath_neq b) as Hne.
  eexists w', _. split; [exact Hrun|]. rewrite Hfs. split; [|split; [|done]].
  - rewrite lookup_insert_ne by done. apply lookup_delete_eq.
  - intros q Hq1 Hq2. by rewrite lookup_insert_ne, lookup_delete_ne.
Qed.

Lemma Compact_cleans_up_witness :
  ∃ w' b',
    Compact ex_db (map_to_list (index ex_db)) ex_world = (w', b', None) ∧
    files w' !! tempPath ex_db = None ∧
    (∀ q, q ≠ path ex_db → q ≠ tempPath ex_db →
       files w' !! q = files ex_world !! q) ∧
    file b' = mkFile (path ex_db) 0 true false.
Proof.
  apply (Compact_cleans_up ex_world ex_db ex_entries).
  - apply ex_inv.
  - reflexivity.
  - unfold range_order. reflexivity.
Defined.

(** X8.  A [Compact] that returns an error, whichever call failed, leaves
    the index and the path of the engine as they were. *)
Theorem Compact_failure_keeps_index b order w w' b' e :
  Compact b order w = (w', b', Some e) →
  index b' = index b ∧ path b' = path b.
Proof. apply Compact_error_keeps_index. Qed.

Lemma Compact_failure_keeps_index_witness :
  index (Compact closed_db [("k"%string, 0)] ex_world).1.2 = index closed_db ∧
  path (Compact closed_db [("k"%string, 0)] ex_world).1.2 = path closed_db.
Proof.
  apply (Compact_failure_keeps_index closed_db [("k"%string, 0)] ex_world
           (Compact closed_db [("k"%string, 0)] ex_world).1.1
           (Compact closed_db [("k"%string, 0)] ex_world).1.2
           ErrClosed).
  vm_compute. reflexivity.
Defined.



(** *** A torn append *)

(** X10.  A [Set] whose write stops inside the header or the key of the
    record (the disk fills up, the process is killed) returns the error
    and leaves the index alone, but the bytes written stay in the log:
    after [Close] and [Open], [Load] fails with an end-of-file error, having
    indexed the records that precede the torn one. *)
Theorem torn_Set_fails_recovery w b es key value now c n :
  inv w b es → faults w = [None; Some (mkFault c n)] →
  (0 < n < 16 + length (list_byte_of_string key))%nat →
  len key < 2 ^ 32 → len value < 2 ^ 32 →
  ∃ w1 b1 b2 b3 f4 err,
    Set_ b key value now w = (w1, b1, Some (PathError c)) ∧
    index b1 = index b ∧
    atomkv.Close b1 w1 = (w1, b2, None) ∧
    Open (path b) w1 = (w1, inr b3) ∧
    Load b3 w1
    = Some (w1, mkBitcask f4 (path b) (replay 0 es ∅), Some err) ∧
    eof_error err.
Proof.
  intros [Hc Hn Hf Hok Hi] Hfl Hcut Hk Hv.
  destruct w as [fs fl]. cbn [faults files] in *. subst fl.
  set (e := mkEntry now key value).
  set (d := log_bytes es ++ take n (entry_bytes e)).
  assert (Hct : content (mkWorld fs [Some (mkFault c n)]) (file b)
                = log_bytes es).
  { apply content_lookup. cbn [files]. by rewrite Hn. }
  assert (Hset : Set_ b key value now (mkWorld fs [None; Some (mkFault c n)])
                 = (mkWorld (<[path b := d]> fs) [],
                    mkBitcask (with_pos (file b)
                                 (Z.of_nat (length (log_bytes es)
                                            + length (take n (entry_bytes e)))))
                      (path b) (index b),
                    Some (PathError c))).
  { unfold Set_, Seek. rewrite Hc. cbn [next_fault faults files].
    rewrite Hct, Z.add_0_r. cbn match.
    destruct (Z.ltb_spec (Z.of_nat (length (log_bytes es))) 0); [lia|].
    unfold Write. cbn [f_closed with_pos next_fault faults files].
    rewrite Hc. rewrite !content_with_pos.
    assert (content (mkWorld fs []) (file b) = log_bytes es) as ->
      by (apply content_lookup; cbn [files]; by rewrite Hn).
    cbn [f_append f_pos f_name with_pos fault_done fault_errno].
    rewrite Nat2Z.id.
    assert ((if f_append (file b) then length (log_bytes es)
             else length (log_bytes es)) = length (log_bytes es)) as ->
      by (by destruct (f_append _)).
    rewrite write_at_end. unfold store. cbn [files faults]. by rewrite Hn. }
  set (w1 := mkWorld (<[path b := d]> fs) []) in *.
  assert (Hq1 : quiet w1) by done.
  assert (Hf1 : files w1 !! path b = Some d) by apply lookup_insert_eq.
  eexists w1, _, _, _. 
  destruct (Load_detects_torn_header_or_key
              (mkBitcask (mkFile (path b) 0 false false) (path b) ∅)
              w1 es e n) as (f4 & err & Hload & Herr); try done.
  { by apply content_lookup. }
  exists f4, err. split; [exact Hset|]. split; [done|].
  split; [cbn [file]; unfold atomkv.Close; by rewrite Close_quiet|].
  split; [by eapply Open_existing|]. by split.
Qed.

Lemma torn_Set_fails_recovery_witness :
  ∃ w1 b1 b2 b3 f4 err,
    Set_ ex_db "name" "alice" 7 failing_world
    = (w1, b1, Some (PathError ENOSPC)) ∧
    index b1 = index ex_db ∧
    atomkv.Close b1 w1 = (w1, b2, None) ∧
    Open (path ex_db) w1 = (w1, inr b3) ∧
    Load b3 w1
    = Some (w1, mkBitcask f4 (path ex_db) (replay 0 ex_entries ∅), Some err) ∧
    eof_error err.
Proof.
  apply (torn_Set_fails_recovery failing_world ex_db ex_entries
           "name" "alice" 7 ENOSPC 10).
  - apply (inv_files ex_world); [reflexivity|apply ex_inv].
  - reflexivity.
  - simpl. lia.
  - reflexivity.
  - reflexivity.
Defined.

(** *** [Keys] and [Get] *)

(** X11.  [Keys] lists each key once, and a key is listed exactly when
    [Get] of it does not answer [ErrKeyNotFound]. *)
Theorem Keys_are_the_known_keys b order w k :
  range_order (index b) order →
  NoDup (Keys b order) ∧
  (k ∈ Keys b order ↔ (Get b k w).2.2 ≠ Some ErrKeyNotFound).
Proof.
  intros Hord. destruct (Keys_range _ _ Hord) as [Hnd Hin].
  split; [done|]. rewrite Hin. unfold Get.
  destruct (index b !! k) as [off|] eqn:Hk.
  - split; [|by eexists]. intros _.
    destruct (ReadAt (file b) 16 off w) as [w1 [hdr [e|]]] eqn:Hh.
    + simpl. apply ReadAt_error_not_KeyNotFound in Hh. congruence.
    + destruct (ReadAt (file b) _ _ w1) as [w2 [vb [e|]]] eqn:Hv; [|done].
      simpl. apply ReadAt_error_not_KeyNotFound in Hv. congruence.
  - simpl. split; [by intros [? ?]|]. intros H. by destruct H.
Qed.

Lemma Keys_are_the_known_keys_witness :
  NoDup (Keys ex_db (map_to_list (index ex_db))) ∧
  ("a"%string ∈ Keys ex_db (map_to_list (index ex_db)) ↔
   (Get ex_db "a" ex_world).2.2 ≠ Some ErrKeyNotFound).
Proof.
  apply (Keys_are_the_known_keys ex_db (map_to_list (index ex_db))
           ex_world "a").
  unfold range_order. reflexivity.
Defined.

(** ** The earlier revision of the engine: proofs *)

(** *** The two revisions of [Set] *)

Lemma Write_append_pos tf w n d buf :
  quiet w → f_closed tf = false → f_name tf = n → files w !! n = Some d →
  (f_append tf = false → f_pos tf = Z.of_nat (length d)) →
  Write tf buf w
  = (store w n (d ++ buf), with_pos tf (Z.of_nat (length (d ++ buf))), None).
Proof.
  intros Hq Hc Hn Hf Hp.
  assert (content w tf = d) as Hct by (apply content_lookup; by rewrite Hn).
  rewrite Write_quiet_end by (done || by rewrite Hct).
  by rewrite Hct, Hn, length_app.
Qed.

(** X12.  With no fault pending the five writes of the earlier [Set] leave
    exactly what the single buffered write of the current [Set] leaves:
    the same files, the same handle and the same index. *)
Theorem Set_revisions_agree b key value now w d :
  f_closed (file b) = false → quiet w →
  files w !! f_name (file b) = Some d →
  atomkv_v1.Set_ (atomkv_v1.mkBitcask (file b) (index b)) key value now w
  = ((Set_ b key value now w).1.1,
     atomkv_v1.mkBitcask (file (Set_ b key value now w).1.2)
       (index (Set_ b key value now w).1.2),
     None)
  ∧ (Set_ b key value now w).2 = None.
Proof.
  intros Hc Hq Hd.
  assert (Hct : content w (file b) = d) by (by apply content_lookup).
  rewrite Set_quiet by done. cbn [fst snd file index]. split; [|done].
  unfold atomkv_v1.Set_. cbn [atomkv_v1.file atomkv_v1.index].
  rewrite Seek_quiet_end by done. rewrite Hct.
  set (n := f_name (file b)).
  set (tf0 := with_pos (file b) (Z.of_nat (length d))).
  set (b1 := PutUint64 now).
  set (b2 := PutUint32 (uint32 (Z.of_nat (length (list_byte_of_string key))))).
  set (b3 := PutUint32
               (uint32 (Z.of_nat (length (list_byte_of_string value))))).
  set (b4 := list_byte_of_string key).
  set (b5 := list_byte_of_string value).
  pose proof (Write_append_pos tf0 w n d b1 Hq Hc eq_refl Hd
                (λ _, eq_refl)) as W1.
  set (d1 := d ++ b1) in *.
  pose proof (Write_append_pos (with_pos tf0 (Z.of_nat (length d1)))
                (store w n d1) n d1 b2 (quiet_store _ _ _ Hq) Hc eq_refl
                (lookup_insert_eq _ _ _) (λ _, eq_refl)) as W2.
  set (d2 := d1 ++ b2) in *. rewrite store_store, with_pos_twice in W2.
  pose proof (Write_append_pos (with_pos tf0 (Z.of_nat (length d2)))
                (store w n d2) n d2 b3 (quiet_store _ _ _ Hq) Hc eq_refl
                (lookup_insert_eq _ _ _) (λ _, eq_refl)) as W3.
  set (d3 := d2 ++ b3) in *. rewrite store_store, with_pos_twice in W3.
  pose proof (Write_append_pos (with_pos tf0 (Z.of_nat (length d3)))
                (store w n d3) n d3 b4 (quiet_store _ _ _ Hq) Hc eq_refl
                (lookup_insert_eq _ _ _) (λ _, eq_refl)) as W4.
  set (d4 := d3 ++ b4) in *. rewrite store_store, with_pos_twice in W4.
  pose proof (Write_append_pos (with_pos tf0 (Z.of_nat (length d4)))
                (store w n d4) n d4 b5 (quiet_store _ _ _ Hq) Hc eq_refl
                (lookup_insert_eq _ _ _) (λ _, eq_refl)) as W5.
  set (d5 := d4 ++ b5) in *. rewrite store_store, with_pos_twice in W5.
  cbn zeta. fold b1 b2 b3 b4 b5.
  rewrite W1. cbn match. rewrite W2. cbn match. rewrite W3. cbn match.
  rewrite W4. cbn match. rewrite W5. cbn match.
  assert (Hd5 : d5 = d ++ record_bytes now b4 b5).
  { unfold d5, d4, d3, d2, d1, record_bytes. fold b1 b2 b3.
    by rewrite <- !app_assoc. }
  rewrite Hd5, length_app. unfold tf0. by rewrite with_pos_twice.
Qed.

Lemma Set_revisions_agree_witness :
  atomkv_v1.Set_ (atomkv_v1.mkBitcask (file ex_db) (index ex_db))
    "name" "alice" 7 ex_world
  = ((Set_ ex_db "name" "alice" 7 ex_world).1.1,
     atomkv_v1.mkBitcask (file (Set_ ex_db "name" "alice" 7 ex_world).1.2)
       (index (Set_ ex_db "name" "alice" 7 ex_world).1.2),
     None)
  ∧ (Set_ ex_db "name" "alice" 7 ex_world).2 = None.
Proof.
  apply (Set_revisions_agree ex_db "name" "alice" 7 ex_world
           (log_bytes ex_entries)); reflexivity.
Defined.

Lemma appended_step f0 w0 f w acc buf w' f' r :
  appended f0 w0 f w acc → Write f buf w = (w', f', r) →
  ∃ tail,
    tail `prefix_of` buf ∧
    content w' f0 = content w0 f0 ++ acc ++ tail ∧
    (∀ q, q ≠ f_name f0 → files w' !! q = files w0 !! q) ∧
    (r = None → tail = buf ∧ appended f0 w0 f' w' (acc ++ buf)).
Proof.
  intros (Hct & Hsame & Hp & Hoth) Hw.
  destruct (Write_step _ _ _ _ _ _ Hp Hw)
    as (tail & Ht & Hpre & Hr & Hs' & Hp' & Hoth').
  destruct Hsame as (Hn & Ha & Hc).
  assert (Hc0 : ∀ x, content x f = content x f0)
    by (intros x; unfold content; by rewrite Hn).
  rewrite !Hc0 in Ht. rewrite Hn in Hoth'.
  exists tail. split; [done|]. split; [by rewrite Ht, Hct, <- app_assoc|].
  split; [intros q Hq; by rewrite Hoth', Hoth|].
  intros ->. specialize (Hr eq_refl). subst tail. split; [done|].
  split; [by rewrite Ht, Hct, <- app_assoc|].
  split; [by eapply same_handle_trans|]. split; [by apply Hp'|].
  intros q Hq. by rewrite Hoth', Hoth.
Qed.

Lemma prefix_middle (acc tail buf rest : list byte) :
  tail `prefix_of` buf → (acc ++ tail) `prefix_of` (acc ++ buf ++ rest).
Proof.
  intros [k ->]. exists (k ++ rest). by rewrite <- !app_assoc.
Qed.

(** One checked write of the earlier [Set]: either it failed, and the log
    holds a prefix of the record, or the run of appends goes on. *)
Ltac v1_write A Hw tail Hpre Hct Hoth Hr :=
  match goal with
  | |- context [Write ?hh ?buf ?ww] =>
    destruct (Write hh buf ww) as [[? ?] [?|]] eqn:Hw;
    destruct (appended_step _ _ _ _ _ _ _ _ _ A Hw)
      as (tail & Hpre & Hct & Hoth & Hr)
  end.

(** X13.  The earlier [Set] is append-only too, but it can stop between
    its writes: whatever faults occur, the log afterwards is the old log
    followed by a prefix of the record and no other file is touched; when
    it returns an error the index is unchanged, and when it returns none
    the whole record was appended. *)
Theorem v1_Set_appends_prefix b key value now w :
  let record := record_bytes now (list_byte_of_string key)
                  (list_byte_of_string value) in
  let w' := (atomkv_v1.Set_ b key value now w).1.1 in
  let b' := (atomkv_v1.Set_ b key value now w).1.2 in
  let err := (atomkv_v1.Set_ b key value now w).2 in
  (∃ tail,
     content w' (atomkv_v1.file b) = content w (atomkv_v1.file b) ++ tail ∧
     tail `prefix_of` record ∧ (err = None → tail = record)) ∧
  (err ≠ None → atomkv_v1.index b' = atomkv_v1.index b) ∧
  (∀ q, q ≠ f_name (atomkv_v1.file b) → files w' !! q = files w !! q).
Proof.
  cbv zeta. unfold atomkv_v1.Set_, record_bytes.
  set (f0 := atomkv_v1.file b).
  set (b1 := PutUint64 now).
  set (b2 := PutUint32 (uint32 (Z.of_nat (length (list_byte_of_string key))))).
  set (b3 := PutUint32
               (uint32 (Z.of_nat (length (list_byte_of_string value))))).
  set (b4 := list_byte_of_string key).
  set (b5 := list_byte_of_string value).
  destruct (Seek f0 0 SeekEnd w) as [[w1 f1] r1] eqn:Hs.
  pose proof (Seek_frame _ _ _ _ _ _ _ Hs) as (Hsame & Hf1 & _).
  assert (Hct1 : content w1 f0 = content w f0)
    by (unfold content; by rewrite Hf1).
  destruct r1 as [e1|off].
  { cbn [fst snd]. repeat split; try done.
    - exists []. rewrite app_nil_r. repeat split; try done. apply prefix_nil.
    - intros q _. by rewrite Hf1. }
  apply Seek_success in Hs as (_ & _ & -> & Hoff & _).
  rewrite Z.add_0_r in Hoff.
  assert (A0 : appended f0 w (with_pos f0 off) w1 []).
  { split; [by rewrite app_nil_r|]. split; [done|]. split; [|by rewrite Hf1].
    intros _. cbn [f_pos with_pos]. rewrite content_with_pos, Hct1. done. }
  v1_write A0 W1 t1 P1 C1 O1 R1.
  { cbn [fst snd]. repeat split; try done. exists ([] ++ t1).
    split; [done|]. split; [|done].
    apply (prefix_middle [] t1 b1 (b2 ++ b3 ++ b4 ++ b5)), P1. }
  destruct (R1 eq_refl) as [_ A1]. clear R1.
  v1_write A1 W2 t2 P2 C2 O2 R2.
  { cbn [fst snd]. repeat split; try done. exists (([] ++ b1) ++ t2).
    split; [done|]. split; [|done].
    replace (b1 ++ b2 ++ b3 ++ b4 ++ b5)
      with (([] ++ b1) ++ b2 ++ b3 ++ b4 ++ b5) by done.
    apply prefix_middle, P2. }
  destruct (R2 eq_refl) as [_ A2]. clear R2.
  v1_write A2 W3 t3 P3 C3 O3 R3.
  { cbn [fst snd]. repeat split; try done. exists ((([] ++ b1) ++ b2) ++ t3).
    split; [done|]. split; [|done].
    replace (b1 ++ b2 ++ b3 ++ b4 ++ b5)
      with ((([] ++ b1) ++ b2) ++ b3 ++ b4 ++ b5)
      by (by rewrite <- !app_assoc).
    apply prefix_middle, P3. }
  destruct (R3 eq_refl) as [_ A3]. clear R3.
  v1_write A3 W4 t4 P4 C4 O4 R4.
  { cbn [fst snd]. repeat split; try done.
    exists (((([] ++ b1) ++ b2) ++ b3) ++ t4).
    split; [done|]. split; [|done].
    replace (b1 ++ b2 ++ b3 ++ b4 ++ b5)
      with (((([] ++ b1) ++ b2) ++ b3) ++ b4 ++ b5)
      by (by rewrite <- !app_assoc).
    apply prefix_middle, P4. }
  destruct (R4 eq_refl) as [_ A4]. clear R4.
  v1_write A4 W5 t5 P5 C5 O5 R5.
  { cbn [fst snd]. repeat split; try done.
    exists ((((([] ++ b1) ++ b2) ++ b3) ++ b4) ++ t5).
    split; [done|]. split; [|done].
    replace (b1 ++ b2 ++ b3 ++ b4 ++ b5)
      with ((((([] ++ b1) ++ b2) ++ b3) ++ b4) ++ b5 ++ [])
      by (by rewrite app_nil_r, <- !app_assoc).
    apply prefix_middle, P5. }
  destruct (R5 eq_refl) as [_ A5].
  cbn [fst snd]. repeat split; try done.
  exists (b1 ++ b2 ++ b3 ++ b4 ++ b5). split; [|done].
  destruct A5 as [C _]. rewrite C. by rewrite <- !app_assoc.
Qed.

(** *** The two revisions of [Get] *)

(** X14.  On a record the index points at, the earlier [Get], which seeks
    and reads through the cursor of the handle, returns the value the
    current positional [Get] returns; unlike the current one it leaves the
    cursor at the end of the record. *)
Theorem Get_revisions_agree b k w pre e post off :
  f_closed (file b) = false → quiet w →
  content w (file b) = pre ++ entry_bytes e ++ post →
  index b !! k = Some off → off = Z.of_nat (length pre) →
  entry_ok e → off + entry_size e < 2 ^ 63 →
  atomkv_v1.Get (atomkv_v1.mkBitcask (file b) (index b)) k w
  = (w,
     atomkv_v1.mkBitcask (with_pos (file b) (off + entry_size e)) (index b),
     (e_value e, None)) ∧
  Get b k w = (w, (e_value e, None)).
Proof.
  intros Hc Hq Hct Hk Hoff Hok Hsz.
  split; [|by eapply Get_record].
  pose proof (len_nonneg (e_key e)) as Hk0.
  pose proof (len_nonneg (e_value e)) as Hv0.
  pose proof Hok as [Hkb Hvb].
  unfold atomkv_v1.Get. cbn [atomkv_v1.file atomkv_v1.index]. rewrite Hk.
  rewrite Seek_quiet_start by (done || lia).
  pose proof (ahead_start _ _ _ _ _ Hc Hct Hoff) as Ha.
  rewrite entry_bytes_parts in Ha by done. rewrite <- !app_assoc in Ha.
  erewrite binary_Read_ahead; [|done|done|apply length_PutUint64].
  eapply ahead_skip in Ha; [|apply f_equal, length_PutUint64].
  erewrite binary_Read_ahead; [|done|done|apply length_PutUint32].
  eapply ahead_skip in Ha; [|apply f_equal, length_PutUint32].
  erewrite binary_Read_ahead; [|done|done|apply length_PutUint32].
  eapply ahead_skip in Ha; [|apply f_equal, length_PutUint32].
  cbn match. rewrite !Uint32_PutUint32_eq by lia.
  erewrite Seek_ahead; [|done|done|reflexivity].
  eapply ahead_skip in Ha; [|reflexivity].
  replace (Z.to_nat (len (e_value e)))
    with (length (list_byte_of_string (e_value e))) by (unfold len; lia).
  rewrite <- (app_nil_r (list_byte_of_string (e_value e))) in Ha at 1.
  rewrite <- app_assoc in Ha.
  erewrite ReadFull_ahead; [|done|done|done].
  rewrite string_of_list_byte_of_string.
  cbn [f_pos with_pos]. rewrite !with_pos_twice.
  unfold entry_size, len. do 2 f_equal. f_equal. f_equal. lia.
Qed.

Lemma Get_revisions_agree_witness :
  atomkv_v1.Get (atomkv_v1.mkBitcask (file ex_db) (index ex_db)) "a" ex_world
  = (ex_world,
     atomkv_v1.mkBitcask
       (with_pos (file ex_db) (36 + entry_size (mkEntry 3 "a" "zz")))
       (index ex_db),
     (e_value (mkEntry 3 "a" "zz"), None)) ∧
  Get ex_db "a" ex_world = (ex_world, (e_value (mkEntry 3 "a" "zz"), None)).
Proof.
  apply (Get_revisions_agree ex_db "a" ex_world
           (log_bytes [mkEntry 1 "a" "x"; mkEntry 2 "b" "y"])
           (mkEntry 3 "a" "zz") [] 36).
  - reflexivity.
  - reflexivity.
  - vm_compute. reflexivity.
  - reflexivity.
  - reflexivity.
  - by split.
  - reflexivity.
Defined.

(** ** The command-line client: proofs *)

Lemma store_same w p d : files w !! p = Some d → store w p d = w.
Proof.
  intros H. destruct w as [fs fl]. unfold store. cbn [files faults] in *.
  by rewrite insert_id.
Qed.

Lemma Open_quiet p w :
  quiet w →
  Open p w
  = (store w p (default [] (files w !! p)),
     inr (mkBitcask (mkFile p 0 false false) p ∅)).
Proof.
  intros Hq. unfold Open, OpenFile. rewrite next_fault_quiet by done.
  destruct (files w !! p) as [d|] eqn:Hf; [|done].
  cbn [default]. by rewrite store_same.
Qed.

(** [Open] then [Load], as every run of the client starts. *)
Lemma Open_Load_quiet p w es :
  quiet w → default [] (files w !! p) = log_bytes es → Forall entry_ok es →
  let w0 := store w p (log_bytes es) in
  ∃ b, Open p w = (w0, inr (mkBitcask (mkFile p 0 false false) p ∅)) ∧
       quiet w0 ∧
       Load (mkBitcask (mkFile p 0 false false) p ∅) w0 = Some (w0, b, None) ∧
       inv w0 b es ∧ complete b es ∧ path b = p.
Proof.
  intros Hq Hlog Hok w0. rewrite Open_quiet, Hlog by done. fold w0.
  assert (Hq0 : quiet w0) by done.
  assert (Hf0 : files w0 !! p = Some (log_bytes es))
    by apply lookup_insert_eq.
  pose proof (Open_inv _ _ _ Hq0 Hf0 Hok) as Hinv.
  destruct (Load_inv _ _ _ Hinv Hq0) as (b & Hload & Hinv' & Hidx & Hp).
  exists b. split; [done|]. split; [done|]. split; [done|].
  split; [done|]. split; [exact Hidx|done].
Qed.

(** With the whole log indexed, [Get] returns the value of the last record
    of the key, and [ErrKeyNotFound] when the log has none. *)
Lemma Get_complete w b es k :
  inv w b es → complete b es → quiet w → log_size es < 2 ^ 63 →
  Get b k w
  = (w, match last_entry es k with
        | Some e => (e_value e, None)
        | None => (EmptyString, Some ErrKeyNotFound)
        end).
Proof.
  intros Hinv Hc Hq Hsz.
  destruct (index b !! k) as [off|] eqn:Hk.
  - destruct (inv_index _ _ _ Hinv _ _ Hk) as [e Hl].
    pose proof (latest_at_last _ _ _ _ Hl) as [-> _].
    by eapply Get_inv.
  - unfold Get. rewrite Hk.
    unfold complete, replay in Hc. rewrite Hc, assign_all_lookup in Hk.
    destruct (last_assign _ k) eqn:Hl; [done|].
    by rewrite (last_entry_None _ _ (last_assign_None _ _ _ Hl)).
Qed.

(** X15.  [atomkv set k v] on a well-formed database appends one record,
    prints [OK] and exits with status 0; any later [atomkv get k] prints
    [v] and exits with status 0, leaving the files as they are. *)
Theorem cli_set_then_get prog prog' k v now now' w es :
  quiet w → db_log w es → Forall entry_ok es →
  len k < 2 ^ 32 → len v < 2 ^ 32 →
  log_size es + (16 + len k + len v) < 2 ^ 63 →
  let w1 := store w cli.dbPath (log_bytes (es ++ [mkEntry now k v])) in
  cli.main [prog; "set"%string; k; v] now w
  = Some (w1, [cli.Println "OK"], 0) ∧
  cli.main [prog'; "get"%string; k] now' w1
  = Some (w1, [cli.Println v], 0).
Proof.
  intros Hq Hlog Hok Hk Hv Hsz w1.
  destruct (Open_Load_quiet cli.dbPath w es Hq Hlog Hok)
    as (b & Hopen & Hq0 & Hload & Hinv & Hc & Hp).
  set (w0 := store w cli.dbPath (log_bytes es)) in *.
  destruct (Set_inv _ _ _ k v now Hinv Hq0) as
    (w' & b' & Hset & Hq' & Hinv' & Hidx' & Hp'); [done|].
  assert (Hw' : w' = w1).
  { pose proof Hset as Hset'.
    rewrite Set_quiet in Hset' by (done || apply (inv_open _ _ _ Hinv)).
    cbv zeta in Hset'. rewrite (inv_name _ _ _ Hinv), Hp in Hset'.
    rewrite (content_lookup w0 (file b) (log_bytes es)) in Hset'
      by (rewrite (inv_name _ _ _ Hinv), Hp; apply lookup_insert_eq).
    injection Hset' as <- _. unfold w0, w1. rewrite store_store.
    rewrite log_bytes_app. cbn [log_bytes]. by rewrite app_nil_r. }
  subst w'.
  destruct (Close_inv _ _ _ Hinv' Hq') as (b2 & Hclose & _).
  split.
  - unfold cli.main. cbn [length Nat.ltb Nat.leb]. rewrite Hopen, Hload.
    cbn [cli.Arg lookup list_lookup default String.eqb Ascii.eqb Bool.eqb
         length Nat.eqb negb from_option id]. rewrite Hset, Hclose. done.
  - assert (Hlog1 : default [] (files w1 !! cli.dbPath)
                    = log_bytes (es ++ [mkEntry now k v])).
    { unfold w1, store. cbn [files]. by rewrite lookup_insert_eq. }
    destruct (Open_Load_quiet cli.dbPath w1 _ Hq' Hlog1 (inv_ok _ _ _ Hinv'))
      as (b3 & Hopen3 & _ & Hload3 & Hinv3 & Hc3 & _).
    rewrite store_same in Hopen3, Hload3, Hinv3
      by (unfold w1, store; cbn [files]; apply lookup_insert_eq).
    destruct (Close_inv _ _ _ Hinv3 Hq') as (b4 & Hclose4 & _).
    unfold cli.main. cbn [length Nat.ltb Nat.leb]. rewrite Hopen3, Hload3.
    cbn [cli.Arg lookup list_lookup default String.eqb Ascii.eqb Bool.eqb
         length Nat.eqb negb from_option id].
    rewrite (Get_complete _ _ _ k Hinv3 Hc3 Hq')
      by (rewrite log_size_app, log_size_cons; change (log_size []) with 0;
          unfold entry_size; cbn [e_key e_value]; lia).
    pose proof (latest_at_snoc_same es (mkEntry now k v)) as Hl.
    apply latest_at_last in Hl as [Hl _]. cbn [e_key] in Hl. rewrite Hl.
    cbn [e_value]. by rewrite Hclose4.
Qed.

Lemma cli_set_then_get_witness :
  cli.main ["atomkv"; "set"; "name"; "alice"]%string 7 cli_world
  = Some (store cli_world cli.dbPath
            (log_bytes (ex_entries ++ [mkEntry 7 "name" "alice"])),
          [cli.Println "OK"], 0) ∧
  cli.main ["atomkv"; "get"; "name"]%string 8
    (store cli_world cli.dbPath
       (log_bytes (ex_entries ++ [mkEntry 7 "name" "alice"])))
  = Some (store cli_world cli.dbPath
            (log_bytes (ex_entries ++ [mkEntry 7 "name" "alice"])),
          [cli.Println "alice"], 0).
Proof.
  apply (cli_set_then_get "atomkv" "atomkv" "name" "alice" 7 8 cli_world
           ex_entries).
  - reflexivity.
  - reflexivity.
  - repeat constructor.
  - reflexivity.
  - reflexivity.
  - reflexivity.
Defined.

(** X16.  [atomkv get k] on a well-formed database prints the value of the
    last record of [k] and exits with status 0, or reports
    [ErrKeyNotFound] and exits with status 1 when the log has no record
    of [k].  The log is not changed; a database file that did not exist
    is created empty. *)
Theorem cli_get_reads_latest prog k now w es :
  quiet w → db_log w es → Forall entry_ok es → log_size es < 2 ^ 63 →
  cli.main [prog; "get"%string; k] now w
  = Some (store w cli.dbPath (log_bytes es),
          match last_entry es k with
          | Some e => [cli.Println (e_value e)]
          | None => [cli.Fprintf_Stderr "error: %v\n" ErrKeyNotFound]
          end,
          match last_entry es k with Some _ => 0 | None => 1 end).
Proof.
  intros Hq Hlog Hok Hsz.
  destruct (Open_Load_quiet cli.dbPath w es Hq Hlog Hok)
    as (b & Hopen & Hq0 & Hload & Hinv & Hc & Hp).
  destruct (Close_inv _ _ _ Hinv Hq0) as (b2 & Hclose & _).
  unfold cli.main. cbn [length Nat.ltb Nat.leb]. rewrite Hopen, Hload.
  cbn [cli.Arg lookup list_lookup default String.eqb Ascii.eqb Bool.eqb
       length Nat.eqb negb from_option id].
  rewrite (Get_complete _ _ _ k Hinv Hc Hq0 Hsz).
  destruct (last_entry es k); [by rewrite Hclose|done].
Qed.

Lemma cli_get_reads_latest_witness :
  cli.main ["atomkv"; "get"; "a"]%string 9 cli_world
  = Some (store cli_world cli.dbPath (log_bytes ex_entries),
          match last_entry ex_entries "a" with
          | Some e => [cli.Println (e_value e)]
          | None => [cli.Fprintf_Stderr "error: %v\n" ErrKeyNotFound]
          end,
          match last_entry ex_entries "a" with Some _ => 0 | None => 1 end).
Proof.
  apply (cli_get_reads_latest "atomkv" "a" 9 cli_world ex_entries).
  - reflexivity.
  - reflexivity.
  - repeat constructor.
  - reflexivity.
Defined.

Lemma Open_frame p w w' r :
  Open p w = (w', r) →
  same_but p w w' ∧
  default [] (files w' !! p) = default [] (files w !! p) ∧
  ∀ b, r = inr b → f_name (file b) = p.
Proof.
  unfold Open, OpenFile, same_but. intros H.
  pose proof (next_fault_files w) as Hf.
  destruct (next_fault w) as [[x|] w1]; cbn [fst snd] in Hf.
  - simplify_eq. rewrite Hf. by repeat split.
  - destruct (files w1 !! p) as [d|] eqn:Hd; simplify_eq.
    + rewrite Hf. repeat split; try done. by intros b [= <-].
    + split; [intros q Hq; cbn [store files];
              by rewrite lookup_insert_ne, Hf|].
      cbn [store files]. rewrite lookup_insert_eq, <- Hf, Hd.
      split; [done|]. by intros b [= <-].
Qed.

Lemma Load_frame b w w' b' e :
  Load b w = Some (w', b', e) →
  files w' = files w ∧ f_name (file b') = f_name (file b) ∧ path b' = path b.
Proof.
  unfold Load. intros Hload.
  destruct (Seek (file b) 0 SeekStart w) as [[w1 f1] [e1|p]] eqn:Hs;
    pose proof (Seek_frame _ _ _ _ _ _ _ Hs) as ((Hn1 & _) & Hf1 & _).
  { by simplify_eq. }
  destruct (Load_loop _ f1 (index b) w1) as [[[[w2 f2] idx2] e2]|] eqn:Hl;
    [|done].
  apply Load_loop_frame in Hl as ((Hn2 & _) & Hf2 & _). simplify_eq.
  cbn [file path]. split; [congruence|]. split; [congruence|done].
Qed.

(** X17.  The client never rewrites data.  Whatever its arguments, whatever
    the database file holds and whatever faults occur, it terminates with
    status 0 or 1, touches no file but the database, and leaves the bytes
    the database held in place: bytes are only ever added at the end, and
    only by [set] with a key and a value.  With no command at all it does
    not even open the database. *)
Theorem cli_never_rewrites Args now w :
  ∃ w' out code,
    cli.main Args now w = Some (w', out, code) ∧
    (code = 0 ∨ code = 1) ∧
    (∀ q, q ≠ cli.dbPath → files w' !! q = files w !! q) ∧
    (∃ tail,
       default [] (files w' !! cli.dbPath)
       = default [] (files w !! cli.dbPath) ++ tail ∧
       (tail ≠ [] →
        length Args = 4%nat ∧ cli.Arg Args 1 = "set"%string)) ∧
    ((length Args < 2)%nat → w' = w ∧ out = cli.usage ∧ code = 1).
Proof.
  unfold cli.main.
  destruct (Nat.ltb_spec (length Args) 2) as [Hlt|Hge].
  { exists w, cli.usage, 1. split; [done|]. split; [by right|].
    split; [done|]. split; [|done]. exists []. by rewrite app_nil_r. }
  destruct (Open cli.dbPath w) as [w0 [e0|db0]] eqn:Hopen;
    apply Open_frame in Hopen as (Hoth0 & Hdb0 & Hname0).
  { eexists _, _, _. split; [done|]. split; [by right|]. split; [done|].
    split; [|lia]. exists []. by rewrite app_nil_r. }
  specialize (Hname0 _ eq_refl).
  destruct (Load_terminates db0 w0) as [[[w1 db1] e1] Hload].
  rewrite Hload. apply Load_frame in Hload as (Hf1 & Hname1 & _).
  assert (Hkeep : ∀ w2, files w2 = files w1 →
            (∀ q, q ≠ cli.dbPath → files w2 !! q = files w !! q) ∧
            ∃ tail, default [] (files w2 !! cli.dbPath)
                    = default [] (files w !! cli.dbPath) ++ tail ∧
                    (tail ≠ [] → length Args = 4%nat ∧
                                 cli.Arg Args 1 = "set"%string)).
  { intros w2 Hf2. rewrite Hf2, Hf1. split; [done|].
    exists []. by rewrite app_nil_r. }
  destruct e1 as [e1|].
  { eexists _, _, _. split; [done|]. split; [by right|].
    destruct (Hkeep w1 eq_refl) as [? ?]. split; [done|]. split; [done|lia]. }
  destruct (String.eqb_spec (cli.Arg Args 1) "set") as [Hset|Hnset].
  - destruct (Nat.eqb_spec (length Args) 4) as [H4|Hn4]; cbn [negb].
    2:{ eexists _, _, _. split; [done|]. split; [by right|].
        destruct (Hkeep w1 eq_refl) as [? ?].
        split; [done|]. split; [done|lia]. }
    destruct (Set_ db1 _ _ now w1) as [[w2 db2] e2] eqn:Hs.
    apply Set_appends in Hs as (tail & Hct & _ & _ & Hoth2).
    unfold content in Hct. rewrite Hname1, Hname0, Hf1, Hdb0 in Hct.
    rewrite Hname1, Hname0 in Hoth2.
    destruct e2 as [e2|].
    + eexists _, _, _. split; [done|]. split; [by right|].
      split; [intros q Hq; by rewrite Hoth2, Hf1, Hoth0|].
      split; [by exists tail|lia].
    + destruct (atomkv.Close db2 w2) as [[w3 db3] e3] eqn:Hc.
      unfold atomkv.Close in Hc.
      destruct (os.Close (file db2) w2) as [[w3' f3] e3'] eqn:Hc'.
      apply Close_frame in Hc' as [_ Hf3]. simplify_eq.
      eexists _, _, _. split; [done|]. split; [by left|]. rewrite Hf3.
      split; [intros q Hq; by rewrite Hoth2, Hf1, Hoth0|].
      split; [by exists tail|lia].
  - destruct (String.eqb_spec (cli.Arg Args 1) "get") as [Hget|Hnget].
    2:{ eexists _, _, _. split; [done|]. split; [by right|].
        destruct (Hkeep w1 eq_refl) as [? ?].
        split; [done|]. split; [done|lia]. }
    destruct (Nat.eqb_spec (length Args) 3) as [H3|Hn3]; cbn [negb].
    2:{ eexists _, _, _. split; [done|]. split; [by right|].
        destruct (Hkeep w1 eq_refl) as [? ?].
        split; [done|]. split; [done|lia]. }
    pose proof (Get_frame db1 (cli.Arg Args 2) w1) as Hg.
    destruct (Get db1 _ w1) as [w2 [val [e2|]]]; cbn [fst] in Hg.
    + eexists _, _, _. split; [done|]. split; [by right|].
      destruct (Hkeep w2 Hg) as [? ?]. split; [done|]. split; [done|lia].
    + destruct (atomkv.Close db1 w2) as [[w3 db3] e3] eqn:Hc.
      unfold atomkv.Close in Hc.
      destruct (os.Close (file db1) w2) as [[w3' f3] e3'] eqn:Hc'.
      apply Close_frame in Hc' as [_ Hf3]. simplify_eq.
      eexists _, _, _. split; [done|]. split; [by left|].
      destruct (Hkeep w3 (eq_trans Hf3 Hg)) as [? ?].
      split; [done|]. split; [done|lia].
Qed.

(** ** The HTTP server: proofs *)

(** X18.  A [POST /set] of a key and value that fit the record format is
    answered [200 OK] and appends one record; a [GET /get] of the key
    then answers 200 with the value -- unless the key is empty: the
    engine stores the empty key and returns its value, but the handler
    answers 400 to it, so the value cannot be read back over HTTP. *)
Theorem http_set_then_get w db es k v now q body :
  inv w db es → quiet w → len k < 2 ^ 32 → len v < 2 ^ 32 →
  log_size es + (16 + len k + len v) < 2 ^ 63 →
  ∃ w1 db1,
    server.handleSet db
      (server.mkRequest "POST" (Some (server.mkSetRequest k v)) q) now w
    = (w1, db1, server.mkResponse 200 (server.Fprint "OK")) ∧
    inv w1 db1 (es ++ [mkEntry now k v]) ∧
    Get db1 k w1 = (w1, (v, None)) ∧
    server.handleGet db1 (server.mkRequest "GET" body k) w1
    = (w1, if decide (k = EmptyString)
           then server.mkResponse 400
                  (server.Error_text "missing key parameter")
           else server.mkResponse 200 (server.Fprint v)).
Proof.
  intros Hinv Hq Hk Hv Hsz.
  destruct (Set_then_reopen w db es k v now Hinv Hq)
    as (w1 & db1 & Hset & Hq1 & Hinv1 & _ & Hget & _); [done|done|].
  exists w1, db1. unfold server.handleSet, server.handleGet.
  cbn [server.Method server.Body server.Key server.Value server.Query_key
       String.eqb Ascii.eqb Bool.eqb negb].
  rewrite Hset. split; [done|]. split; [done|]. split; [done|].
  destruct (String.eqb_spec k "") as [->|Hne].
  - by rewrite decide_True.
  - rewrite decide_False by done. by rewrite Hget.
Qed.

Lemma http_set_then_get_witness :
  ∃ w1 db1,
    server.handleSet ex_db
      (server.mkRequest "POST" (Some (server.mkSetRequest "" "v")) "") 7
      ex_world
    = (w1, db1, server.mkResponse 200 (server.Fprint "OK")) ∧
    inv w1 db1 (ex_entries ++ [mkEntry 7 "" "v"]) ∧
    Get db1 "" w1 = (w1, ("v"%string, None)) ∧
    server.handleGet db1 (server.mkRequest "GET" None "") w1
    = (w1, if decide (EmptyString = EmptyString)
           then server.mkResponse 400
                  (server.Error_text "missing key parameter")
           else server.mkResponse 200 (server.Fprint "v")).
Proof.
  apply (http_set_then_get ex_world ex_db ex_entries "" "v" 7 "" None).
  - apply ex_inv.
  - reflexivity.
  - reflexivity.
  - reflexivity.
  - reflexivity.
Defined.

(** X19.  [GET /get] is read-only and its status tells the cases apart,
    whatever faults occur: the files are never changed; the answer is 405
    exactly for another method, 400 exactly for a [GET] without a key,
    and 404 exactly for a [GET] of a non-empty key that is not in the
    index -- a read error is never reported as 404. *)
Theorem http_get_status db r w :
  let res := server.handleGet db r w in
  files res.1 = files w ∧
  (server.status res.2 = 405 ↔ server.Method r ≠ "GET"%string) ∧
  (server.status res.2 = 400 ↔
   server.Method r = "GET"%string ∧ server.Query_key r = EmptyString) ∧
  (server.status res.2 = 404 ↔
   server.Method r = "GET"%string ∧ server.Query_key r ≠ EmptyString ∧
   index db !! server.Query_key r = None).
Proof.
  cbv zeta. unfold server.handleGet.
  destruct (String.eqb_spec (server.Method r) "GET") as [Hm|Hm]; cbn [negb].
  2:{ cbn. repeat split; try done; try (by intros [? ?]). }
  destruct (String.eqb_spec (server.Query_key r) "") as [Hk|Hk].
  { cbn. repeat split; try done; try (by intros (? & ? & ?)). }
  pose proof (Get_frame db (server.Query_key r) w) as Hf.
  unfold Get in *.
  destruct (index db !! server.Query_key r) as [off|] eqn:Hi.
  2:{ cbn. repeat split; try done; by intros [? ?]. }
  destruct (ReadAt (file db) 16 off w) as [w1 [hdr [e|]]] eqn:Hh.
  - pose proof (ReadAt_error_not_KeyNotFound _ _ _ _ _ _ _ Hh) as He.
    cbn [fst] in Hf.
    destruct e; [done|..]; cbn;
      (repeat split; try done; try (by intros (? & ? & ?)); by intros [? ?]).
  - destruct (ReadAt (file db) _ _ w1) as [w2 [vb [e|]]] eqn:Hv.
    + pose proof (ReadAt_error_not_KeyNotFound _ _ _ _ _ _ _ Hv) as He.
      cbn [fst] in Hf.
      destruct e; [done|..]; cbn;
        (repeat split; try done; try (by intros (? & ? & ?));
         by intros [? ?]).
    + cbn [fst] in Hf. cbn.
      repeat split; try done; try (by intros (? & ? & ?)); by intros [? ?].
Qed.

(** X20.  [POST /compact] on a well-formed store with no fault pending is
    answered [200 OK], and compaction is invisible to clients: every
    [GET /get] request gets the response it would have got before, and
    [GET /keys] lists, each once, the keys that were indexed before. *)
Theorem http_compact_keeps_answers w db es order body q :
  inv w db es → quiet w → log_size es < 2 ^ 63 →
  range_order (index db) order →
  ∃ w' db',
    server.handleCompact db order (server.mkRequest "POST" body q) w
    = (w', db', server.mkResponse 200 (server.Fprint "OK")) ∧
    (∀ r, (server.handleGet db' r w').2 = (server.handleGet db r w).2) ∧
    (∀ order' body' q',
       range_order (index db') order' →
       ∃ keys,
         server.handleKeys db' order' (server.mkRequest "GET" body' q')
         = server.mkResponse 200 (server.Encode keys) ∧
         NoDup keys ∧ ∀ k, k ∈ keys ↔ is_Some (index db !! k)).
Proof.
  intros Hinv Hq Hsz Hord.
  destruct (Compact_inv _ _ _ _ Hinv Hq Hord)
    as (w' & db' & ces & Hrun & Hq' & Hall & Hinv' & Hpath & Hidx).
  pose proof (compacted_smaller _ _ _ _ Hord Hall) as Hle.
  assert (Hdom : ∀ k, is_Some (index db' !! k) ↔ is_Some (index db !! k)).
  { intros k. split.
    - intros [off' Hk]. destruct (inv_index _ _ _ Hinv' _ _ Hk) as [e' Hl'].
      destruct (compacted_latest _ _ _ _ _ _ _ _ Hinv Hord Hall Hl')
        as (off & e & Hk0 & _). by exists off.
    - intros [off Hk]. destruct (inv_index _ _ _ Hinv _ _ Hk) as [e Hl].
      destruct (compacted_indexed _ _ _ _ _ _ _ _ Hinv Hord Hall Hk Hl)
        as (off' & Hk' & _). exists off'. by rewrite Hidx. }
  exists w', db'. split; [|split].
  - unfold server.handleCompact.
    cbn [server.Method String.eqb Ascii.eqb Bool.eqb negb]. by rewrite Hrun.
  - intros r. unfold server.handleGet.
    destruct (negb _); [done|].
    destruct (String.eqb _ ""); [done|].
    set (k := server.Query_key r).
    destruct (index db !! k) as [off|] eqn:Hk.
    + destruct (inv_index _ _ _ Hinv _ _ Hk) as [e Hl].
      rewrite (Get_inv _ _ _ _ _ _ Hinv Hq Hsz Hk Hl).
      destruct (compacted_indexed _ _ _ _ _ _ _ _ Hinv Hord Hall Hk Hl)
        as (off' & Hk' & Hl').
      rewrite <- Hidx in Hk'.
      rewrite (Get_inv _ _ _ k off' (compacted e) Hinv' Hq'); [done|lia|done..].
    + assert (index db' !! k = None) as Hk'.
      { destruct (index db' !! k) eqn:Hk'; [|done].
        destruct (proj1 (Hdom k)) as [? ?]; [by eexists|congruence]. }
      unfold Get. by rewrite Hk, Hk'.
  - intros order' body' q' Hord'.
    destruct (Keys_range _ _ Hord') as [Hnd Hin].
    exists (Keys db' order'). split; [done|]. split; [done|].
    intros k. by rewrite Hin, Hdom.
Qed.

Lemma http_compact_keeps_answers_witness :
  ∃ w' db',
    server.handleCompact ex_db (map_to_list (index ex_db))
      (server.mkRequest "POST" None "") ex_world
    = (w', db', server.mkResponse 200 (server.Fprint "OK")) ∧
    (∀ r, (server.handleGet db' r w').2
          = (server.handleGet ex_db r ex_world).2) ∧
    (∀ order' body' q',
       range_order (index db') order' →
       ∃ keys,
         server.handleKeys db' order' (server.mkRequest "GET" body' q')
         = server.mkResponse 200 (server.Encode keys) ∧
         NoDup keys ∧ ∀ k, k ∈ keys ↔ is_Some (index ex_db !! k)).
Proof.
  apply (http_compact_keeps_answers ex_world ex_db ex_entries).
  - apply ex_inv.
  - reflexivity.
  - reflexivity.
  - unfold range_order. reflexivity.
Defined.
